(** * A shallow embedding of [command_line_parser.hpp]

    The header defines one class, [CommandLineParser], holding a schema
    (declared arguments, at most one argument pack, declared options with
    their short-name aliases) and the values bound by the last [Parse].

    The embedding follows the header function by function:
    - the C and C++ library routines the header calls ([std::isalpha],
      [std::isalnum], [std::stoi], [std::setw], [std::to_string]);
    - [Value], [Argument], [Option] and the parser object itself;
    - [VerifyName], [AddArgument], [AddArgumentPack], [AddOption];
    - [UsageInfo] and [HelpInfo];
    - [Parse], split at the loops of its body, and [operator[]].

    [std::map] is a [gmap]; [std::vector] is a [list]; [size_t] arithmetic
    that can wrap is written in [Z] modulo [2^64]; a call of [exit] and an
    out-of-range [operator[]] on a vector are outcomes of [Parse]. *)

From Stdlib Require Import String Ascii ZArith List Lia.
From stdpp Require Import gmap strings list fin_maps sorting pretty.
From Equations Require Import Equations.
From Equations.Prop Require Import Logic.

(** ** Library routines used by the header *)

Module CLib.

(** Character classes of [<cctype>] in the "C" locale; no character
    outside ASCII is in any of them. *)
Definition code (c : ascii) : nat := nat_of_ascii c.

Definition between (lo hi : nat) (c : ascii) : bool :=
  Nat.leb lo (code c) && Nat.leb (code c) hi.

Definition isdigit (c : ascii) : bool := between 48 57 c.
Definition isupper (c : ascii) : bool := between 65 90 c.
Definition islower (c : ascii) : bool := between 97 122 c.
Definition isalpha (c : ascii) : bool := isupper c || islower c.
Definition isalnum (c : ascii) : bool := isalpha c || isdigit c.
(** space, and the range from horizontal tab to carriage return *)
Definition isspace (c : ascii) : bool := Nat.eqb (code c) 32 || between 9 13 c.

Definition digit_value (c : ascii) : Z := Z.of_nat (code c - 48).

(** [s.substr(pos)] for [pos <= s.size()]. *)
Fixpoint substr (pos : nat) (s : string) : string :=
  match pos, s with
  | O, _ => s
  | S pos', String _ s' => substr pos' s'
  | S _, EmptyString => EmptyString
  end.

(** [s.substr(0, n)]. *)
Fixpoint prefix (n : nat) (s : string) : string :=
  match n, s with
  | S n', String c s' => String c (prefix n' s')
  | _, _ => EmptyString
  end.

(** [s.find(c)]: the position of the first [c], [None] for [npos]. *)
Fixpoint find (c : ascii) (s : string) : option nat :=
  match s with
  | EmptyString => None
  | String d s' => if Ascii.eqb d c then Some O else S <$> find c s'
  end.

Definition INT_MIN : Z := - 2 ^ 31.
Definition INT_MAX : Z := 2 ^ 31 - 1.

(** What a call of [std::stoi(str)] does: it returns an [int], or throws
    [std::invalid_argument] (no conversion could be performed) or
    [std::out_of_range] (the converted value does not fit in [int]). *)
Inductive stoi_result : Type :=
| StoiValue (n : Z)
| StoiInvalidArgument
| StoiOutOfRange.

(** [strtol] in base 10 discards leading white space, ... *)
Fixpoint skip_space (s : string) : string :=
  match s with
  | String c s' => if isspace c then skip_space s' else s
  | EmptyString => s
  end.

(** ... takes an optional sign, ... *)
Definition take_sign (s : string) : bool * string :=
  match s with
  | String c s' =>
      if Ascii.eqb c "-"%char then (true, s')
      else if Ascii.eqb c "+"%char then (false, s')
      else (false, s)
  | EmptyString => (false, s)
  end.

(** ... and then as many decimal digits as there are: the value read so
    far and the number of digits read. *)
Fixpoint read_digits (s : string) (acc : Z) (count : nat) : Z * nat :=
  match s with
  | String c s' =>
      if isdigit c then read_digits s' (10 * acc + digit_value c)%Z (S count)
      else (acc, count)
  | EmptyString => (acc, count)
  end.

Definition stoi (str : string) : stoi_result :=
  let '(negative, s) := take_sign (skip_space str) in
  let '(magnitude, count) := read_digits s 0%Z O in
  match count with
  | O => StoiInvalidArgument
  | S _ =>
      let n := if negative then (- magnitude)%Z else magnitude in
      if ((INT_MIN <=? n) && (n <=? INT_MAX))%Z then StoiValue n
      else StoiOutOfRange
  end.

(** [try { std::stoi(str); } catch (std::exception &e) { ... }]: both
    exceptions derive from [std::exception], so the handler runs exactly
    when [stoi] does not return. *)
Definition stoi_throws (str : string) : bool :=
  match stoi str with
  | StoiValue _ => false
  | StoiInvalidArgument | StoiOutOfRange => true
  end.

(** [os << std::left << std::setw(width) << s]: [s] followed by fill
    characters up to [width]. *)
Definition setw_left (width : nat) (s : string) : string :=
  s +:+ string_of_list_ascii (replicate (width - String.length s) " "%char).

(** [std::to_string(n)], and [os << n], for an unsigned [n]. *)
Definition to_string (n : nat) : string := pretty n.

(** [std::endl] as it shows in the text written. *)
Definition endl : string := String "010"%char EmptyString.

End CLib.

(** ** [CommandLineParser::Value] *)

Record Value : Type := mkValue {
  valid_ : bool;
  value_ : string;
  values_ : list string
}.

#[global] Instance Value_eq_dec : EqDecision Value.
Proof. solve_decision. Defined.

(** [Value()] *)
Definition Value_default : Value :=
  {| valid_ := false; value_ := ""; values_ := [] |}.

(** [explicit Value(std::string str_value)] *)
Definition Value_of_string (str_value : string) : Value :=
  {| valid_ := negb (String.eqb str_value ""); value_ := str_value; values_ := [] |}.

(** [explicit Value(std::vector<std::string> str_values)] *)
Definition Value_of_strings (str_values : list string) : Value :=
  {| valid_ := true;
     value_ := match str_values with [] => "" | v :: _ => v end;
     values_ := str_values |}.

(** [operator bool() const] *)
Definition Value_bool (v : Value) : bool := valid_ v.

(** [size_t size()] *)
Definition Value_size (v : Value) : nat := length (values_ v).

(** [Value operator[](size_t index) const] *)
Definition Value_at (v : Value) (index : nat) : Value :=
  match values_ v !! index with
  | Some s => Value_of_string s
  | None => Value_default
  end.

(** [int ToInt() const] *)
Definition Value_ToInt (v : Value) : CLib.stoi_result := CLib.stoi (value_ v).

(** [std::string ToString() const] *)
Definition Value_ToString (v : Value) : string := value_ v.

(** ** The schema records and the parser object *)

Module Argument.
Record t : Type := mk {
  name : string;
  note : string;
  only_number : bool;
  is_package : bool
}.
End Argument.

Module Option.
Record t : Type := mk {
  name : string;
  short_name : string;
  note : string;
  value_count : nat;   (* [size_t]: only compared and counted up to *)
  only_number : bool;
  index : Z            (* [size_t], assigned from a subtraction *)
}.

(** A value-initialised [Option], which is what [std::map::operator[]]
    inserts for a key that is absent. *)
Definition zero : t :=
  {| name := ""; short_name := ""; note := ""; value_count := 0;
     only_number := false; index := 0 |}.
End Option.

#[global] Instance Option_inhabited : Inhabited Option.t := populate Option.zero.

Record Parser : Type := mkParser {
  app_name_ : string;
  app_path_ : string;
  app_note_ : string;
  have_argument_pack_ : bool;
  all_arguments_ : list Argument.t;
  all_options_ : gmap string Option.t;
  short_name_to_name_of_option_ : gmap string string;
  cur_values_ : gmap string Value
}.

(** [size_t] is 64 bits wide. *)
Definition size_t_modulus : Z := 2 ^ 64.
Definition size_t_wrap (z : Z) : Z := z mod size_t_modulus.

(** [m[k]] on a [std::map], as far as the map itself is concerned: an
    absent key is inserted with a value-initialised value.  The reference
    that the expression yields is [subscript m k !!! k]. *)
Definition subscript {V : Type} `{Inhabited V}
    (m : gmap string V) (k : string) : gmap string V :=
  match m !! k with
  | Some _ => m
  | None => <[k := inhabitant]> m
  end.

(** [CommandLineParser(command_name, command_note)] *)
Definition CommandLineParser (command_name command_note : string) : Parser :=
  {| app_name_ := command_name;
     app_path_ := "";
     app_note_ := command_note;
     have_argument_pack_ := false;
     all_arguments_ := [];
     all_options_ := ∅;
     short_name_to_name_of_option_ := ∅;
     cur_values_ := ∅ |}.

(** ** Registration *)

(** [bool VerifyName(const std::string &name)] *)
Definition VerifyName (name : string) : bool :=
  match name with
  | EmptyString => false
  | String c0 _ =>
      if negb (CLib.isalpha c0) then false
      else
        forallb
          (fun c => negb (negb (CLib.isalnum c) && negb (CLib.isalpha c)
                          && negb (Ascii.eqb c "_"%char)))
          (list_ascii_of_string name)
  end.

(** The diagnostics that the three functions write to [std::cerr] before
    they return [false] are not part of the state and are left out. *)

Definition name_already_exist (name : string) (arguments : list Argument.t) : bool :=
  existsb (fun argument => String.eqb name (Argument.name argument)) arguments.

Definition AddArgument (p : Parser) (name note : string) (only_number : bool)
    : bool * Parser :=
  if String.eqb name "" || Nat.ltb 32 (String.length name) || negb (VerifyName name)
  then (false, p)
  else if name_already_exist name (all_arguments_ p) then (false, p)
  else
    (true,
     {| app_name_ := app_name_ p; app_path_ := app_path_ p;
        app_note_ := app_note_ p;
        have_argument_pack_ := have_argument_pack_ p;
        all_arguments_ :=
          all_arguments_ p ++ [Argument.mk name note only_number false];
        all_options_ := all_options_ p;
        short_name_to_name_of_option_ := short_name_to_name_of_option_ p;
        cur_values_ := cur_values_ p |}).

Definition AddArgumentPack (p : Parser) (name note : string) (only_number : bool)
    : bool * Parser :=
  if have_argument_pack_ p then (false, p)
  else if String.eqb name "" || Nat.ltb 32 (String.length name) || negb (VerifyName name)
  then (false, p)
  else if name_already_exist name (all_arguments_ p) then (false, p)
  else
    (true,
     {| app_name_ := app_name_ p; app_path_ := app_path_ p;
        app_note_ := app_note_ p;
        have_argument_pack_ := true;
        all_arguments_ :=
          all_arguments_ p ++ [Argument.mk name note only_number true];
        all_options_ := all_options_ p;
        short_name_to_name_of_option_ := short_name_to_name_of_option_ p;
        cur_values_ := cur_values_ p |}).

(** [name[i] != c] for an [i] known to be in range. *)
Definition char_differs (s : string) (i : nat) (c : ascii) : bool :=
  match String.get i s with
  | Some d => negb (Ascii.eqb d c)
  | None => true
  end.

(** The six assignments through [all_options_[name]]: the first inserts the
    entry, so that [all_options_.size()] already counts it when [index] is
    computed. *)
Definition store_option (options : gmap string Option.t) (name : string)
    (value_count : nat) (short_name note : string) (only_number : bool)
    : gmap string Option.t :=
  let entry :=
    {| Option.name := name; Option.short_name := short_name;
       Option.note := note; Option.value_count := value_count;
       Option.only_number := only_number;
       Option.index := Option.index (subscript options name !!! name) |} in
  let options1 := <[name := entry]> (subscript options name) in
  let index := size_t_wrap (Z.of_nat (size options1) - 1) in
  <[name :=
      {| Option.name := name; Option.short_name := short_name;
         Option.note := note; Option.value_count := value_count;
         Option.only_number := only_number; Option.index := index |}]> options1.

Definition AddOption (p : Parser) (name : string) (value_count : nat)
    (short_name note : string) (only_number : bool) : bool * Parser :=
  let commit :=
    (true,
     {| app_name_ := app_name_ p; app_path_ := app_path_ p;
        app_note_ := app_note_ p;
        have_argument_pack_ := have_argument_pack_ p;
        all_arguments_ := all_arguments_ p;
        all_options_ :=
          store_option (all_options_ p) name value_count short_name note
            only_number;
        short_name_to_name_of_option_ :=
          if negb (String.eqb short_name "")
          then <[short_name := name]> (short_name_to_name_of_option_ p)
          else short_name_to_name_of_option_ p;
        cur_values_ := cur_values_ p |}) in
  if bool_decide (is_Some (all_options_ p !! name)) then (false, p)
  else if Nat.ltb (String.length name) 3 || Nat.ltb 32 (String.length name)
          || char_differs name 0 "-" || char_differs name 1 "-"
          || negb (VerifyName (CLib.substr 2 name))
  then (false, p)
  else if negb (String.eqb short_name "") then
    if bool_decide (is_Some (short_name_to_name_of_option_ p !! short_name))
    then (false, p)
    else if Nat.ltb (String.length short_name) 2
            || Nat.ltb 16 (String.length short_name)
            || char_differs short_name 0 "-"
            || negb (VerifyName (CLib.substr 1 short_name))
    then (false, p)
    else commit
  else commit.

(** ** Usage and help text *)

(** A range-based [for] over a [std::map] visits the entries by increasing
    key; [std::string] keys compare byte by byte. *)
Definition key_le {V : Type} (e1 e2 : string * V) : Prop :=
  String.leb e1.1 e2.1 = true.

#[global] Instance key_le_dec {V : Type} (e1 e2 : string * V) :
  Decision (key_le e1 e2).
Proof. unfold key_le. apply _. Defined.

Definition in_key_order {V : Type} (m : gmap string V) : list (string * V) :=
  merge_sort key_le (map_to_list m).

(** [std::sort] with [op1.index < op2.index].  The order it leaves equal
    elements in is unspecified; the indexes that [AddOption] assigns are
    pairwise different. *)
Definition index_le (op1 op2 : Option.t) : Prop :=
  (Option.index op1 <= Option.index op2)%Z.

#[global] Instance index_le_dec (op1 op2 : Option.t) : Decision (index_le op1 op2).
Proof. unfold index_le. apply _. Defined.

Definition options_by_index (options : gmap string Option.t) : list Option.t :=
  merge_sort index_le (snd <$> in_key_order options).

Definition argument_usage (argument : Argument.t) : string :=
  " <" +:+ Argument.name argument
  +:+ (if Argument.is_package argument then "..." else "")
  +:+ (if Argument.only_number argument then ": NUM" else "") +:+ ">".

Definition option_title (option : Option.t) : string :=
  if String.eqb (Option.short_name option) "" then Option.name option
  else Option.short_name option +:+ "|" +:+ Option.name option.

Definition option_usage (option : Option.t) : string :=
  " [" +:+ option_title option
  +:+ String.concat ""
       ((fun i => (if Option.only_number option then " N" else " V")
                  +:+ CLib.to_string (i + 1))
          <$> seq 0 (Option.value_count option))
  +:+ "]".

(** [std::string UsageInfo() const] *)
Definition UsageInfo (p : Parser) : string :=
  "Usage: " +:+ (if negb (String.eqb (app_path_ p) "") then app_path_ p else "command")
  +:+ String.concat "" (argument_usage <$> all_arguments_ p)
  +:+ String.concat "" (option_usage <$> options_by_index (all_options_ p)).

(** The lambda [print_note] of [HelpInfo]: each line of the note but the
    last is followed by a line break and the indentation of the column. *)
Equations? print_note (note : string) (left_width : nat) : string
    by wf (String.length note) lt :=
  print_note note left_width with inspect (CLib.find "010"%char note) := {
    | exist _ (Some pos) _ =>
        " " +:+ CLib.prefix pos note +:+ CLib.endl
        +:+ CLib.setw_left left_width " "
        +:+ print_note (CLib.substr (S pos) note) left_width
    | exist _ None _ => if String.eqb note "" then "" else " " +:+ note }.
Proof.
  assert (Hle : forall n s, String.length (CLib.substr n s) <= String.length s).
  { induction n as [|n IHn]; intros s; destruct s as [|c s]; simpl; try lia.
    specialize (IHn s). lia. }
  destruct note as [|c note]; [discriminate|].
  simpl. specialize (Hle pos note). lia.
Qed.

Definition argument_left (argument : Argument.t) : string :=
  " <" +:+ Argument.name argument
  +:+ (if Argument.is_package argument then "...>" else ">")
  +:+ (if Argument.only_number argument then ": N" else ": V").

Definition option_left (option : Option.t) : string :=
  " [" +:+ option_title option
  +:+ (if Nat.ltb 0 (Option.value_count option) then " " else "")
  +:+ String.concat ""
       ((fun i => (if Option.only_number option then "N" else "V")
                  +:+ CLib.to_string (i + 1)
                  +:+ (if Nat.ltb i (Option.value_count option - 1) then " " else ""))
          <$> seq 0 (Option.value_count option))
  +:+ "]".

(** The column width of a table: the longest left part plus ten, at most 50. *)
Definition column_width (lefts : list string) : nat :=
  Nat.min 50 (foldl (fun width left => Nat.max width (String.length left)) 0 lefts + 10).

Definition help_rows (lefts notes : list string) : string :=
  let width := column_width lefts in
  String.concat ""
    (zip_with
       (fun left note => CLib.setw_left width left +:+ print_note note width +:+ CLib.endl)
       lefts notes).

(** [HelpInfo] calls [UsageInfo] between two [std::swap(app_name_, app_path_)]. *)
Definition swap_name_and_path (p : Parser) : Parser :=
  {| app_name_ := app_path_ p; app_path_ := app_name_ p;
     app_note_ := app_note_ p;
     have_argument_pack_ := have_argument_pack_ p;
     all_arguments_ := all_arguments_ p;
     all_options_ := all_options_ p;
     short_name_to_name_of_option_ := short_name_to_name_of_option_ p;
     cur_values_ := cur_values_ p |}.

(** [std::string HelpInfo() const] *)
Definition HelpInfo (p : Parser) : string :=
  UsageInfo (swap_name_and_path p) +:+ CLib.endl
  +:+ (if negb (String.eqb (app_note_ p) "") then app_note_ p +:+ CLib.endl else "")
  +:+ (if bool_decide (all_arguments_ p ≠ []) then
        CLib.endl
        +:+ "Argument with '...' is package, 'N' means number, 'V' means string: "
        +:+ CLib.endl
        +:+ help_rows (argument_left <$> all_arguments_ p)
             (Argument.note <$> all_arguments_ p)
      else "")
  +:+ (if bool_decide (all_options_ p ≠ ∅) then
        CLib.endl
        +:+ "Option value with 'N' means number, 'V' means string: "
        +:+ CLib.endl
        +:+ help_rows (option_left <$> options_by_index (all_options_ p))
             (Option.note <$> options_by_index (all_options_ p))
      else "").

(** ** [Parse] *)

(** The message that a failing [Parse] writes to [std::cerr] before it calls
    [show_usage_info_and_exit], by the values it prints. *)
Inductive Diagnostic : Type :=
| ArgumentCountPositive (argc : nat)
| OptionRequireNumber (option_name value : string)
| OptionValueCount (option_name : string) (expected current : nat)
| ArgumentCountAtLeast (least : Z) (current : nat)
| PackValueCount (name : string) (current : Z)
| PackRequireNumber (name value : string)
| ArgumentRequireNumber (name value : string)
| ArgumentCountMustBe (expected current : nat).

(** A stretch of [Parse]: it runs to its end, or leaves through
    [show_usage_info_and_exit], or indexes a vector out of its range. *)
Inductive Step (A : Type) : Type :=
| Ok (a : A)
| Abort (d : Diagnostic)
| OutOfRange.
Arguments Ok {A} a.
Arguments Abort {A} d.
Arguments OutOfRange {A}.

#[global] Instance Step_ret : MRet Step := fun A a => Ok a.
#[global] Instance Step_bind : MBind Step := fun A B k s =>
  match s with
  | Ok a => k a
  | Abort d => Abort d
  | OutOfRange => OutOfRange
  end.

(** [v[i]] on a [std::vector]. *)
Definition at_index {A : Type} (v : list A) (i : nat) : Step A :=
  match v !! i with
  | Some x => Ok x
  | None => OutOfRange
  end.

(** What a call of [Parse] comes to. *)
Inductive Outcome : Type :=
| Returned (result : bool) (p : Parser)
| Exited (status : Z) (out : string)   (* [std::cout << out; exit(status)] *)
| Fatal (d : Diagnostic)               (* [show_usage_info_and_exit()], which is [exit(-1)] *)
| Undefined.                           (* a vector indexed out of its range *)

Definition exit_status (o : Outcome) : option Z :=
  match o with
  | Exited status _ => Some status
  | Fatal _ => Some (-1)%Z
  | Returned _ _ | Undefined => None
  end.

(** *** The scan of the raw arguments (the first loop) *)

(** [option_name] after the two tests on [str]; empty when [str] does not
    start an option. *)
Definition option_name_of (all_options : gmap string Option.t)
    (short_names : gmap string string) (str : string) : string :=
  match all_options !! str with
  | Some _ => str
  | None =>
      match short_names !! str with
      | Some name => name
      | None => ""
      end
  end.

(** The loop over [j]: [rest] holds the raw arguments after [args[i]], and
    [remaining] iterations are left, so that [j] is [option_value_count -
    remaining]. *)
Fixpoint read_option_values (option_name : string) (only_number : bool)
    (option_value_count remaining : nat) (rest : list string)
    (cur_options : gmap string (list string))
    : Step (gmap string (list string)) :=
  match remaining with
  | O => Ok cur_options
  | S remaining' =>
      match rest with
      | [] =>
          Abort (OptionValueCount option_name option_value_count
                   (option_value_count - remaining))
      | value :: rest' =>
          if only_number && CLib.stoi_throws value
          then Abort (OptionRequireNumber option_name value)
          else
            read_option_values option_name only_number option_value_count
              remaining' rest'
              (<[option_name := (cur_options !!! option_name) ++ [value]]>
                 cur_options)
      end
  end.

(** The loop over [i]: [args] holds the raw arguments from [args[i]] on.  An
    option start moves [i] past the option's values. *)
Equations? scan_arguments (short_names : gmap string string) (args : list string)
    (all_options : gmap string Option.t) (cur_arguments : list string)
    (cur_options : gmap string (list string))
    : Step (gmap string Option.t * list string * gmap string (list string))
    by wf (length args) lt :=
  scan_arguments short_names [] all_options cur_arguments cur_options :=
    Ok (all_options, cur_arguments, cur_options);
  scan_arguments short_names (str :: rest) all_options cur_arguments cur_options :=
    let option_name := option_name_of all_options short_names str in
    if String.eqb option_name "" then
      scan_arguments short_names rest all_options (cur_arguments ++ [str])
        cur_options
    else
      let cur_options1 := subscript cur_options option_name in
      let all_options1 := subscript all_options option_name in
      let option_value_count :=
        Option.value_count (all_options1 !!! option_name) in
      match
        read_option_values option_name
          (Option.only_number (all_options1 !!! option_name))
          option_value_count option_value_count rest cur_options1
      with
      | Ok cur_options2 =>
          scan_arguments short_names (drop option_value_count rest)
            all_options1 cur_arguments cur_options2
      | Abort d => Abort d
      | OutOfRange => OutOfRange
      end.
Proof.
  rewrite length_drop. simpl. lia.
Qed.

(** *** The checks on the positional arguments (the second block) *)

(** [if (only_number) { try { std::stoi(cur_arguments[j]); } catch ... }] *)
Definition number_check (only_number : bool) (cur_arguments : list string)
    (j : nat) (diagnostic : string -> Diagnostic) : Step unit :=
  if only_number then
    value ← at_index cur_arguments j;
    if CLib.stoi_throws value then Abort (diagnostic value) else Ok tt
  else Ok tt.

(** The loop over [k] in the check: it returns [j]. *)
Fixpoint check_pack_values (argument : Argument.t) (remaining : nat) (j : nat)
    (cur_arguments : list string) : Step nat :=
  match remaining with
  | O => Ok j
  | S remaining' =>
      _ ← number_check (Argument.only_number argument) cur_arguments j
            (PackRequireNumber (Argument.name argument));
      check_pack_values argument remaining' (S j) cur_arguments
  end.

(** The loop [for (size_t i = 0, j = 0; i < all_arguments_.size(); ++i, ++j)]
    of the check, over the arguments from [all_arguments_[i]] on.  The
    header of the loop increments [j] after every argument, the pack
    included. *)
Fixpoint check_with_pack (arguments : list Argument.t) (j : nat)
    (pack_value_count : Z) (cur_arguments : list string) : Step unit :=
  match arguments with
  | [] => Ok tt
  | argument :: arguments' =>
      if Argument.is_package argument then
        if (pack_value_count <=? 0)%Z
        then Abort (PackValueCount (Argument.name argument) pack_value_count)
        else
          j' ← check_pack_values argument (Z.to_nat pack_value_count) j
                 cur_arguments;
          check_with_pack arguments' (S j') pack_value_count cur_arguments
      else
        _ ← number_check (Argument.only_number argument) cur_arguments j
              (ArgumentRequireNumber (Argument.name argument));
        check_with_pack arguments' (S j) pack_value_count cur_arguments
  end.

(** The loop of the check when there is no pack, from [all_arguments_[i]] on. *)
Fixpoint check_without_pack (arguments : list Argument.t) (i : nat)
    (cur_arguments : list string) : Step unit :=
  match arguments with
  | [] => Ok tt
  | argument :: arguments' =>
      _ ← number_check (Argument.only_number argument) cur_arguments i
            (ArgumentRequireNumber (Argument.name argument));
      check_without_pack arguments' (S i) cur_arguments
  end.

(** [cur_arguments.size() - all_arguments_.size() + 1] in [size_t]. *)
Definition pack_value_count_of (all_arguments : list Argument.t)
    (cur_arguments : list string) : Z :=
  size_t_wrap
    (Z.of_nat (length cur_arguments) - Z.of_nat (length all_arguments) + 1).

Definition check_arguments (have_argument_pack : bool)
    (all_arguments : list Argument.t) (cur_arguments : list string) : Step unit :=
  if have_argument_pack then
    let least := size_t_wrap (Z.of_nat (length all_arguments) - 1) in
    if (Z.of_nat (length cur_arguments) <? least)%Z
    then Abort (ArgumentCountAtLeast least (length cur_arguments))
    else
      check_with_pack all_arguments 0
        (pack_value_count_of all_arguments cur_arguments) cur_arguments
  else
    if negb (Nat.eqb (length cur_arguments) (length all_arguments))
    then Abort (ArgumentCountMustBe (length all_arguments) (length cur_arguments))
    else check_without_pack all_arguments 0 cur_arguments.

(** *** Binding (the third block and the loop over [cur_options]) *)

(** The loop over [k] in the binding: it returns [values] and [j]. *)
Fixpoint pack_values (remaining : nat) (j : nat) (cur_arguments : list string)
    (values : list string) : Step (list string * nat) :=
  match remaining with
  | O => Ok (values, j)
  | S remaining' =>
      value ← at_index cur_arguments j;
      pack_values remaining' (S j) cur_arguments (values ++ [value])
  end.

(** The loop [for (size_t i = 0, j = 0; i < all_arguments_.size(); ++i)] of
    the binding, which increments [j] in its body only. *)
Fixpoint bind_with_pack (arguments : list Argument.t) (j : nat)
    (pack_value_count : Z) (cur_arguments : list string)
    (cur_values : gmap string Value) : Step (gmap string Value) :=
  match arguments with
  | [] => Ok cur_values
  | argument :: arguments' =>
      if Argument.is_package argument then
        packed ← pack_values (Z.to_nat pack_value_count) j cur_arguments [];
        bind_with_pack arguments' packed.2 pack_value_count cur_arguments
          (<[Argument.name argument := Value_of_strings packed.1]> cur_values)
      else
        value ← at_index cur_arguments j;
        bind_with_pack arguments' (S j) pack_value_count cur_arguments
          (<[Argument.name argument := Value_of_string value]> cur_values)
  end.

(** The loop [for (size_t i = 0; i < cur_arguments.size(); ++i)], over the
    positional arguments from [cur_arguments[i]] on. *)
Fixpoint bind_without_pack (values : list string) (i : nat)
    (all_arguments : list Argument.t) (cur_values : gmap string Value)
    : Step (gmap string Value) :=
  match values with
  | [] => Ok cur_values
  | value :: values' =>
      argument ← at_index all_arguments i;
      bind_without_pack values' (S i) all_arguments
        (<[Argument.name argument := Value_of_string value]> cur_values)
  end.

Definition bind_arguments (have_argument_pack : bool)
    (all_arguments : list Argument.t) (cur_arguments : list string)
    (cur_values : gmap string Value) : Step (gmap string Value) :=
  if have_argument_pack then
    bind_with_pack all_arguments 0
      (pack_value_count_of all_arguments cur_arguments) cur_arguments cur_values
  else bind_without_pack cur_arguments 0 all_arguments cur_values.

(** The body of [for (const auto &option : cur_options)]. *)
Definition bind_option (state : gmap string Option.t * gmap string Value)
    (option : string * list string) : gmap string Option.t * gmap string Value :=
  let cur_values1 := <[option.1 := Value_of_strings option.2]> state.2 in
  let all_options1 := subscript state.1 option.1 in
  let short_name := Option.short_name (all_options1 !!! option.1) in
  (all_options1,
   if negb (String.eqb short_name "")
   then <[short_name := Value_of_strings option.2]> cur_values1
   else cur_values1).

Definition bind_options (all_options : gmap string Option.t)
    (cur_options : gmap string (list string)) (cur_values : gmap string Value)
    : gmap string Option.t * gmap string Value :=
  foldl bind_option (all_options, cur_values) (in_key_order cur_options).

(** *** The whole of [Parse] *)

(** The object once [app_path_ = argv[0]] has been executed. *)
Definition enter (p : Parser) (path : string) : Parser :=
  {| app_name_ := app_name_ p; app_path_ := path; app_note_ := app_note_ p;
     have_argument_pack_ := have_argument_pack_ p;
     all_arguments_ := all_arguments_ p;
     all_options_ := all_options_ p;
     short_name_to_name_of_option_ := short_name_to_name_of_option_ p;
     cur_values_ := ∅ |}.

(** [argc == 2 && !all_options_.count(name) && std::string(name) == argv[1]] *)
Definition lone_builtin (p : Parser) (args : list string) (name : string) : bool :=
  Nat.eqb (S (length args)) 2
  && negb (bool_decide (is_Some (all_options_ p !! name)))
  && bool_decide (args !! 0 = Some name).

(** From [std::vector<std::string> args] to the end of the scan: the interim
    collections with which the checks on the positional arguments start. *)
Definition scanned (p : Parser) (args : list string)
    : Step (gmap string Option.t * list string * gmap string (list string)) :=
  scan_arguments (short_name_to_name_of_option_ p) args (all_options_ p) [] ∅.

(** After the scan: the checks, then the binding. *)
Definition finish (p1 : Parser) (all_options1 : gmap string Option.t)
    (cur_arguments : list string) (cur_options : gmap string (list string))
    : Outcome :=
  match
    _ ← check_arguments (have_argument_pack_ p1) (all_arguments_ p1)
          cur_arguments;
    bind_arguments (have_argument_pack_ p1) (all_arguments_ p1)
      cur_arguments (cur_values_ p1)
  with
  | Abort d => Fatal d
  | OutOfRange => Undefined
  | Ok cur_values1 =>
      let bound := bind_options all_options1 cur_options cur_values1 in
      Returned true
        {| app_name_ := app_name_ p1; app_path_ := app_path_ p1;
           app_note_ := app_note_ p1;
           have_argument_pack_ := have_argument_pack_ p1;
           all_arguments_ := all_arguments_ p1;
           all_options_ := bound.1;
           short_name_to_name_of_option_ := short_name_to_name_of_option_ p1;
           cur_values_ := bound.2 |}
  end.

(** [bool Parse(int argc, char *argv[])], with [argc] the length of [argv]. *)
Definition Parse (p : Parser) (argv : list string) : Outcome :=
  match argv with
  | [] => Fatal (ArgumentCountPositive 0)
  | path :: args =>
      let p1 := enter p path in
      if lone_builtin p1 args "--help"
      then Exited 0 (HelpInfo p1 +:+ CLib.endl)
      else if lone_builtin p1 args "--usage"
      then Exited 0 (UsageInfo p1 +:+ CLib.endl)
      else
        match scanned p1 args with
        | Abort d => Fatal d
        | OutOfRange => Undefined
        | Ok (all_options1, cur_arguments, cur_options) =>
            finish p1 all_options1 cur_arguments cur_options
        end
  end.

(** [Value operator[](const std::string &name) const] *)
Definition operator_index (p : Parser) (name : string) : Value :=
  match cur_values_ p !! name with
  | Some v => v
  | None => Value_default
  end.

(** The parser that [main.cpp] builds. *)
Definition main_parser : Parser :=
  let p0 := CommandLineParser "cat" "show text file context" in
  let p1 := (AddArgument p0 "file" "text file path" false).2 in
  let p2 := (AddOption p1 "--lines" 1 "-l" "line count to show" true).2 in
  (AddOption p2 "--back" 0 "-b" "from the back" false).2.

(** Section 8 of the specification: "a", then the pack "items"; here "a"
    takes numbers only. *)
Definition pack_parser : Parser :=
  let p0 := CommandLineParser "command" "" in
  let p1 := (AddArgument p0 "a" "" true).2 in
  (AddArgumentPack p1 "items" "" false).2.

(** A pack declared first, then "n", which takes numbers only, then "s". *)
Definition pack_first_parser : Parser :=
  let p0 := CommandLineParser "command" "" in
  let p1 := (AddArgumentPack p0 "items" "" false).2 in
  let p2 := (AddArgument p1 "n" "" true).2 in
  (AddArgument p2 "s" "" false).2.

(** ** Schemas that the interface can build *)

(** A call of one of the three registration functions. *)
Inductive Registration : Type :=
| RegisterArgument (name note : string) (only_number : bool)
| RegisterArgumentPack (name note : string) (only_number : bool)
| RegisterOption (name : string) (value_count : nat) (short_name note : string)
    (only_number : bool).

Definition register (p : Parser) (r : Registration) : bool * Parser :=
  match r with
  | RegisterArgument name note only_number =>
      AddArgument p name note only_number
  | RegisterArgumentPack name note only_number =>
      AddArgumentPack p name note only_number
  | RegisterOption name value_count short_name note only_number =>
      AddOption p name value_count short_name note only_number
  end.

(** The objects a program can hold: a constructed one, and whatever the
    registration functions and returning calls of [Parse] make of it. *)
Inductive reachable : Parser -> Prop :=
| reachable_new command_name command_note :
    reachable (CommandLineParser command_name command_note)
| reachable_register p r :
    reachable p -> reachable (register p r).2
| reachable_Parse p argv result p' :
    reachable p -> Parse p argv = Returned result p' -> reachable p'.

(** The shapes of the three kinds of names. *)
Definition dashed (s : string) : bool :=
  match s with
  | String c _ => Ascii.eqb c "-"%char
  | EmptyString => false
  end.

Definition long_shape (s : string) : bool :=
  match s with
  | String c (String d _) => Ascii.eqb c "-"%char && Ascii.eqb d "-"%char
  | _ => false
  end.

Definition short_shape (s : string) : bool :=
  match s with
  | String c (String d _) => Ascii.eqb c "-"%char && negb (Ascii.eqb d "-"%char)
  | _ => false
  end.

Definition pack_count (arguments : list Argument.t) : nat :=
  sum_list_with (fun a => if Argument.is_package a then 1 else 0) arguments.

(** What holds of every reachable object. *)
Record schema_ok (p : Parser) : Prop := {
  ok_long : forall k o,
    all_options_ p !! k = Some o -> Option.name o = k /\ long_shape k = true;
  ok_alias : forall k o,
    all_options_ p !! k = Some o -> Option.short_name o <> "" ->
    short_name_to_name_of_option_ p !! Option.short_name o = Some k;
  ok_short : forall s k,
    short_name_to_name_of_option_ p !! s = Some k ->
    short_shape s = true /\ is_Some (all_options_ p !! k);
  ok_argument : forall a,
    a ∈ all_arguments_ p -> dashed (Argument.name a) = false;
  ok_distinct : NoDup (Argument.name <$> all_arguments_ p);
  ok_pack :
    pack_count (all_arguments_ p) = if have_argument_pack_ p then 1 else 0
}.

(** ** The vocabulary of the specification *)

(** *** The scan as section 4.3 words it

    The tokens are read from left to right; a token that equals a
    registered long name, or a registered short name mapped to a long name,
    starts that option, whose value list is the next [A] tokens, [A] being
    the option's arity; any other token is positional. *)
Inductive Event : Type :=
| Positional (token : string)
| OptionStart (name : string) (values : list string).

Definition option_start (all_options : gmap string Option.t)
    (short_names : gmap string string) (token : string) : option Option.t :=
  match all_options !! token with
  | Some o => Some o
  | None => long ← short_names !! token; all_options !! long
  end.

Equations? scan_events (all_options : gmap string Option.t)
    (short_names : gmap string string) (tokens : list string) : list Event
    by wf (length tokens) lt :=
  scan_events all_options short_names [] := [];
  scan_events all_options short_names (token :: rest)
    with option_start all_options short_names token := {
    | None => Positional token :: scan_events all_options short_names rest
    | Some o =>
        OptionStart (Option.name o) (take (Option.value_count o) rest)
        :: scan_events all_options short_names
             (drop (Option.value_count o) rest) }.
Proof.
  rewrite length_drop. simpl. lia.
Qed.

(** The events of a scan of [args] under the schema of [p]. *)
Definition events_of (p : Parser) (args : list string) : list Event :=
  scan_events (all_options_ p) (short_name_to_name_of_option_ p) args.

(** The positional tokens, in order. *)
Definition positional_tokens (events : list Event) : list string :=
  omap (fun e => match e with Positional token => Some token | _ => None end)
    events.

(** The value lists captured at the occurrences of an option, in order. *)
Definition captured (name : string) (events : list Event) : list (list string) :=
  omap
    (fun e =>
       match e with
       | OptionStart n values => if decide (n = name) then Some values else None
       | Positional _ => None
       end)
    events.

(** The option was matched: it occurs as an option start. *)
Definition matched (p : Parser) (args : list string) (name : string) : Prop :=
  captured name (events_of p args) <> [].

(** What a captured list becomes when further occurrences are scanned. *)
Definition extend (old : option (list string)) (windows : list (list string))
    : option (list string) :=
  match windows with
  | [] => old
  | _ => Some (default [] old ++ concat windows)
  end.

(** The keys of [cur_values_] that the loop over [cur_options] assigns at
    the entry of an option: its name, and its short name if it has one. *)
Definition written_by (all_options : gmap string Option.t)
    (entry : string * list string) (key : string) : Prop :=
  key = entry.1 \/
  (Option.short_name (all_options !!! entry.1) <> "" /\
   key = Option.short_name (all_options !!! entry.1)).

(** C1 as it is stated: an option that occurs more than once is bound to
    the values captured at its last occurrence. *)
Definition last_occurrence_wins (p : Parser) (path : string) (args : list string)
    : Prop :=
  forall p' name values,
    Parse p (path :: args) = Returned true p' ->
    1 < length (captured name (events_of p args)) ->
    last (captured name (events_of p args)) = Some values ->
    values_ (operator_index p' name) = values.

(** C3 as it is stated: the usage line is the same after a [Parse] as
    before it. *)
Definition usage_ignores_Parse (p : Parser) (argv : list string) : Prop :=
  forall result p', Parse p argv = Returned result p' -> UsageInfo p' = UsageInfo p.

(** *** Positional tokens and declared arguments *)

(** The interim collections with which a run of [Parse] reaches the checks
    on the positional arguments, if it does. *)
Definition positional_stage (p : Parser) (argv : list string)
    : option (list string * gmap string (list string)) :=
  match argv with
  | [] => None
  | path :: args =>
      if lone_builtin (enter p path) args "--help" then None
      else if lone_builtin (enter p path) args "--usage" then None
      else
        match scanned (enter p path) args with
        | Ok (_, cur_arguments, cur_options) => Some (cur_arguments, cur_options)
        | _ => None
        end
  end.

(** The place, among [P] positional tokens, of the token that goes with the
    declared argument number [i], a plain one: arguments declared after the
    pack come after the [P - (D - 1)] tokens of the pack. *)
Definition token_position (all_arguments : list Argument.t) (P i : nat) : nat :=
  if existsb Argument.is_package (take i all_arguments)
  then i + P - length all_arguments
  else i.

(** The number of positional tokens that go with a declared argument, the
    place of the first of them, and the value bound from that place. *)
Definition width (pack_value_count : nat) (a : Argument.t) : nat :=
  if Argument.is_package a then pack_value_count else 1.

Definition offset (arguments : list Argument.t) (pack_value_count i : nat) : nat :=
  sum_list_with (width pack_value_count) (take i arguments).

Definition bound_value (a : Argument.t) (pack_value_count place : nat)
    (cur_arguments : list string) : option Value :=
  if Argument.is_package a
  then Some (Value_of_strings (take pack_value_count (drop place cur_arguments)))
  else Value_of_string <$> cur_arguments !! place.

(** The sizes of the two vectors are values of [size_t]. *)
Definition vector_sizes (all_arguments : list Argument.t)
    (cur_arguments : list string) : Prop :=
  (Z.of_nat (length all_arguments) < size_t_modulus)%Z /\
  (Z.of_nat (length cur_arguments) < size_t_modulus)%Z.

(** The positional-contiguous assignment: the positional tokens fall into
    one token for each argument declared before the pack, the tokens of the
    pack, and one token for each argument declared after it, and each
    argument is bound to its share. *)
Definition bound_as_declared (p' : Parser) (before : list Argument.t)
    (pack : Argument.t) (after : list Argument.t) (cur_arguments : list string)
    : Prop :=
  exists xs ys zs,
    cur_arguments = xs ++ ys ++ zs /\
    length xs = length before /\ length zs = length after /\
    (forall i a x,
       before !! i = Some a -> xs !! i = Some x ->
       operator_index p' (Argument.name a) = Value_of_string x) /\
    operator_index p' (Argument.name pack) = Value_of_strings ys /\
    (forall i a z,
       after !! i = Some a -> zs !! i = Some z ->
       operator_index p' (Argument.name a) = Value_of_string z).

(** C4 as it is stated, for a run of [Parse] that reaches the checks with
    the positional tokens [cur_arguments]. *)
Definition pack_rule (p : Parser) (argv : list string) : Prop :=
  forall cur_arguments cur_options before pack after,
    positional_stage p argv = Some (cur_arguments, cur_options) ->
    all_arguments_ p = before ++ pack :: after ->
    Argument.is_package pack = true ->
    (length cur_arguments <= length (all_arguments_ p) - 1 ->
     exists d, Parse p argv = Fatal d) /\
    (length (all_arguments_ p) <= length cur_arguments ->
     exists p',
       Parse p argv = Returned true p' /\
       bound_as_declared p' before pack after cur_arguments).

(** *** Tokens that begin with an integer *)

Definition all_of (f : ascii -> bool) (s : string) : Prop :=
  forallb f (list_ascii_of_string s) = true.

Definition starts_without (f : ascii -> bool) (s : string) : Prop :=
  match s with
  | String c _ => f c = false
  | EmptyString => True
  end.

(** The number that a run of decimal digits denotes. *)
Definition decimal (digits : string) : Z :=
  foldl (fun acc c => (10 * acc + CLib.digit_value c)%Z) 0%Z
    (list_ascii_of_string digits).

Definition signed (sign : string) (n : Z) : Z :=
  if String.eqb sign "-" then (- n)%Z else n.

(** [token] has a leading integer portion: white space, an optional sign,
    and at least one digit. *)
Definition has_integer_prefix (token : string) : Prop :=
  exists space sign digits rest,
    token = space +:+ sign +:+ digits +:+ rest /\
    all_of CLib.isspace space /\
    (sign = "" \/ sign = "+" \/ sign = "-") /\
    digits <> "" /\ all_of CLib.isdigit digits.

(** [token] has a leading integer portion which, taken as long as it goes,
    is the decimal notation of an [int]. *)
Definition begins_with_int (token : string) : Prop :=
  exists digits sign space rest,
    token = space +:+ sign +:+ digits +:+ rest /\
    all_of CLib.isspace space /\
    (sign = "" \/ sign = "+" \/ sign = "-") /\
    digits <> "" /\ all_of CLib.isdigit digits /\
    starts_without CLib.isdigit rest /\
    (CLib.INT_MIN <= signed sign (decimal digits) <= CLib.INT_MAX)%Z.

(** C10 as it is stated: the check for a number accepts a token exactly when
    the token has a leading integer portion. *)
Definition number_rule (token : string) : Prop :=
  has_integer_prefix token <-> CLib.stoi_throws token = false.

(** ** Sequences of registrations *)

(** The object after a sequence of registration calls whose results the
    caller does not look at, as in [main.cpp]. *)
Definition configure (p : Parser) (rs : list Registration) : Parser :=
  foldl (fun q r => (register q r).2) p rs.

(** The argument name that a registration call is for, if it is for one. *)
Definition argument_name_of (r : Registration) : option string :=
  match r with
  | RegisterArgument name _ _ | RegisterArgumentPack name _ _ => Some name
  | RegisterOption _ _ _ _ _ => None
  end.

(** The two tables of options agree: a short name leads to the option that
    was registered with it. *)
Definition aliases_agree (p : Parser) : Prop :=
  forall s k,
    short_name_to_name_of_option_ p !! s = Some k <->
    exists o,
      all_options_ p !! k = Some o /\ Option.short_name o = s /\ s <> "".

(** The syntax that the registration functions ask of the three kinds of
    names: an identifier starts with a letter and goes on with letters,
    digits and underscores. *)
Definition identifier (name : string) : Prop :=
  exists c rest,
    name = String c rest /\ CLib.isalpha c = true /\
    all_of (fun d => CLib.isalnum d || Ascii.eqb d "_"%char) rest.

Definition argument_syntax (name : string) : Prop :=
  String.length name <= 32 /\ identifier name.

Definition long_syntax (name : string) : Prop :=
  3 <= String.length name <= 32 /\
  exists rest, name = "--" +:+ rest /\ identifier rest.

Definition short_syntax (short_name : string) : Prop :=
  2 <= String.length short_name <= 16 /\
  exists rest, short_name = "-" +:+ rest /\ identifier rest.

(** The names that the three registration functions accept. *)
Definition registered_names_ok (p : Parser) : Prop :=
  (forall a, a ∈ all_arguments_ p -> argument_syntax (Argument.name a)) /\
  (forall k o, all_options_ p !! k = Some o -> long_syntax k) /\
  (forall s k, short_name_to_name_of_option_ p !! s = Some k -> short_syntax s).

(** ** Occurrences of options *)

(** [std::stoi] returns on [value]. *)
Definition numeric (value : string) : Prop := CLib.stoi_throws value = false.

(** An occurrence of an option has all the values that the option takes,
    and they are numbers where the option takes numbers only. *)
Definition complete (p : Parser) (e : Event) : Prop :=
  match e with
  | Positional _ => True
  | OptionStart name values =>
      exists o,
        all_options_ p !! name = Some o /\
        length values = Option.value_count o /\
        (Option.only_number o = true -> Forall numeric values)
  end.

(** The two diagnostics of the scan, for an option of the schema. *)
Definition option_diagnostic (p : Parser) (args : list string) (d : Diagnostic)
    : Prop :=
  exists name o,
    all_options_ p !! name = Some o /\
    ((exists value,
        d = OptionRequireNumber name value /\ Option.only_number o = true /\
        value ∈ args /\ CLib.stoi_throws value = true) \/
     (exists count,
        d = OptionValueCount name (Option.value_count o) count /\
        count < Option.value_count o)).

(** ** Arguments declared after the pack *)

(** The arguments declared after the first pack. *)
Fixpoint after_pack (arguments : list Argument.t) : list Argument.t :=
  match arguments with
  | [] => []
  | a :: arguments' =>
      if Argument.is_package a then arguments' else after_pack arguments'
  end.

(** No argument declared after the pack takes numbers only. *)
Definition plain_after_pack (arguments : list Argument.t) : bool :=
  forallb (fun a => negb (Argument.only_number a)) (after_pack arguments).

(** ** The indexes of the options *)

(** The indexes are ranks of registration: below the number of options,
    and pairwise different. *)
Definition indexes_ok (options : gmap string Option.t) : Prop :=
  (forall k o,
     options !! k = Some o ->
     (0 <= Option.index o < Z.of_nat (size options))%Z) /\
  (forall k1 k2 o1 o2,
     options !! k1 = Some o1 -> options !! k2 = Some o2 ->
     Option.index o1 = Option.index o2 -> k1 = k2).

#[global] Instance Option_eq_dec : EqDecision Option.t.
Proof. solve_decision. Defined.

#[global] Instance index_le_total : Total index_le.
Proof. intros o1 o2. unfold index_le. lia. Qed.

#[global] Instance index_le_transitive : Transitive index_le.
Proof. intros o1 o2 o3. unfold index_le. lia. Qed.

(** ** [main.cpp] *)

(** What a run of [main] comes to: it returns, or [Parse] calls [exit], or
    an exception leaves [main], or [Parse] has indexed a vector out of its
    range.  [out] is what was written to [std::cout]. *)
Inductive Run : Type :=
| Returns (status : Z) (out : string)
| Exits (status : Z) (out : string)
| Terminates
| Unspecified.

(** The loop [while (std::getline(file, line))] of the branch without
    [--back], with [if (line_count != -1 && --line_count == -1) break;] in
    its body: [file] holds the lines not read yet.  [line_count] is [-1] or
    not negative, so that the decrement does not overflow. *)
Fixpoint read_front (line_count : Z) (file : list string)
    (all_lines : list string) : list string :=
  match file with
  | [] => all_lines
  | line :: file' =>
      if negb (line_count =? -1)%Z then
        if (line_count - 1 =? -1)%Z then all_lines
        else read_front (line_count - 1) file' (all_lines ++ [line])
      else read_front line_count file' (all_lines ++ [line])
  end.

(** The branch with [--back]: all the lines are read; the last
    [line_count] are kept if there are more.  The comparison with
    [all_lines.size()] converts [line_count] to [size_t]. *)
Definition read_back (line_count : Z) (file : list string) : list string :=
  if negb (line_count =? -1)%Z
     && (size_t_wrap line_count <? Z.of_nat (length file))%Z
  then drop (length file - Z.to_nat line_count) file
  else file.

(** [for (const auto &line_text : all_lines) std::cout << line_text << std::endl;] *)
Definition print_lines (all_lines : list string) : string :=
  String.concat "" ((fun line_text => line_text +:+ CLib.endl) <$> all_lines).

(** [line_count], if [ToInt] returns. *)
Definition line_count_of (parser : Parser) : option Z :=
  if Value_bool (operator_index parser "--lines") then
    match Value_ToInt (Value_at (operator_index parser "-l") 0) with
    | CLib.StoiValue n => Some (Z.max 0 n)
    | CLib.StoiInvalidArgument | CLib.StoiOutOfRange => None
    end
  else Some (-1)%Z.

(** [int main(int argc, char *argv[])].  [open path] is the sequence of
    lines that [std::getline] reads from the file at [path], if the file
    can be opened. *)
Definition main (open : string -> option (list string)) (argv : list string)
    : Run :=
  match Parse main_parser argv with
  | Exited status out => Exits status out
  | Fatal _ => Exits (-1) ""
  | Undefined => Unspecified
  | Returned _ parser =>
      match open (Value_ToString (operator_index parser "file")) with
      | None => Returns (-1) (UsageInfo parser +:+ CLib.endl)
      | Some file =>
          match line_count_of parser with
          | None => Terminates
          | Some line_count =>
              Returns 0
                (print_lines
                   (if negb (Value_bool (operator_index parser "--back"))
                    then read_front line_count file []
                    else read_back line_count file))
          end
      end
  end.

(** * Properties *)

(** ** Registration *)

Section Registration.

Lemma VerifyName_not_dashed (name : string) :
  VerifyName name = true -> dashed name = false.
Proof.
  destruct name as [|c s]; simpl; [done|].
  destruct (CLib.isalpha c) eqn:Halpha; simpl; [|done].
  intros _. destruct (Ascii.eqb_spec c "-"%char) as [->|]; [|done].
  vm_compute in Halpha. discriminate.
Qed.

Lemma name_already_exist_false (name : string) (arguments : list Argument.t) :
  name_already_exist name arguments = false ->
  name ∉ Argument.name <$> arguments.
Proof.
  unfold name_already_exist. induction arguments as [|a l IH]; simpl.
  - intros _. apply not_elem_of_nil.
  - intros [Hne Hl]%orb_false_iff. rewrite not_elem_of_cons. split.
    + intros ->. by rewrite String.eqb_refl in Hne.
    + by apply IH.
Qed.

Lemma pack_count_snoc (arguments : list Argument.t) (a : Argument.t) :
  pack_count (arguments ++ [a])
  = pack_count arguments + (if Argument.is_package a then 1 else 0).
Proof. unfold pack_count. rewrite sum_list_with_app. simpl. lia. Qed.

Lemma schema_ok_new (command_name command_note : string) :
  schema_ok (CommandLineParser command_name command_note).
Proof.
  split; simpl; try done.
  - intros a Ha. by apply elem_of_nil in Ha.
  - constructor.
Qed.

Lemma schema_ok_AddArgument p name note only_number :
  schema_ok p -> schema_ok (AddArgument p name note only_number).2.
Proof.
  intros Hok. unfold AddArgument.
  destruct (_ || _ || _) eqn:Hname; [done|].
  destruct (name_already_exist _ _) eqn:Hdup; [done|].
  apply orb_false_iff in Hname as [_ Hverify]. apply negb_false_iff in Hverify.
  destruct Hok. split; simpl; try done.
  - intros a [Ha | ->%list_elem_of_singleton]%elem_of_app; [auto|].
    by apply VerifyName_not_dashed.
  - rewrite fmap_app. apply NoDup_app. split_and!; [done| |apply NoDup_singleton].
    intros x Hx ->%list_elem_of_singleton.
    by apply name_already_exist_false in Hdup.
  - rewrite pack_count_snoc. simpl. lia.
Qed.

Lemma schema_ok_AddArgumentPack p name note only_number :
  schema_ok p -> schema_ok (AddArgumentPack p name note only_number).2.
Proof.
  intros Hok. unfold AddArgumentPack.
  destruct (have_argument_pack_ p) eqn:Hpack; [done|].
  destruct (_ || _ || _) eqn:Hname; [done|].
  destruct (name_already_exist _ _) eqn:Hdup; [done|].
  apply orb_false_iff in Hname as [_ Hverify]. apply negb_false_iff in Hverify.
  destruct Hok. split; simpl; try done.
  - intros a [Ha | ->%list_elem_of_singleton]%elem_of_app; [auto|].
    by apply VerifyName_not_dashed.
  - rewrite fmap_app. apply NoDup_app. split_and!; [done| |apply NoDup_singleton].
    intros x Hx ->%list_elem_of_singleton.
    by apply name_already_exist_false in Hdup.
  - rewrite pack_count_snoc, ok_pack0, Hpack. simpl. lia.
Qed.

Lemma store_option_insert options name value_count short_name note only_number :
  exists index,
    store_option options name value_count short_name note only_number
    = <[name := Option.mk name short_name note value_count only_number index]>
        options.
Proof.
  unfold store_option. rewrite insert_insert_eq.
  unfold subscript. destruct (options !! name); [by eexists|].
  rewrite !insert_insert_eq. by eexists.
Qed.

Lemma char_differs_long (name : string) :
  char_differs name 0 "-" = false -> char_differs name 1 "-" = false ->
  long_shape name = true.
Proof.
  unfold char_differs. destruct name as [|c [|d s]]; simpl; try done.
  intros ->%negb_false_iff ->%negb_false_iff. done.
Qed.

Lemma char_differs_short (short_name : string) :
  char_differs short_name 0 "-" = false ->
  VerifyName (CLib.substr 1 short_name) = true ->
  short_shape short_name = true.
Proof.
  unfold char_differs. destruct short_name as [|c s]; simpl; [done|].
  intros ->%negb_false_iff Hs. destruct s as [|d s]; [done|].
  apply VerifyName_not_dashed in Hs. simpl in *. by rewrite Hs.
Qed.

Lemma AddOption_true p name value_count short_name note only_number p' :
  AddOption p name value_count short_name note only_number = (true, p') ->
  all_options_ p !! name = None /\ long_shape name = true /\
  (short_name <> "" ->
   short_name_to_name_of_option_ p !! short_name = None /\
   short_shape short_name = true) /\
  p' = {| app_name_ := app_name_ p; app_path_ := app_path_ p;
          app_note_ := app_note_ p;
          have_argument_pack_ := have_argument_pack_ p;
          all_arguments_ := all_arguments_ p;
          all_options_ :=
            store_option (all_options_ p) name value_count short_name note
              only_number;
          short_name_to_name_of_option_ :=
            if negb (String.eqb short_name "")
            then <[short_name := name]> (short_name_to_name_of_option_ p)
            else short_name_to_name_of_option_ p;
          cur_values_ := cur_values_ p |}.
Proof.
  unfold AddOption.
  case_bool_decide as Hname; [done|].
  apply eq_None_not_Some in Hname.
  destruct (_ || _ || _ || _ || _) eqn:Hshape; [done|].
  repeat (apply orb_false_iff in Hshape as [Hshape ?]).
  assert (long_shape name = true) by by apply char_differs_long.
  destruct (String.eqb_spec short_name "") as [->|Hshort]; simpl.
  - intros [= <-]. done.
  - case_bool_decide as Halias; [done|].
    apply eq_None_not_Some in Halias.
    destruct (_ || _ || _ || _) eqn:Hshape'; [done|].
    repeat (apply orb_false_iff in Hshape' as [Hshape' ?]).
    intros [= <-]. split_and!; try done.
    intros _. split; [done|].
    apply char_differs_short; [done|]. by apply negb_false_iff.
Qed.

Lemma schema_ok_AddOption p name value_count short_name note only_number :
  schema_ok p ->
  schema_ok (AddOption p name value_count short_name note only_number).2.
Proof.
  intros Hok.
  destruct (AddOption p name value_count short_name note only_number)
    as [[] p'] eqn:Hadd; simpl.
  2: { revert Hadd. unfold AddOption.
       repeat (case_bool_decide || case_match); by intros [= <-]. }
  apply AddOption_true in Hadd as (Hfresh & Hlong & Hshort & ->).
  destruct (store_option_insert (all_options_ p) name value_count short_name
              note only_number) as [index Hstore].
  destruct Hok. split; simpl; try done; rewrite ?Hstore.
  - intros k o. rewrite lookup_insert. case_decide as Hk.
    + intros [= <-]. by subst.
    + apply ok_long0.
  - intros k o. rewrite lookup_insert. case_decide as Hk.
    + intros [= <-]. simpl. intros Hne. subst k.
      destruct (String.eqb_spec short_name "") as [|_]; [done|]. simpl.
      apply lookup_insert_eq.
    + intros Ho Hne. specialize (ok_alias0 k o Ho Hne).
      destruct (String.eqb_spec short_name "") as [|Hs]; simpl; [done|].
      rewrite lookup_insert_ne; [done|].
      intros Heq. destruct (Hshort Hs) as [Hnone _]. congruence.
  - intros s k.
    destruct (String.eqb_spec short_name "") as [|Hs]; simpl.
    + intros Hsk. destruct (ok_short0 s k Hsk) as [? [o Ho]]. split; [done|].
      rewrite lookup_insert. case_decide; eauto.
    + rewrite lookup_insert. case_decide as Hk.
      * intros [= <-]. subst s. split; [by apply Hshort|].
        rewrite lookup_insert_eq. eauto.
      * intros Hsk. destruct (ok_short0 s k Hsk) as [? [o Ho]]. split; [done|].
        rewrite lookup_insert. case_decide; eauto.
Qed.

Lemma schema_ok_register p r : schema_ok p -> schema_ok (register p r).2.
Proof.
  destruct r; simpl.
  - apply schema_ok_AddArgument.
  - apply schema_ok_AddArgumentPack.
  - apply schema_ok_AddOption.
Qed.

(** C8. Whenever [AddArgument], [AddArgumentPack] or [AddOption] returns
    [false], the object is the one it was called on: no argument has been
    appended, no option and no short name stored, and the flag
    [have_argument_pack_] is as before. *)
Theorem registration_failure_is_atomic (p : Parser) (r : Registration) :
  (register p r).1 = false -> (register p r).2 = p.
Proof.
  destruct r as [name note only_number | name note only_number
                | name value_count short_name note only_number]; simpl.
  - unfold AddArgument. by repeat case_match.
  - unfold AddArgumentPack. by repeat case_match.
  - unfold AddOption. by repeat (case_bool_decide || case_match).
Qed.

Lemma registration_failure_is_atomic_witness :
  (register (AddArgument (CommandLineParser "cat" "") "file" "" false).2
     (RegisterArgument "file" "again" true)).2
  = (AddArgument (CommandLineParser "cat" "") "file" "" false).2.
Proof. apply registration_failure_is_atomic. vm_compute. reflexivity. Defined.

End Registration.

(** ** The scan *)

Section Scan.

Lemma subscript_present {V : Type} `{Inhabited V} (m : gmap string V) (k : string) :
  is_Some (m !! k) -> subscript m k = m.
Proof. intros [v Hv]. unfold subscript. by rewrite Hv. Qed.

Lemma subscript_lookup {V : Type} `{Inhabited V} (m : gmap string V) (k k' : string) :
  subscript m k !! k'
  = if decide (k = k') then Some (m !!! k) else m !! k'.
Proof.
  unfold subscript. rewrite lookup_total_alt.
  destruct (m !! k) as [v|] eqn:Hk; case_decide; simplify_map_eq; done.
Qed.

Lemma subscript_total {V : Type} `{Inhabited V} (m : gmap string V) (k : string) :
  subscript m k !!! k = m !!! k.
Proof.
  rewrite !lookup_total_alt, subscript_lookup. case_decide; [|done].
  by rewrite lookup_total_alt.
Qed.

(** The loop over [j] succeeds when the option's values are all there (and
    are numbers, if they must be), and appends them to what the option has
    captured before. *)
Lemma read_option_values_Ok option_name only_number option_value_count :
  forall remaining rest cur_options cur_options',
    is_Some (cur_options !! option_name) ->
    read_option_values option_name only_number option_value_count remaining
      rest cur_options = Ok cur_options' ->
    remaining <= length rest /\
    cur_options'
    = <[option_name := (cur_options !!! option_name) ++ take remaining rest]>
        cur_options.
Proof.
  induction remaining as [|remaining IH]; intros rest co co' Hsome; simpl.
  - intros [= <-]. split; [lia|].
    rewrite app_nil_r. symmetry. apply insert_id.
    destruct Hsome as [v Hv]. by rewrite lookup_total_alt, Hv.
  - destruct rest as [|value rest]; [done|].
    destruct (only_number && CLib.stoi_throws value); [done|].
    intros Hread. apply IH in Hread as [Hlen ->].
    + split; [simpl; lia|].
      rewrite insert_insert_eq, lookup_total_insert_eq. simpl.
      by rewrite <- app_assoc.
    + rewrite lookup_insert_eq. eauto.
Qed.

Variable p : Parser.
Hypothesis Hok : schema_ok p.

(** The two readings of "this token starts an option" agree. *)
Lemma option_name_of_start (str : string) :
  match option_start (all_options_ p) (short_name_to_name_of_option_ p) str with
  | Some o =>
      option_name_of (all_options_ p) (short_name_to_name_of_option_ p) str
      = Option.name o /\
      Option.name o <> "" /\
      all_options_ p !! Option.name o = Some o
  | None =>
      option_name_of (all_options_ p) (short_name_to_name_of_option_ p) str = ""
  end.
Proof.
  unfold option_start, option_name_of.
  destruct (all_options_ p !! str) as [o|] eqn:Hstr.
  - destruct (ok_long p Hok str o Hstr) as [-> Hshape].
    split_and!; [done| |done]. by intros ->.
  - destruct (short_name_to_name_of_option_ p !! str) as [k|] eqn:Hk; simpl; [|done].
    destruct (ok_short p Hok str k Hk) as [_ [o Ho]]. rewrite Ho.
    destruct (ok_long p Hok k o Ho) as [-> Hshape].
    split_and!; [done| |done]. by intros ->.
Qed.

(** The first loop of [Parse] against the scan of section 4.3: it leaves
    the options of the schema as they are, appends the positional tokens,
    and appends to each option the values captured at its occurrences. *)
Lemma scan_arguments_events :
  forall args cur_arguments cur_options all_options' cur_arguments' cur_options',
    scan_arguments (short_name_to_name_of_option_ p) args (all_options_ p)
      cur_arguments cur_options
    = Ok (all_options', cur_arguments', cur_options') ->
    all_options' = all_options_ p /\
    cur_arguments' = cur_arguments ++ positional_tokens (events_of p args) /\
    forall name,
      cur_options' !! name
      = extend (cur_options !! name) (captured name (events_of p args)).
Proof.
  unfold events_of. intros args.
  remember (length args) as n eqn:Hn. revert args Hn.
  induction n as [n IH] using lt_wf_ind.
  intros args Hn ca co ao' ca' co'.
  destruct args as [|str rest].
  - simp scan_arguments scan_events. intros [= <- <- <-].
    split_and!; [done|by rewrite app_nil_r|done].
  - simp scan_arguments scan_events.
    pose proof (option_name_of_start str) as Hstart.
    destruct (option_start _ _ str) as [o|]; simpl.
    + destruct Hstart as (-> & Hne & Hlookup).
      destruct (String.eqb_spec (Option.name o) "") as [|_]; [done|].
      rewrite (subscript_present (all_options_ p)) by eauto.
      rewrite (lookup_total_alt (all_options_ p)), Hlookup. simpl.
      destruct (read_option_values _ _ _ _ _ _) as [co2| |] eqn:Hread;
        try done.
      apply read_option_values_Ok in Hread as [Hlen ->].
      2: { rewrite subscript_lookup. case_decide; [eauto|done]. }
      intros Hscan. eapply IH in Hscan as (-> & -> & Hco); [| |reflexivity].
      2: { rewrite length_drop, Hn. simpl. lia. }
      split_and!; [done|done|].
      intros name.
      rewrite Hco, subscript_total, lookup_insert, subscript_lookup.
      case_decide as Hname; simpl; [|done].
      subst name. rewrite lookup_total_alt.
      destruct (captured _ _); simpl; by rewrite ?app_nil_r, <- ?app_assoc.
    + rewrite Hstart. simpl.
      intros Hscan. eapply IH in Hscan as (-> & -> & Hco); [| |reflexivity].
      2: { rewrite Hn. simpl. lia. }
      split_and!; [done| |done].
      by rewrite <- app_assoc.
Qed.

(** An option that occurs as an option start is an option of the schema. *)
Lemma captured_known (name : string) :
  forall args,
    captured name (events_of p args) <> [] -> is_Some (all_options_ p !! name).
Proof.
  unfold events_of. intros args.
  remember (length args) as n eqn:Hn. revert args Hn.
  induction n as [n IH] using lt_wf_ind. intros args Hn.
  destruct args as [|str rest]; simp scan_events; [done|].
  pose proof (option_name_of_start str) as Hstart.
  destruct (option_start _ _ str) as [o|]; simpl.
  - destruct Hstart as (_ & _ & Hlookup).
    case_decide as Hname.
    + subst name. eauto.
    + eapply IH; [|reflexivity]. rewrite length_drop, Hn. simpl. lia.
  - eapply IH; [|reflexivity]. rewrite Hn. simpl. lia.
Qed.

End Scan.

(** ** The loop over [cur_options] *)

Section OptionBinding.

Lemma shapes_differ (s : string) : long_shape s = true -> short_shape s = true -> False.
Proof.
  destruct s as [|c [|d s]]; simpl; try done.
  destruct (Ascii.eqb c "-"), (Ascii.eqb d "-"); done.
Qed.

Lemma long_shape_dashed (s : string) : long_shape s = true -> dashed s = true.
Proof. destruct s as [|c [|d s]]; simpl; try done. by intros [? _]%andb_true_iff. Qed.

Lemma short_shape_dashed (s : string) : short_shape s = true -> dashed s = true.
Proof. destruct s as [|c [|d s]]; simpl; try done. by intros [? _]%andb_true_iff. Qed.

Lemma in_key_order_elem {V : Type} (m : gmap string V) (k : string) (v : V) :
  (k, v) ∈ in_key_order m <-> m !! k = Some v.
Proof.
  unfold in_key_order. rewrite merge_sort_Permutation.
  apply elem_of_map_to_list.
Qed.

Lemma in_key_order_NoDup {V : Type} (m : gmap string V) :
  NoDup (in_key_order m).*1.
Proof.
  unfold in_key_order. rewrite merge_sort_Permutation.
  apply NoDup_fst_map_to_list.
Qed.

Lemma bind_option_lookup all_options cur_values entry :
  is_Some (all_options !! entry.1) ->
  (bind_option (all_options, cur_values) entry).1 = all_options /\
  forall key,
    (written_by all_options entry key ->
     (bind_option (all_options, cur_values) entry).2 !! key
     = Some (Value_of_strings entry.2)) /\
    (~ written_by all_options entry key ->
     (bind_option (all_options, cur_values) entry).2 !! key = cur_values !! key).
Proof.
  intros Hsome. unfold bind_option, written_by. simpl.
  rewrite (subscript_present all_options) by done.
  split; [done|]. intros key.
  destruct (String.eqb_spec (Option.short_name (all_options !!! entry.1)) "")
    as [Hempty|Hshort]; simpl.
  - split.
    + intros [->|[]]; [|done]. apply lookup_insert_eq.
    + intros Hnot. apply lookup_insert_ne. intros <-. apply Hnot. by left.
  - split.
    + intros [->|[_ ->]]; [|apply lookup_insert_eq].
      rewrite lookup_insert. case_decide; [done|]. apply lookup_insert_eq.
    + intros Hnot. rewrite !lookup_insert_ne; [done| |].
      * intros <-. apply Hnot. by left.
      * intros <-. apply Hnot. by right.
Qed.

Lemma foldl_bind_option_keeps entries :
  forall all_options cur_values,
    Forall (fun e => is_Some (all_options !! e.1)) entries ->
    (foldl bind_option (all_options, cur_values) entries).1 = all_options.
Proof.
  induction entries as [|e entries IH]; intros ao cv Hall; simpl; [done|].
  apply Forall_cons in Hall as [He Hall].
  destruct (bind_option_lookup ao cv e He) as [Hkeep _].
  destruct (bind_option (ao, cv) e) as [ao1 cv1]. simpl in Hkeep. subst ao1.
  by apply IH.
Qed.

Lemma foldl_bind_option_other entries key :
  forall all_options cur_values,
    Forall (fun e => is_Some (all_options !! e.1)) entries ->
    Forall (fun e => ~ written_by all_options e key) entries ->
    (foldl bind_option (all_options, cur_values) entries).2 !! key
    = cur_values !! key.
Proof.
  induction entries as [|e entries IH]; intros ao cv Hall Hnot; simpl; [done|].
  apply Forall_cons in Hall as [He Hall]. apply Forall_cons in Hnot as [Hne Hnot].
  destruct (bind_option_lookup ao cv e He) as [Hkeep Hkey].
  destruct (Hkey key) as [_ Hother].
  destruct (bind_option (ao, cv) e) as [ao1 cv1]. simpl in *. subst ao1.
  rewrite IH by done. by apply Hother.
Qed.

Lemma foldl_bind_option_last before entry after key :
  forall all_options cur_values,
    Forall (fun e => is_Some (all_options !! e.1)) (before ++ entry :: after) ->
    written_by all_options entry key ->
    Forall (fun e => ~ written_by all_options e key) after ->
    (foldl bind_option (all_options, cur_values) (before ++ entry :: after)).2
      !! key
    = Some (Value_of_strings entry.2).
Proof.
  induction before as [|e before IH]; intros ao cv Hall Hwritten Hafter; simpl.
  - apply Forall_cons in Hall as [He Hall].
    destruct (bind_option_lookup ao cv entry He) as [Hkeep Hkey].
    destruct (Hkey key) as [Hthis _].
    destruct (bind_option (ao, cv) entry) as [ao1 cv1]. simpl in *. subst ao1.
    rewrite foldl_bind_option_other by done. by apply Hthis.
  - apply Forall_cons in Hall as [He Hall].
    destruct (bind_option_lookup ao cv e He) as [Hkeep _].
    destruct (bind_option (ao, cv) e) as [ao1 cv1]. simpl in *. subst ao1.
    by apply IH.
Qed.

End OptionBinding.

(** ** The positional arguments *)

Section Arguments.

Lemma drop_lookup_cons {A : Type} (l : list A) (i : nat) (x : A) :
  l !! i = Some x -> drop i l = x :: drop (S i) l.
Proof.
  revert i. induction l as [|y l IH]; intros [|i]; simpl; try done.
  - by intros [= ->].
  - apply IH.
Qed.

(** The loop over [k] of the binding reads [remaining] tokens from [j] on. *)
Lemma pack_values_eq cur_arguments :
  forall remaining j values,
    pack_values remaining j cur_arguments values
    = if decide (remaining = 0 \/ j + remaining <= length cur_arguments)
      then Ok (values ++ take remaining (drop j cur_arguments), j + remaining)
      else OutOfRange.
Proof.
  induction remaining as [|remaining IH]; intros j values; simpl.
  - by rewrite take_0, app_nil_r, Nat.add_0_r.
  - unfold at_index. destruct (cur_arguments !! j) as [value|] eqn:Hj; simpl.
    + apply lookup_lt_Some in Hj as Hlt. rewrite IH.
      rewrite (drop_lookup_cons _ _ _ Hj). simpl.
      rewrite <- app_assoc. simpl.
      repeat case_decide; try done; try (exfalso; lia);
        by rewrite Nat.add_succ_r.
    + apply lookup_ge_None in Hj. rewrite decide_False by lia. done.
Qed.

Lemma offset_0 arguments n : offset arguments n 0 = 0.
Proof. unfold offset. by rewrite take_0. Qed.

Lemma offset_S a arguments n i :
  offset (a :: arguments) n (S i) = width n a + offset arguments n i.
Proof. done. Qed.

(** The binding with a pack: every declared argument is bound to the
    tokens at its place, and nothing else is bound. *)
Lemma bind_with_pack_Ok pack_value_count cur_arguments :
  forall arguments j cur_values cur_values',
    bind_with_pack arguments j pack_value_count cur_arguments cur_values
    = Ok cur_values' ->
    (forall key,
       key ∉ Argument.name <$> arguments ->
       cur_values' !! key = cur_values !! key) /\
    (NoDup (Argument.name <$> arguments) ->
     forall i a,
       arguments !! i = Some a ->
       is_Some (cur_values' !! Argument.name a) /\
       cur_values' !! Argument.name a
       = bound_value a (Z.to_nat pack_value_count)
           (j + offset arguments (Z.to_nat pack_value_count) i) cur_arguments).
Proof.
  induction arguments as [|a0 arguments IH]; intros j cv cv'; simpl.
  - intros [= <-]. split; [done|]. intros _ i a Hi. done.
  - destruct (Argument.is_package a0) eqn:Hpack.
    + rewrite pack_values_eq. case_decide as Hrange; [|done]. simpl.
      intros Hbind. apply IH in Hbind as [Hframe Hbound]. split.
      * intros key [Hne Hkey]%not_elem_of_cons.
        rewrite Hframe by done. by rewrite lookup_insert_ne.
      * intros [Hfresh Hdistinct]%NoDup_cons [|i] a Hi; simpl in Hi.
        -- injection Hi as <-. rewrite Hframe by done.
           rewrite lookup_insert_eq. split; [eauto|].
           unfold bound_value. rewrite Hpack, offset_0, Nat.add_0_r. done.
        -- destruct (Hbound Hdistinct i a Hi) as [Hsome Heq]. split; [done|].
           rewrite Heq.
           rewrite offset_S. unfold width at 1. rewrite Hpack.
           by rewrite Nat.add_assoc.
    + unfold at_index. destruct (cur_arguments !! j) as [value|] eqn:Hj; [|done].
      simpl. intros Hbind. apply IH in Hbind as [Hframe Hbound]. split.
      * intros key [Hne Hkey]%not_elem_of_cons.
        rewrite Hframe by done. by rewrite lookup_insert_ne.
      * intros [Hfresh Hdistinct]%NoDup_cons [|i] a Hi; simpl in Hi.
        -- injection Hi as <-. rewrite Hframe by done.
           rewrite lookup_insert_eq. split; [eauto|].
           unfold bound_value. rewrite Hpack, offset_0, Nat.add_0_r, Hj. done.
        -- destruct (Hbound Hdistinct i a Hi) as [Hsome Heq]. split; [done|].
           rewrite Heq.
           rewrite offset_S. unfold width at 1. rewrite Hpack.
           by rewrite Nat.add_assoc, Nat.add_1_r.
Qed.

(** It runs to its end when the tokens suffice. *)
Lemma bind_with_pack_succeeds pack_value_count cur_arguments :
  forall arguments j cur_values,
    j + offset arguments (Z.to_nat pack_value_count) (length arguments)
    <= length cur_arguments ->
    exists cur_values',
      bind_with_pack arguments j pack_value_count cur_arguments cur_values
      = Ok cur_values'.
Proof.
  induction arguments as [|a0 arguments IH]; intros j cv; simpl.
  - eauto.
  - rewrite offset_S. unfold width at 1.
    destruct (Argument.is_package a0) eqn:Hpack; intros Hlen.
    + rewrite pack_values_eq. rewrite decide_True by lia. simpl.
      apply IH. lia.
    + unfold at_index. destruct (cur_arguments !! j) as [value|] eqn:Hj.
      * simpl. apply IH. lia.
      * apply lookup_ge_None in Hj. lia.
Qed.

(** The binding without a pack. *)
Lemma bind_without_pack_Ok all_arguments :
  forall values i cur_values cur_values',
    bind_without_pack values i all_arguments cur_values = Ok cur_values' ->
    (forall key,
       key ∉ Argument.name <$> all_arguments ->
       cur_values' !! key = cur_values !! key) /\
    (NoDup (Argument.name <$> all_arguments) ->
     (forall m a,
        m < i -> all_arguments !! m = Some a ->
        cur_values' !! Argument.name a = cur_values !! Argument.name a) /\
     (forall m a value,
        values !! m = Some value -> all_arguments !! (i + m) = Some a ->
        cur_values' !! Argument.name a = Some (Value_of_string value))).
Proof.
  induction values as [|value0 values IH]; intros i cv cv'; simpl.
  - intros [= <-]. split; [done|]. intros _. split; [done|]. by intros [|m] a v.
  - unfold at_index. destruct (all_arguments !! i) as [a0|] eqn:Hi; [|done].
    simpl. intros Hbind. apply IH in Hbind as [Hframe Hbound]. split.
    + intros key Hkey. rewrite Hframe by done. apply lookup_insert_ne.
      intros <-. apply Hkey. apply list_elem_of_fmap. exists a0. split; [done|].
      by eapply list_elem_of_lookup_2.
    + intros Hdistinct. destruct (Hbound Hdistinct) as [Hbefore Hat].
      assert (Hinj : forall m a, all_arguments !! m = Some a ->
                Argument.name a = Argument.name a0 -> m = i).
      { intros m a Hm Hname.
        eapply (NoDup_lookup _ m i (Argument.name a0) Hdistinct);
          rewrite list_lookup_fmap; [rewrite Hm|rewrite Hi]; simpl; congruence. }
      split.
      * intros m a Hlt Hm. rewrite (Hbefore m a) by (done || lia).
        apply lookup_insert_ne. intros Hname.
        symmetry in Hname. apply (Hinj m a Hm) in Hname. lia.
      * intros [|m] a value; simpl.
        -- intros [= <-]. rewrite Nat.add_0_r, Hi. intros [= <-].
           rewrite (Hbefore i a0) by (done || lia). apply lookup_insert_eq.
        -- intros Hm Ha. apply (Hat m a value Hm).
           by rewrite Nat.add_succ_comm.
Qed.

End Arguments.

(** ** A returning [Parse] *)

Section Returning.

Variable p : Parser.
Hypothesis Hok : schema_ok p.

Lemma schema_ok_enter (path : string) : schema_ok (enter p path).
Proof. destruct Hok. by split. Qed.

Lemma extend_None_Some windows values :
  extend None windows = Some values <-> windows <> [] /\ values = concat windows.
Proof.
  destruct windows; simpl; split; try done.
  - by intros [].
  - intros [= <-]. done.
  - intros [_ ->]. done.
Qed.

(** What a call of [Parse] that returns has done. *)
Lemma Parse_Returned argv result p' :
  Parse p argv = Returned result p' ->
  exists path args cur_options cur_values1,
    argv = path :: args /\ result = true /\
    positional_stage p argv
    = Some (positional_tokens (events_of p args), cur_options) /\
    (forall name,
       cur_options !! name = extend None (captured name (events_of p args))) /\
    check_arguments (have_argument_pack_ p) (all_arguments_ p)
      (positional_tokens (events_of p args)) = Ok tt /\
    bind_arguments (have_argument_pack_ p) (all_arguments_ p)
      (positional_tokens (events_of p args)) ∅ = Ok cur_values1 /\
    p' = {| app_name_ := app_name_ p; app_path_ := path;
            app_note_ := app_note_ p;
            have_argument_pack_ := have_argument_pack_ p;
            all_arguments_ := all_arguments_ p;
            all_options_ := all_options_ p;
            short_name_to_name_of_option_ := short_name_to_name_of_option_ p;
            cur_values_ :=
              (bind_options (all_options_ p) cur_options cur_values1).2 |}.
Proof.
  unfold Parse, positional_stage. destruct argv as [|path args]; [done|].
  destruct (lone_builtin _ _ "--help"); [done|].
  destruct (lone_builtin _ _ "--usage"); [done|].
  unfold scanned.
  destruct (scan_arguments _ _ _ _ _) as [[[ao ca] co]| |] eqn:Hscan; try done.
  apply (scan_arguments_events (enter p path) (schema_ok_enter path))
    in Hscan as (-> & -> & Hco).
  simpl in *. unfold finish. simpl.
  destruct (check_arguments _ _ _) as [[]| |] eqn:Hcheck; try done. simpl.
  destruct (bind_arguments _ _ _ _) as [cv1| |] eqn:Hbind; try done.
  intros [= <- <-].
  exists path, args, co, cv1. split_and!; try done.
  f_equal.
  apply foldl_bind_option_keeps, Forall_forall. intros [n vs] Hin. simpl.
  apply in_key_order_elem in Hin. rewrite Hco in Hin.
  apply extend_None_Some in Hin as [Hne _].
  by apply (captured_known p Hok n args).
Qed.

(** A returning [Parse] leaves the schema as it is. *)
Lemma schema_ok_Parse argv result p' :
  Parse p argv = Returned result p' -> schema_ok p'.
Proof.
  intros (path & args & co & cv1 & _ & _ & _ & _ & _ & _ & ->)%Parse_Returned.
  destruct Hok. by split.
Qed.

End Returning.

Lemma reachable_schema_ok (p : Parser) : reachable p -> schema_ok p.
Proof.
  induction 1 as [| p r _ IH | p argv result p' _ IH Hparse].
  - apply schema_ok_new.
  - by apply schema_ok_register.
  - by eapply schema_ok_Parse.
Qed.

(** ** The values bound by a returning [Parse] *)

Section Bound.

Variable p : Parser.
Hypothesis Hok : schema_ok p.

Lemma bind_arguments_frame have_argument_pack cur_arguments cur_values cur_values' key :
  bind_arguments have_argument_pack (all_arguments_ p) cur_arguments cur_values
  = Ok cur_values' ->
  key ∉ Argument.name <$> all_arguments_ p ->
  cur_values' !! key = cur_values !! key.
Proof.
  unfold bind_arguments. destruct have_argument_pack.
  - intros [Hframe _]%bind_with_pack_Ok. apply Hframe.
  - intros [Hframe _]%bind_without_pack_Ok. apply Hframe.
Qed.

Lemma dashed_not_argument (key : string) :
  dashed key = true -> key ∉ Argument.name <$> all_arguments_ p.
Proof.
  intros Hdashed (a & -> & Ha)%list_elem_of_fmap.
  apply (ok_argument p Hok) in Ha. congruence.
Qed.

(** The short name of an option of the schema, if it has one, has the shape
    of a short name and is the short name of that option only. *)
Lemma alias_of name o :
  all_options_ p !! name = Some o -> Option.short_name o <> "" ->
  short_shape (Option.short_name o) = true /\
  forall name' o',
    all_options_ p !! name' = Some o' ->
    Option.short_name o' = Option.short_name o -> name' = name.
Proof.
  intros Ho Hshort. pose proof (ok_alias p Hok name o Ho Hshort) as Halias.
  split; [by apply (ok_short p Hok _ _ Halias)|].
  intros name' o' Ho' Heq.
  assert (Hshort' : Option.short_name o' <> "") by congruence.
  pose proof (ok_alias p Hok name' o' Ho' Hshort') as Halias'.
  congruence.
Qed.

(** The entry of one option does not assign the keys of another. *)
Lemma written_by_other name o entry key :
  all_options_ p !! name = Some o ->
  is_Some (all_options_ p !! entry.1) -> entry.1 <> name ->
  key = name \/ (Option.short_name o <> "" /\ key = Option.short_name o) ->
  ~ written_by (all_options_ p) entry key.
Proof.
  intros Ho [o' Ho'] Hne Hkey. unfold written_by.
  rewrite lookup_total_alt, Ho'. simpl.
  destruct (ok_long p Hok _ _ Ho) as [_ Hlong].
  destruct (ok_long p Hok _ _ Ho') as [_ Hlong'].
  intros [Hfirst | [Hshort' Hsecond]]; destruct Hkey as [-> | [Hshort ->]].
  - done.
  - destruct (alias_of name o Ho Hshort) as [Hshape _].
    rewrite Hfirst in Hshape. exact (shapes_differ _ Hlong' Hshape).
  - destruct (alias_of entry.1 o' Ho' Hshort') as [Hshape _].
    rewrite <- Hsecond in Hshape. exact (shapes_differ _ Hlong Hshape).
  - destruct (alias_of name o Ho Hshort) as [_ Hunique].
    by apply Hne, (Hunique entry.1 o').
Qed.

Variables (argv : list string) (result : bool) (p' : Parser).
Hypothesis Hparse : Parse p argv = Returned result p'.

(** An option that was matched is bound, under its name and under its short
    name, to the values captured at all its occurrences. *)
Lemma bound_matched path args name o :
  argv = path :: args ->
  all_options_ p !! name = Some o ->
  captured name (events_of p args) <> [] ->
  forall key,
    key = name \/ (Option.short_name o <> "" /\ key = Option.short_name o) ->
    cur_values_ p' !! key
    = Some (Value_of_strings (concat (captured name (events_of p args)))).
Proof.
  intros Hargv Ho Hmatched key Hkey.
  destruct (Parse_Returned p Hok argv result p' Hparse)
    as (path' & args' & co & cv1 & Hargv' & _ & _ & Hco & _ & _ & ->).
  rewrite Hargv in Hargv'. injection Hargv' as <- <-. simpl.
  unfold bind_options.
  assert (Hin : (name, concat (captured name (events_of p args)))
                ∈ in_key_order co).
  { apply in_key_order_elem. rewrite Hco. by apply extend_None_Some. }
  assert (Hknown : Forall (fun e => is_Some (all_options_ p !! e.1))
                     (in_key_order co)).
  { apply Forall_forall. intros [n vs] Hn. simpl.
    apply in_key_order_elem in Hn. rewrite Hco in Hn.
    apply extend_None_Some in Hn as [Hne _].
    by apply (captured_known p Hok n args). }
  pose proof (in_key_order_NoDup co) as Hdistinct.
  apply list_elem_of_split in Hin as (before & after & Hsplit).
  rewrite Hsplit in *.
  rewrite (foldl_bind_option_last before _ after key); [done|done| |].
  - unfold written_by. simpl. rewrite lookup_total_alt, Ho. simpl.
    destruct Hkey as [->|[? ->]]; auto.
  - apply Forall_forall. intros e He.
    apply (written_by_other name o); [done| | |done].
    + rewrite Forall_forall in Hknown. apply Hknown.
      apply elem_of_app. right. by apply elem_of_cons; right.
    + rewrite fmap_app, fmap_cons in Hdistinct. simpl in Hdistinct.
      apply NoDup_app in Hdistinct as (_ & _ & [Hfresh _]%NoDup_cons).
      intros Heq. apply Hfresh. rewrite <- Heq. by apply list_elem_of_fmap_2.
Qed.

(** A key that no entry of [cur_options] assigns has what the binding of the
    positional arguments gave it. *)
Lemma bound_elsewhere path args key :
  argv = path :: args ->
  (forall name o,
     all_options_ p !! name = Some o ->
     captured name (events_of p args) <> [] ->
     key <> name /\ (Option.short_name o <> "" -> key <> Option.short_name o)) ->
  exists cur_values1,
    bind_arguments (have_argument_pack_ p) (all_arguments_ p)
      (positional_tokens (events_of p args)) ∅ = Ok cur_values1 /\
    cur_values_ p' !! key = cur_values1 !! key.
Proof.
  intros Hargv Hkey.
  destruct (Parse_Returned p Hok argv result p' Hparse)
    as (path' & args' & co & cv1 & Hargv' & _ & _ & Hco & _ & Hbind & ->).
  rewrite Hargv in Hargv'. injection Hargv' as <- <-. simpl.
  exists cv1. split; [done|].
  assert (Hevery : forall e, e ∈ in_key_order co ->
            is_Some (all_options_ p !! e.1) /\
            captured e.1 (events_of p args) <> []).
  { intros [n vs] Hn. simpl.
    apply in_key_order_elem in Hn. rewrite Hco in Hn.
    apply extend_None_Some in Hn as [Hne _].
    split; [|done]. by apply (captured_known p Hok n args). }
  apply foldl_bind_option_other; apply Forall_forall; intros e He;
    destruct (Hevery e He) as [[o Ho] Hcaptured]; [eauto|].
  destruct (Hkey e.1 o Ho Hcaptured) as [Hne1 Hne2].
  unfold written_by. rewrite lookup_total_alt, Ho. simpl.
  intros [?|[? ?]]; [done|]. by apply Hne2.
Qed.

End Bound.

(** ** Options: matched, unmatched, repeated *)

Lemma captured_length (p : Parser) (name : string) (o : Option.t) :
  schema_ok p -> all_options_ p !! name = Some o ->
  forall args,
    Forall (fun values => length values <= Option.value_count o)
      (captured name (events_of p args)).
Proof.
  intros Hok Ho. unfold events_of. intros args.
  remember (length args) as n eqn:Hn. revert args Hn.
  induction n as [n IH] using lt_wf_ind. intros args Hn.
  destruct args as [|str rest]; simp scan_events; [constructor|].
  pose proof (option_name_of_start p Hok str) as Hstart.
  destruct (option_start _ _ str) as [o'|]; simpl.
  - destruct Hstart as (_ & _ & Hlookup).
    assert (Hrest : Forall (fun values => length values <= Option.value_count o)
              (captured name
                 (scan_events (all_options_ p) (short_name_to_name_of_option_ p)
                    (drop (Option.value_count o') rest)))).
    { eapply IH; [|reflexivity]. rewrite length_drop, Hn. simpl. lia. }
    case_decide as Hname; [|done].
    constructor; [|done].
    subst name. rewrite Hlookup in Ho. injection Ho as ->.
    rewrite length_take. lia.
  - eapply IH; [|reflexivity]. rewrite Hn. simpl. lia.
Qed.

Lemma concat_of_empty (windows : list (list string)) :
  Forall (fun values => length values <= 0) windows -> concat windows = [].
Proof.
  induction 1 as [|w ws Hw _ IH]; simpl; [done|].
  rewrite IH. destruct w; simpl in *; [done|lia].
Qed.

Lemma operator_index_Some (p : Parser) (name : string) (v : Value) :
  cur_values_ p !! name = Some v -> operator_index p name = v.
Proof. unfold operator_index. by intros ->. Qed.

Lemma operator_index_None (p : Parser) (name : string) :
  cur_values_ p !! name = None -> operator_index p name = Value_default.
Proof. unfold operator_index. by intros ->. Qed.

(** An option of the schema that was not matched is not bound. *)
Lemma unmatched_unbound (p : Parser) path args result p' name o :
  schema_ok p -> Parse p (path :: args) = Returned result p' ->
  all_options_ p !! name = Some o -> ~ matched p args name ->
  cur_values_ p' !! name = None.
Proof.
  intros Hok Hparse Ho Hunmatched. unfold matched in Hunmatched.
  destruct (ok_long p Hok _ _ Ho) as [_ Hlong].
  destruct (bound_elsewhere p Hok _ _ _ Hparse path args name eq_refl)
    as (cv1 & Hbind & ->).
  - intros name' o' Ho' Hcaptured. split; [by intros <-|].
    intros Hshort Heq.
    destruct (alias_of p Hok name' o' Ho' Hshort) as [Hshape _].
    rewrite <- Heq in Hshape. exact (shapes_differ _ Hlong Hshape).
  - rewrite (bind_arguments_frame p _ _ _ _ _ Hbind); [done|].
    by apply dashed_not_argument, long_shape_dashed.
Qed.

(** C6. A lookup by a name that is not bound returns an invalid [Value] and
    cannot fail. After a [Parse] that returned, the lookup by the name of an
    option that takes no values is [true] in a boolean context, with an
    empty list of values, if the option was matched, and [false] if it was
    not. *)
Theorem lookup_of_unbound_name_and_of_flag (p : Parser) (name : string) :
  (cur_values_ p !! name = None ->
   operator_index p name = Value_default /\
   Value_bool (operator_index p name) = false) /\
  (forall path args p' o,
     reachable p ->
     Parse p (path :: args) = Returned true p' ->
     all_options_ p !! name = Some o -> Option.value_count o = 0 ->
     (matched p args name ->
      Value_bool (operator_index p' name) = true /\
      values_ (operator_index p' name) = [] /\
      Value_size (operator_index p' name) = 0) /\
     (~ matched p args name -> Value_bool (operator_index p' name) = false)).
Proof.
  split.
  - intros Hnone. by rewrite operator_index_None.
  - intros path args p' o Hreach Hparse Ho Hcount.
    apply reachable_schema_ok in Hreach as Hok. split.
    + intros Hmatched.
      rewrite (operator_index_Some p' name
                 (Value_of_strings (concat (captured name (events_of p args))))).
      2: { eapply (bound_matched p Hok); eauto. }
      rewrite concat_of_empty; [done|].
      rewrite <- Hcount. by apply captured_length.
    + intros Hunmatched.
      rewrite operator_index_None; [done|].
      by eapply unmatched_unbound.
Qed.

Lemma main_parser_reachable : reachable main_parser.
Proof.
  apply (reachable_register _ (RegisterOption "--back" 0 "-b" "from the back" false)).
  apply (reachable_register _ (RegisterOption "--lines" 1 "-l" "line count to show" true)).
  apply (reachable_register _ (RegisterArgument "file" "text file path" false)).
  apply reachable_new.
Qed.

Lemma lookup_of_unbound_name_and_of_flag_witness :
  Value_bool (operator_index main_parser "--back") = false /\
  (exists p', Parse main_parser ["cat"; "notes.txt"; "--back"] = Returned true p' /\
              Value_bool (operator_index p' "--back") = true /\
              Value_size (operator_index p' "--back") = 0) /\
  (exists p', Parse main_parser ["cat"; "notes.txt"] = Returned true p' /\
              Value_bool (operator_index p' "--back") = false).
Proof.
  destruct (lookup_of_unbound_name_and_of_flag main_parser "--back")
    as [Hunbound Hflag].
  split_and!.
  - apply Hunbound. vm_compute. reflexivity.
  - assert (Hparse : exists p',
              Parse main_parser ["cat"; "notes.txt"; "--back"] = Returned true p')
      by (vm_compute; eexists; reflexivity).
    destruct Hparse as [p' Hparse]. exists p'. split; [exact Hparse|].
    destruct (Hflag "cat" ["notes.txt"; "--back"] p'
                (Option.mk "--back" "-b" "from the back" 0 false 1)
                main_parser_reachable Hparse)
      as [Hmatched _]; [vm_compute; reflexivity|reflexivity|].
    assert (Hm : matched main_parser ["notes.txt"; "--back"] "--back")
      by (unfold matched; vm_compute; discriminate).
    destruct (Hmatched Hm) as (Hbool & _ & Hsize).
    split; [exact Hbool|exact Hsize].
  - assert (Hparse : exists p',
              Parse main_parser ["cat"; "notes.txt"] = Returned true p')
      by (vm_compute; eexists; reflexivity).
    destruct Hparse as [p' Hparse]. exists p'. split; [exact Hparse|].
    destruct (Hflag "cat" ["notes.txt"] p'
                (Option.mk "--back" "-b" "from the back" 0 false 1)
                main_parser_reachable Hparse)
      as [_ Hunmatched]; [vm_compute; reflexivity|reflexivity|].
    apply Hunmatched. unfold matched. vm_compute. intros H. by apply H.
Defined.

(** C7. After a [Parse] that returned and in which an option with a short
    name was matched, the lookup by the name and the lookup by the short
    name return the same multiple value: both valid, of the same size, with
    the same elements in the same order. *)
Theorem long_and_short_name_agree (p : Parser) (path : string)
    (args : list string) (p' : Parser) (name : string) (o : Option.t) :
  reachable p ->
  Parse p (path :: args) = Returned true p' ->
  all_options_ p !! name = Some o -> Option.short_name o <> "" ->
  matched p args name ->
  operator_index p' name = operator_index p' (Option.short_name o) /\
  Value_bool (operator_index p' name) = true /\
  Value_size (operator_index p' name)
  = Value_size (operator_index p' (Option.short_name o)) /\
  values_ (operator_index p' name)
  = values_ (operator_index p' (Option.short_name o)).
Proof.
  intros Hreach Hparse Ho Hshort Hmatched.
  apply reachable_schema_ok in Hreach as Hok.
  pose proof (bound_matched p Hok _ _ _ Hparse path args name o eq_refl Ho
                Hmatched) as Hbound.
  rewrite (operator_index_Some p' name _ (Hbound name (or_introl eq_refl))).
  rewrite (operator_index_Some p' (Option.short_name o) _
             (Hbound _ (or_intror (conj Hshort eq_refl)))).
  done.
Qed.

Lemma long_and_short_name_agree_witness :
  exists p',
    Parse main_parser ["cat"; "notes.txt"; "-l"; "3"] = Returned true p' /\
    operator_index p' "--lines" = operator_index p' "-l" /\
    Value_size (operator_index p' "--lines") = Value_size (operator_index p' "-l").
Proof.
  assert (Hparse : exists p',
            Parse main_parser ["cat"; "notes.txt"; "-l"; "3"] = Returned true p')
    by (vm_compute; eexists; reflexivity).
  destruct Hparse as [p' Hparse]. exists p'. split; [exact Hparse|].
  assert (Hm : matched main_parser ["notes.txt"; "-l"; "3"] "--lines")
    by (unfold matched; vm_compute; discriminate).
  assert (Ho : all_options_ main_parser !! "--lines"
               = Some (Option.mk "--lines" "-l" "line count to show" 1 true 0))
    by (vm_compute; reflexivity).
  assert (Hs : Option.short_name
                 (Option.mk "--lines" "-l" "line count to show" 1 true 0) <> "")
    by discriminate.
  destruct (long_and_short_name_agree main_parser "cat"
              ["notes.txt"; "-l"; "3"] p' "--lines" _
              main_parser_reachable Hparse Ho Hs Hm)
    as (Heq & _ & Hsize & _).
  split; [exact Heq|exact Hsize].
Defined.

(** C1, as amended. After a [Parse] that returned, an option that was
    matched is bound, under its name and under its short name, to the
    values captured at all its occurrences, one occurrence after the
    other: a later occurrence adds to what the earlier ones captured. *)
Theorem repeated_option_accumulates (p : Parser) (path : string)
    (args : list string) (p' : Parser) (name : string) (o : Option.t) :
  reachable p ->
  Parse p (path :: args) = Returned true p' ->
  all_options_ p !! name = Some o ->
  matched p args name ->
  values_ (operator_index p' name) = concat (captured name (events_of p args)) /\
  (Option.short_name o <> "" ->
   values_ (operator_index p' (Option.short_name o))
   = concat (captured name (events_of p args))).
Proof.
  intros Hreach Hparse Ho Hmatched.
  apply reachable_schema_ok in Hreach as Hok.
  pose proof (bound_matched p Hok _ _ _ Hparse path args name o eq_refl Ho
                Hmatched) as Hbound.
  split.
  - by rewrite (operator_index_Some p' name _ (Hbound name (or_introl eq_refl))).
  - intros Hshort.
    by rewrite (operator_index_Some p' (Option.short_name o) _
                  (Hbound _ (or_intror (conj Hshort eq_refl)))).
Qed.

Lemma repeated_option_accumulates_witness :
  exists p',
    Parse main_parser ["cat"; "notes.txt"; "--lines"; "1"; "-l"; "2"]
    = Returned true p' /\
    values_ (operator_index p' "--lines") = ["1"; "2"].
Proof.
  assert (Hparse : exists p',
            Parse main_parser ["cat"; "notes.txt"; "--lines"; "1"; "-l"; "2"]
            = Returned true p')
    by (vm_compute; eexists; reflexivity).
  destruct Hparse as [p' Hparse]. exists p'. split; [exact Hparse|].
  assert (Hm : matched main_parser ["notes.txt"; "--lines"; "1"; "-l"; "2"]
                 "--lines")
    by (unfold matched; vm_compute; discriminate).
  assert (Ho : all_options_ main_parser !! "--lines"
               = Some (Option.mk "--lines" "-l" "line count to show" 1 true 0))
    by (vm_compute; reflexivity).
  destruct (repeated_option_accumulates main_parser "cat"
              ["notes.txt"; "--lines"; "1"; "-l"; "2"] p' "--lines" _
              main_parser_reachable Hparse Ho Hm) as [Hvalues _].
  rewrite Hvalues. vm_compute. reflexivity.
Defined.

(** C1, as stated, fails: with [--lines 1 -l 2] the option is bound to both
    values, not to the last one alone. *)
Lemma last_occurrence_does_not_win :
  ~ last_occurrence_wins main_parser "cat"
      ["notes.txt"; "--lines"; "1"; "-l"; "2"].
Proof.
  intros Hclaim.
  assert (Hrun : exists p',
            Parse main_parser ["cat"; "notes.txt"; "--lines"; "1"; "-l"; "2"]
            = Returned true p' /\
            values_ (operator_index p' "--lines") = ["1"; "2"]).
  { vm_compute. eexists. split; reflexivity. }
  destruct Hrun as (p' & Hparse & Hvalues).
  specialize (Hclaim p' "--lines" ["2"] Hparse).
  rewrite Hvalues in Hclaim.
  discriminate Hclaim; vm_compute; [lia|reflexivity].
Qed.

(** ** Positional tokens and declared arguments *)

Section Positional.

Lemma positional_stage_Parse p argv cur_arguments cur_options :
  positional_stage p argv = Some (cur_arguments, cur_options) ->
  exists path args all_options1,
    argv = path :: args /\
    Parse p argv = finish (enter p path) all_options1 cur_arguments cur_options.
Proof.
  unfold positional_stage, Parse. destruct argv as [|path args]; [done|].
  destruct (lone_builtin _ _ "--help"); [done|].
  destruct (lone_builtin _ _ "--usage"); [done|].
  destruct (scanned _ _) as [[[ao ca] co]| |]; try done.
  intros [= <- <-]. eauto.
Qed.

Lemma finish_Abort p1 all_options1 cur_arguments cur_options d :
  check_arguments (have_argument_pack_ p1) (all_arguments_ p1) cur_arguments
  = Abort d ->
  finish p1 all_options1 cur_arguments cur_options = Fatal d.
Proof. unfold finish. by intros ->. Qed.

Lemma finish_Ok p1 all_options1 cur_arguments cur_options cur_values1 :
  check_arguments (have_argument_pack_ p1) (all_arguments_ p1) cur_arguments
  = Ok tt ->
  bind_arguments (have_argument_pack_ p1) (all_arguments_ p1) cur_arguments
    (cur_values_ p1) = Ok cur_values1 ->
  exists p', finish p1 all_options1 cur_arguments cur_options = Returned true p'.
Proof. unfold finish. intros -> . simpl. intros ->. eauto. Qed.

Lemma size_t_wrap_small (z : Z) :
  (0 <= z < size_t_modulus)%Z -> size_t_wrap z = z.
Proof. apply Z.mod_small. Qed.

Lemma pack_count_cons a l :
  pack_count (a :: l) = (if Argument.is_package a then 1 else 0) + pack_count l.
Proof. done. Qed.

Lemma pack_count_app l k : pack_count (l ++ k) = pack_count l + pack_count k.
Proof. apply sum_list_with_app. Qed.

Lemma pack_count_0 l a :
  pack_count l = 0 -> a ∈ l -> Argument.is_package a = false.
Proof.
  induction l as [|b l IH]; [by intros _ ?%elem_of_nil|].
  rewrite pack_count_cons. intros Hcount [->|Ha]%elem_of_cons.
  - destruct (Argument.is_package b); [lia|done].
  - apply IH; [lia|done].
Qed.

Lemma offset_plain l n i : pack_count l = 0 -> i <= length l -> offset l n i = i.
Proof.
  revert i. induction l as [|a l IH]; intros i Hcount Hi.
  - destruct i; [done|simpl in Hi; lia].
  - destruct i as [|i]; [done|].
    rewrite pack_count_cons in Hcount. simpl in Hi.
    rewrite offset_S, IH by lia. unfold width.
    destruct (Argument.is_package a); lia.
Qed.

Lemma offset_app_l before rest n i :
  i <= length before -> offset (before ++ rest) n i = offset before n i.
Proof. intros Hi. unfold offset. by rewrite take_app_le. Qed.

Lemma offset_app_r before rest n i :
  offset (before ++ rest) n (length before + i)
  = offset before n (length before) + offset rest n i.
Proof.
  unfold offset. by rewrite take_app_add, sum_list_with_app, firstn_all.
Qed.

(** With at most one pack, the place of an argument's tokens is the place
    that [token_position] names. *)
Lemma offset_at_most_one_pack l n :
  forall i,
    pack_count l <= 1 -> i <= length l ->
    offset l n i
    = if existsb Argument.is_package (take i l) then i - 1 + n else i.
Proof.
  induction l as [|a l IH]; intros i Hcount Hi.
  - destruct i; [done|simpl in Hi; lia].
  - destruct i as [|i]; [done|].
    rewrite pack_count_cons in Hcount. simpl in Hi.
    rewrite offset_S. unfold width. simpl.
    destruct (Argument.is_package a) eqn:Hpack; simpl.
    + rewrite offset_plain by lia. lia.
    + rewrite IH by lia.
      destruct (existsb Argument.is_package (take i l)) eqn:Hexists; [|done].
      destruct i; [done|]. lia.
Qed.

Lemma offset_token_position (all_arguments : list Argument.t)
    (cur_arguments : list string) (i : nat) :
  pack_count all_arguments <= 1 ->
  length all_arguments <= length cur_arguments + 1 ->
  i <= length all_arguments ->
  offset all_arguments (length cur_arguments + 1 - length all_arguments) i
  = token_position all_arguments (length cur_arguments) i.
Proof.
  intros Hcount Hlen Hi. rewrite offset_at_most_one_pack by done.
  unfold token_position.
  destruct (existsb Argument.is_package (take i all_arguments)) eqn:Hexists;
    [|done].
  destruct i; [done|]. lia.
Qed.

(** With a pack declared and one positional token short, the check stops at
    the pack at the latest. *)
Lemma check_with_pack_none cur_arguments :
  forall arguments j,
    1 <= pack_count arguments ->
    j + length arguments <= length cur_arguments + 1 ->
    exists d, check_with_pack arguments j 0 cur_arguments = Abort d.
Proof.
  induction arguments as [|a arguments IH]; intros j Hcount Hlen.
  - unfold pack_count in Hcount. simpl in Hcount. lia.
  - rewrite pack_count_cons in Hcount. simpl in Hlen. simpl.
    destruct (Argument.is_package a) eqn:Hpack; [eauto|].
    assert (Hrest : 1 <= length arguments).
    { destruct arguments; [unfold pack_count in Hcount|]; simpl in *; lia. }
    unfold number_check. destruct (Argument.only_number a); simpl.
    + unfold at_index. destruct (cur_arguments !! j) as [value|] eqn:Hj.
      * simpl. destruct (CLib.stoi_throws value); simpl; [eauto|].
        apply IH; lia.
      * apply lookup_ge_None in Hj. lia.
    + apply IH; lia.
Qed.

Variable p : Parser.
Hypothesis Hok : schema_ok p.

Lemma pack_declared before pack after :
  all_arguments_ p = before ++ pack :: after ->
  Argument.is_package pack = true ->
  have_argument_pack_ p = true /\
  pack_count (all_arguments_ p) = 1 /\
  pack_count before = 0 /\ pack_count after = 0.
Proof.
  intros Hsplit Hpack. pose proof (ok_pack p Hok) as Hcount.
  rewrite Hsplit, pack_count_app, pack_count_cons, Hpack in Hcount |- *.
  destruct (have_argument_pack_ p); split_and!; try done; lia.
Qed.

Lemma check_arguments_short cur_arguments :
  vector_sizes (all_arguments_ p) cur_arguments ->
  have_argument_pack_ p = true ->
  length cur_arguments + 1 <= length (all_arguments_ p) ->
  exists d,
    check_arguments (have_argument_pack_ p) (all_arguments_ p) cur_arguments
    = Abort d.
Proof.
  intros [HD HP] Hflag Hlen. unfold check_arguments. rewrite Hflag.
  rewrite size_t_wrap_small by lia.
  destruct (Z.ltb_spec (Z.of_nat (length cur_arguments))
              (Z.of_nat (length (all_arguments_ p)) - 1)) as [Hlt|Hge];
    [eauto|].
  unfold pack_value_count_of.
  replace (Z.of_nat (length cur_arguments)
           - Z.of_nat (length (all_arguments_ p)) + 1)%Z with 0%Z by lia.
  apply check_with_pack_none; [|lia].
  pose proof (ok_pack p Hok) as Hcount. rewrite Hflag in Hcount. lia.
Qed.

Lemma check_arguments_passed cur_arguments :
  vector_sizes (all_arguments_ p) cur_arguments ->
  check_arguments (have_argument_pack_ p) (all_arguments_ p) cur_arguments
  = Ok tt ->
  length (all_arguments_ p) <= length cur_arguments + 1 /\
  (have_argument_pack_ p = false ->
   length cur_arguments = length (all_arguments_ p)).
Proof.
  intros Hsizes Hcheck.
  destruct (have_argument_pack_ p) eqn:Hflag.
  - split; [|done].
    destruct (decide (length (all_arguments_ p) <= length cur_arguments + 1))
      as [|Hshort]; [done|].
    destruct (check_arguments_short cur_arguments Hsizes Hflag) as [d Hd];
      [lia|].
    rewrite Hflag in Hd. congruence.
  - unfold check_arguments in Hcheck.
    destruct (Nat.eqb_spec (length cur_arguments) (length (all_arguments_ p)));
      simpl in Hcheck; [|done].
    split; [lia|done].
Qed.

Lemma pack_value_count_fits cur_arguments :
  vector_sizes (all_arguments_ p) cur_arguments ->
  1 <= length (all_arguments_ p) <= length cur_arguments + 1 ->
  Z.to_nat (pack_value_count_of (all_arguments_ p) cur_arguments)
  = length cur_arguments + 1 - length (all_arguments_ p).
Proof.
  intros [HD HP] Hlen. unfold pack_value_count_of.
  rewrite size_t_wrap_small by lia. lia.
Qed.

(** After a [Parse] that returned, every declared argument is bound to the
    tokens at its place. *)
Lemma argument_bound argv p' cur_arguments cur_options i a :
  vector_sizes (all_arguments_ p) cur_arguments ->
  Parse p argv = Returned true p' ->
  positional_stage p argv = Some (cur_arguments, cur_options) ->
  all_arguments_ p !! i = Some a ->
  length (all_arguments_ p) <= length cur_arguments + 1 /\
  is_Some (cur_values_ p' !! Argument.name a) /\
  cur_values_ p' !! Argument.name a
  = bound_value a (length cur_arguments + 1 - length (all_arguments_ p))
      (offset (all_arguments_ p)
         (length cur_arguments + 1 - length (all_arguments_ p)) i)
      cur_arguments.
Proof.
  intros Hsizes Hparse Hstage Hi.
  destruct (Parse_Returned p Hok argv true p' Hparse)
    as (path & args & co & cv0 & Hargv & _ & Hstage' & _ & Hcheck & _ & _).
  rewrite Hstage in Hstage'. injection Hstage' as Hca Hco.
  rewrite <- Hca in Hcheck.
  destruct (check_arguments_passed cur_arguments Hsizes Hcheck) as [Hlen Hexact].
  split; [done|].
  destruct (bound_elsewhere p Hok argv true p' Hparse path args
              (Argument.name a) Hargv) as (cv1 & Hbind & Hsame).
  { intros name' o' Ho' _.
    assert (Hplain : dashed (Argument.name a) = false).
    { apply (ok_argument p Hok). by eapply list_elem_of_lookup_2. }
    destruct (ok_long p Hok _ _ Ho') as [_ Hlong%long_shape_dashed].
    split; [congruence|]. intros Hshort.
    destruct (alias_of p Hok _ _ Ho' Hshort) as [Hshape%short_shape_dashed _].
    congruence. }
  rewrite Hsame. rewrite <- Hca in Hbind. clear Hsame.
  unfold bind_arguments in Hbind.
  destruct (have_argument_pack_ p) eqn:Hflag.
  - apply bind_with_pack_Ok in Hbind as [_ Hbound].
    destruct (Hbound (ok_distinct p Hok) i a Hi) as [Hsome Heq].
    split; [done|].
    apply lookup_lt_Some in Hi as Hlt.
    rewrite Heq, pack_value_count_fits; [done|done|lia].
  - apply bind_without_pack_Ok in Hbind as [_ Hbound].
    destruct (Hbound (ok_distinct p Hok)) as [_ Hat].
    pose proof (ok_pack p Hok) as Hcount. rewrite Hflag in Hcount.
    specialize (Hexact eq_refl).
    apply lookup_lt_Some in Hi as Hlt.
    destruct (lookup_lt_is_Some_2 cur_arguments i) as [value Hvalue]; [lia|].
    rewrite (Hat i a value Hvalue Hi).
    unfold bound_value.
    rewrite (pack_count_0 _ a Hcount) by by eapply list_elem_of_lookup_2.
    rewrite offset_plain by (done || lia).
    rewrite Hvalue. eauto.
Qed.

End Positional.

(** C9. If [Parse] returns and the positional token that goes with a plain
    argument is the empty string, the lookup by that argument's name is
    [false] in a boolean context: the argument reads as absent although it
    was supplied. *)
Theorem empty_argument_reads_as_absent (p : Parser) (argv : list string)
    (p' : Parser) (cur_arguments : list string)
    (cur_options : gmap string (list string)) (i : nat) (a : Argument.t)
    (token : string) :
  reachable p ->
  vector_sizes (all_arguments_ p) cur_arguments ->
  Parse p argv = Returned true p' ->
  positional_stage p argv = Some (cur_arguments, cur_options) ->
  all_arguments_ p !! i = Some a -> Argument.is_package a = false ->
  cur_arguments !! token_position (all_arguments_ p) (length cur_arguments) i
  = Some token ->
  operator_index p' (Argument.name a) = Value_of_string token /\
  (token = "" -> Value_bool (operator_index p' (Argument.name a)) = false).
Proof.
  intros Hreach Hsizes Hparse Hstage Hi Hplain Htoken.
  apply reachable_schema_ok in Hreach as Hok.
  destruct (argument_bound p Hok argv p' cur_arguments cur_options i a
              Hsizes Hparse Hstage Hi) as (Hlen & _ & Hbound).
  unfold bound_value in Hbound. rewrite Hplain in Hbound.
  rewrite offset_token_position in Hbound.
  - rewrite Htoken in Hbound. simpl in Hbound.
    rewrite (operator_index_Some _ _ _ Hbound). split; [done|].
    by intros ->.
  - rewrite (ok_pack p Hok). destruct (have_argument_pack_ p); lia.
  - done.
  - apply lookup_lt_Some in Hi. lia.
Qed.

Lemma empty_argument_reads_as_absent_witness :
  exists p',
    Parse main_parser ["cat"; ""] = Returned true p' /\
    Value_bool (operator_index p' "file") = false.
Proof.
  assert (Hparse : exists p', Parse main_parser ["cat"; ""] = Returned true p')
    by (vm_compute; eexists; reflexivity).
  destruct Hparse as [p' Hparse]. exists p'. split; [exact Hparse|].
  assert (Hstage : positional_stage main_parser ["cat"; ""] = Some ([""], ∅))
    by (vm_compute; reflexivity).
  assert (Hsizes : vector_sizes (all_arguments_ main_parser) [""])
    by (split; vm_compute; reflexivity).
  destruct (empty_argument_reads_as_absent main_parser ["cat"; ""] p' [""] ∅ 0
              (Argument.mk "file" "text file path" false false) ""
              main_parser_reachable Hsizes Hparse Hstage)
    as [_ Habsent]; try reflexivity.
  exact (Habsent eq_refl).
Defined.

(** C4, as amended. A run of [Parse] that reaches the checks with [P]
    positional tokens, under a schema whose [D] declared arguments include
    the pack, fails fatally whenever [P <= D - 1]; whenever [P >= D] and
    the checks for numbers raise no error, it returns, each plain argument
    is bound to one positional token in declared order, and the pack is
    bound to the [P - (D - 1)] consecutive tokens at its declared place. *)
Theorem pack_rule_when_checks_pass (p : Parser) (argv : list string)
    (cur_arguments : list string) (cur_options : gmap string (list string))
    (before : list Argument.t) (pack : Argument.t) (after : list Argument.t) :
  reachable p ->
  vector_sizes (all_arguments_ p) cur_arguments ->
  positional_stage p argv = Some (cur_arguments, cur_options) ->
  all_arguments_ p = before ++ pack :: after ->
  Argument.is_package pack = true ->
  (length cur_arguments <= length (all_arguments_ p) - 1 ->
   exists d, Parse p argv = Fatal d) /\
  (length (all_arguments_ p) <= length cur_arguments ->
   check_arguments (have_argument_pack_ p) (all_arguments_ p) cur_arguments
   = Ok tt ->
   exists p',
     Parse p argv = Returned true p' /\
     bound_as_declared p' before pack after cur_arguments).
Proof.
  intros Hreach Hsizes Hstage Hsplit Hpack.
  apply reachable_schema_ok in Hreach as Hok.
  destruct (pack_declared p Hok before pack after Hsplit Hpack)
    as (Hflag & Hcount & Hbefore & Hafter).
  destruct (positional_stage_Parse p argv _ _ Hstage)
    as (path & args & ao & Hargv & Hfinish).
  assert (HD : length (all_arguments_ p) = length before + S (length after)).
  { rewrite Hsplit, length_app. done. }
  split.
  - intros Hshort.
    destruct (check_arguments_short p Hok cur_arguments Hsizes Hflag)
      as [d Hd]; [lia|].
    exists d. rewrite Hfinish. by apply finish_Abort.
  - intros Hlen Hcheck.
    set (n := length cur_arguments + 1 - length (all_arguments_ p)) in *.
    assert (Hn : Z.to_nat (pack_value_count_of (all_arguments_ p) cur_arguments)
                 = n).
    { apply pack_value_count_fits; [done|lia]. }
    assert (Htotal : offset (all_arguments_ p) n (length (all_arguments_ p))
                     = length cur_arguments).
    { rewrite HD, Hsplit, offset_app_r, offset_S.
      rewrite !offset_plain by (done || lia).
      unfold width. rewrite Hpack. lia. }
    destruct (bind_with_pack_succeeds
                (pack_value_count_of (all_arguments_ p) cur_arguments)
                cur_arguments (all_arguments_ p) 0 ∅) as [cv1 Hbind].
    { rewrite Hn, Htotal. lia. }
    destruct (finish_Ok (enter p path) ao cur_arguments cur_options cv1)
      as [p' Hp'].
    { done. }
    { simpl. unfold bind_arguments. by rewrite Hflag. }
    rewrite <- Hfinish in Hp'.
    exists p'. split; [done|].
    assert (Hbound : forall i a,
              all_arguments_ p !! i = Some a ->
              cur_values_ p' !! Argument.name a
              = bound_value a n (offset (all_arguments_ p) n i) cur_arguments).
    { intros i a Hi.
      by destruct (argument_bound p Hok argv p' cur_arguments cur_options i a
                     Hsizes Hp' Hstage Hi) as (_ & _ & ?). }
    exists (take (length before) cur_arguments),
      (take n (drop (length before) cur_arguments)),
      (drop (length before + n) cur_arguments).
    split_and!.
    + by rewrite <- drop_drop, !take_drop.
    + rewrite length_take. lia.
    + rewrite length_drop. lia.
    + intros i a x Ha [Hx Hlt]%lookup_take_Some.
      apply operator_index_Some.
      rewrite (Hbound i a) by (rewrite Hsplit; by apply lookup_app_l_Some).
      unfold bound_value.
      rewrite (pack_count_0 before a Hbefore)
        by by eapply list_elem_of_lookup_2.
      rewrite Hsplit, offset_app_l, offset_plain by (done || lia).
      by rewrite Hx.
    + apply operator_index_Some.
      rewrite (Hbound (length before) pack)
        by (rewrite Hsplit; by apply list_lookup_middle).
      unfold bound_value. rewrite Hpack.
      rewrite Hsplit, offset_app_l, offset_plain by (done || lia).
      done.
    + intros i a z Ha Hz. rewrite lookup_drop in Hz.
      apply lookup_lt_Some in Ha as Hlt.
      apply operator_index_Some.
      rewrite (Hbound (length before + S i) a).
      2: { rewrite Hsplit, lookup_app_r by lia.
           replace (length before + S i - length before) with (S i) by lia.
           done. }
      unfold bound_value.
      rewrite (pack_count_0 after a Hafter)
        by by eapply list_elem_of_lookup_2.
      rewrite Hsplit, offset_app_r, offset_S.
      rewrite !offset_plain by (done || lia).
      unfold width. rewrite Hpack.
      replace (length before + (n + i)) with (length before + n + i) by lia.
      by rewrite Hz.
Qed.

Lemma pack_parser_reachable : reachable pack_parser.
Proof.
  apply (reachable_register _ (RegisterArgumentPack "items" "" false)).
  apply (reachable_register _ (RegisterArgument "a" "" true)).
  apply reachable_new.
Qed.

Lemma pack_rule_when_checks_pass_witness :
  (exists d, Parse pack_parser ["prog"; "1"] = Fatal d) /\
  (exists p',
     Parse pack_parser ["prog"; "1"; "y"; "z"] = Returned true p' /\
     bound_as_declared p' [Argument.mk "a" "" true false]
       (Argument.mk "items" "" false true) [] ["1"; "y"; "z"]).
Proof.
  split.
  - destruct (pack_rule_when_checks_pass pack_parser ["prog"; "1"] ["1"] ∅
                [Argument.mk "a" "" true false]
                (Argument.mk "items" "" false true) []
                pack_parser_reachable) as [Hshort _].
    + split; vm_compute; reflexivity.
    + vm_compute. reflexivity.
    + reflexivity.
    + reflexivity.
    + apply Hshort. simpl. lia.
  - destruct (pack_rule_when_checks_pass pack_parser ["prog"; "1"; "y"; "z"]
                ["1"; "y"; "z"] ∅
                [Argument.mk "a" "" true false]
                (Argument.mk "items" "" false true) []
                pack_parser_reachable) as [_ Henough].
    + split; vm_compute; reflexivity.
    + vm_compute. reflexivity.
    + reflexivity.
    + reflexivity.
    + apply Henough; [simpl; lia|vm_compute; reflexivity].
Defined.

(** C4, as stated, fails: with as many positional tokens as declared
    arguments, [Parse] still exits when the token of a numeric argument is
    not a number. *)
Lemma pack_rule_fails_on_numbers : ~ pack_rule pack_parser ["prog"; "x"; "y"].
Proof.
  intros Hclaim.
  destruct (Hclaim ["x"; "y"] ∅ [Argument.mk "a" "" true false]
              (Argument.mk "items" "" false true) []) as [_ Henough].
  - vm_compute. reflexivity.
  - reflexivity.
  - reflexivity.
  - destruct Henough as (p' & Hparse & _); [simpl; lia|].
    vm_compute in Hparse. discriminate.
Qed.

(** C2 at the failing inputs. With the pack declared first, the check of
    "n" reads the token after the one that "n" is bound to: [Parse] returns
    with "n" bound to a token that is not a number, exits on a command line
    whose token for "n" is a number, and reads past the end of the
    positional tokens when "n" is declared last. *)
Theorem number_check_after_pack_reads_next_token :
  (exists p',
     Parse pack_first_parser ["prog"; "a"; "x"; "5"] = Returned true p' /\
     operator_index p' "n" = Value_of_string "x" /\
     operator_index p' "s" = Value_of_string "5" /\
     CLib.stoi_throws "x" = true) /\
  Parse pack_first_parser ["prog"; "a"; "5"; "x"]
  = Fatal (ArgumentRequireNumber "n" "x") /\
  Parse (AddArgument (AddArgumentPack (CommandLineParser "command" "")
                        "items" "" false).2 "n" "" true).2
    ["prog"; "a"; "5"]
  = Undefined.
Proof.
  split_and!.
  - vm_compute. eexists. split_and!; reflexivity.
  - vm_compute. reflexivity.
  - vm_compute. reflexivity.
Qed.

(** ** The usage line and the two built-in options *)

(** A returning [Parse] changes, of what the usage line shows, the program
    path only. *)
Lemma UsageInfo_Returned (p : Parser) (path : string) (args : list string)
    (result : bool) (p' : Parser) :
  schema_ok p ->
  Parse p (path :: args) = Returned result p' ->
  all_arguments_ p' = all_arguments_ p /\
  all_options_ p' = all_options_ p /\
  app_path_ p' = path /\
  UsageInfo p' = UsageInfo (enter p path).
Proof.
  intros Hok Hparse.
  destruct (Parse_Returned p Hok _ _ _ Hparse)
    as (path' & args' & co & cv1 & [= <- <-] & _ & _ & _ & _ & _ & ->).
  done.
Qed.

(** C3, as amended. [UsageInfo] is a function of the registered arguments,
    the registered options and the program path that the last [Parse]
    stored: it does not change the object, and after a [Parse] that
    returned it is the usage line of the schema as registered, with
    [argv[0]] for the program, whatever the other tokens were and whatever
    values were bound. *)
Theorem usage_after_Parse (p : Parser) (path : string) (args : list string)
    (result : bool) (p' : Parser) :
  reachable p ->
  Parse p (path :: args) = Returned result p' ->
  UsageInfo p' = UsageInfo (enter p path) /\
  (forall q,
     all_arguments_ q = all_arguments_ p ->
     all_options_ q = all_options_ p ->
     app_path_ q = path ->
     UsageInfo q = UsageInfo p').
Proof.
  intros Hreach Hparse. apply reachable_schema_ok in Hreach as Hok.
  destruct (UsageInfo_Returned p path args result p' Hok Hparse)
    as (Harguments' & Hoptions' & Hpath' & Husage).
  split; [done|].
  intros q Harguments Hoptions Hpath. unfold UsageInfo.
  by rewrite Harguments, Hoptions, Hpath, Harguments', Hoptions', Hpath'.
Qed.

Lemma usage_after_Parse_witness :
  exists p',
    Parse main_parser ["./cat"; "notes.txt"; "-l"; "3"] = Returned true p' /\
    UsageInfo p' = "Usage: ./cat <file> [-l|--lines N1] [-b|--back]".
Proof.
  assert (Hparse : exists p',
            Parse main_parser ["./cat"; "notes.txt"; "-l"; "3"] = Returned true p')
    by (vm_compute; eexists; reflexivity).
  destruct Hparse as [p' Hparse]. exists p'. split; [exact Hparse|].
  destruct (usage_after_Parse main_parser "./cat" ["notes.txt"; "-l"; "3"]
              true p' main_parser_reachable Hparse) as [-> _].
  vm_compute. reflexivity.
Defined.

(** C3, as stated, fails: [Parse] stores [argv[0]], and the usage line
    shows it. *)
Lemma usage_depends_on_Parse :
  ~ usage_ignores_Parse main_parser ["./cat"; "notes.txt"].
Proof.
  intros Hclaim.
  assert (Hparse : exists p',
            Parse main_parser ["./cat"; "notes.txt"] = Returned true p')
    by (vm_compute; eexists; reflexivity).
  destruct Hparse as [p' Hparse].
  destruct (UsageInfo_Returned main_parser "./cat" ["notes.txt"] true p'
              (reachable_schema_ok _ main_parser_reachable) Hparse)
    as (_ & _ & _ & Husage).
  assert (Hafter : UsageInfo (enter main_parser "./cat")
                   = "Usage: ./cat <file> [-l|--lines N1] [-b|--back]")
    by (vm_compute; reflexivity).
  assert (Hbefore : UsageInfo main_parser
                    = "Usage: command <file> [-l|--lines N1] [-b|--back]")
    by (vm_compute; reflexivity).
  specialize (Hclaim true p' Hparse).
  rewrite Husage, Hafter, Hbefore in Hclaim.
  discriminate Hclaim.
Qed.

(** C5. When [--help] is the only token after the program path and the
    schema has no option of that name, [Parse] writes the help text to the
    standard output and exits with status 0; likewise [--usage] and the
    usage line. When the schema has an option of that name, [Parse] does
    not exit with the text: the token starts that option, and the run goes
    on as for any option (it stops for want of values if the option takes
    values, and goes to the checks on the positional arguments with the
    option matched if it takes none). *)
Theorem lone_help_and_usage (p : Parser) (path : string) :
  (all_options_ p !! "--help" = None ->
   Parse p [path; "--help"] = Exited 0 (HelpInfo (enter p path) +:+ CLib.endl)) /\
  (all_options_ p !! "--usage" = None ->
   Parse p [path; "--usage"] = Exited 0 (UsageInfo (enter p path) +:+ CLib.endl)) /\
  (forall name o,
     name = "--help" \/ name = "--usage" ->
     all_options_ p !! name = Some o ->
     events_of p [name] = [OptionStart (Option.name o) []] /\
     (reachable p -> matched p [name] name) /\
     Parse p [path; name]
     = match Option.value_count o with
       | O => finish (enter p path) (all_options_ p) [] {[name := []]}
       | S _ => Fatal (OptionValueCount name (Option.value_count o) 0)
       end /\
     forall status out, Parse p [path; name] <> Exited status out).
Proof.
  split_and!.
  - intros Hnone. unfold Parse, lone_builtin. simpl. by rewrite Hnone.
  - intros Hnone. unfold Parse, lone_builtin. simpl. rewrite Hnone. simpl.
    by rewrite andb_false_r.
  - intros name o Hname Ho.
    assert (Hparse :
      Parse p [path; name]
      = match Option.value_count o with
        | O => finish (enter p path) (all_options_ p) [] {[name := []]}
        | S _ => Fatal (OptionValueCount name (Option.value_count o) 0)
        end).
    { unfold Parse, lone_builtin. simpl.
      assert (Hskip :
        (negb (bool_decide (is_Some (all_options_ p !! "--help")))
         && bool_decide (Some name = Some "--help") = false) /\
        (negb (bool_decide (is_Some (all_options_ p !! "--usage")))
         && bool_decide (Some name = Some "--usage") = false)).
      { destruct Hname as [-> | ->]; split; rewrite ?Ho;
          repeat case_bool_decide; simpl; try done; exfalso; eauto. }
      destruct Hskip as [-> ->].
      unfold scanned. simpl. simp scan_arguments. unfold option_name_of.
      rewrite Ho. cbv zeta.
      assert (Hne : String.eqb name "" = false) by by destruct Hname as [-> | ->].
      rewrite Hne.
      rewrite (subscript_present (all_options_ p)) by eauto.
      rewrite (lookup_total_alt (all_options_ p)), Ho. simpl.
      unfold subscript. rewrite lookup_empty.
      destruct (Option.value_count o) as [|count]; simpl.
      - simp scan_arguments. done.
      - by rewrite Nat.sub_diag. }
    assert (Hevents : events_of p [name] = [OptionStart (Option.name o) []]).
    { unfold events_of. simp scan_events. unfold option_start. rewrite Ho.
      simpl. rewrite take_nil, drop_nil. by simp scan_events. }
    split_and!.
    + done.
    + intros Hok%reachable_schema_ok.
      destruct (ok_long p Hok name o Ho) as [Hself _].
      unfold matched, captured. rewrite Hevents, Hself. simpl.
      by rewrite decide_True.
    + done.
    + rewrite Hparse. intros status out.
      destruct (Option.value_count o); [|done].
      unfold finish. by repeat case_match.
Qed.

Lemma lone_help_and_usage_witness :
  Parse main_parser ["cat"; "--usage"]
  = Exited 0 ("Usage: cat <file> [-l|--lines N1] [-b|--back]" +:+ CLib.endl) /\
  exit_status (Parse main_parser ["cat"; "--help"]) = Some 0%Z /\
  Parse (AddOption main_parser "--help" 1 "" "" false).2 ["cat"; "--help"]
  = Fatal (OptionValueCount "--help" 1 0).
Proof.
  destruct (lone_help_and_usage main_parser "cat") as (Hhelp & Husage & _).
  destruct (lone_help_and_usage (AddOption main_parser "--help" 1 "" "" false).2
              "cat") as (_ & _ & Hdefined).
  split_and!.
  - rewrite Husage by (vm_compute; reflexivity). vm_compute. reflexivity.
  - rewrite Hhelp by (vm_compute; reflexivity). reflexivity.
  - destruct (Hdefined "--help" (Option.mk "--help" "" "" 1 false 2))
      as (_ & _ & -> & _); [by left|vm_compute; reflexivity|reflexivity].
Defined.

(** ** The check for a number *)

Section Numbers.

Lemma append_String c s t : String c s +:+ t = String c (s +:+ t).
Proof. done. Qed.

Lemma append_empty s : "" +:+ s = s.
Proof. done. Qed.

Lemma all_of_String f c s : all_of f (String c s) <-> f c = true /\ all_of f s.
Proof. unfold all_of. simpl. by rewrite andb_true_iff. Qed.

Lemma digit_is_no_space c : CLib.isdigit c = true -> CLib.isspace c = false.
Proof.
  unfold CLib.isdigit, CLib.isspace, CLib.between.
  intros [H1%Nat.leb_le H2%Nat.leb_le]%andb_true_iff.
  apply orb_false_iff. split.
  - apply Nat.eqb_neq. lia.
  - apply andb_false_iff. right. apply Nat.leb_gt. lia.
Qed.

Lemma digit_is_no_sign c :
  CLib.isdigit c = true ->
  Ascii.eqb c "-"%char = false /\ Ascii.eqb c "+"%char = false.
Proof.
  intros Hdigit. split.
  - destruct (Ascii.eqb_spec c "-"%char) as [->|]; [|done].
    vm_compute in Hdigit. discriminate.
  - destruct (Ascii.eqb_spec c "+"%char) as [->|]; [|done].
    vm_compute in Hdigit. discriminate.
Qed.

Lemma skip_space_parts s :
  exists space,
    s = space +:+ CLib.skip_space s /\ all_of CLib.isspace space /\
    starts_without CLib.isspace (CLib.skip_space s).
Proof.
  induction s as [|c s (space & Hs & Hspace & Hstop)]; simpl.
  - by exists "".
  - destruct (CLib.isspace c) eqn:Hc.
    + exists (String c space). rewrite append_String.
      split_and!; [by f_equal| |done].
      by apply all_of_String.
    + by exists "".
Qed.

Lemma skip_space_stops space s :
  all_of CLib.isspace space -> starts_without CLib.isspace s ->
  CLib.skip_space (space +:+ s) = s.
Proof.
  intros Hspace Hs. induction space as [|c space IH].
  - rewrite append_empty. destruct s as [|d s]; simpl in *; [done|].
    by rewrite Hs.
  - apply all_of_String in Hspace as [Hc Hspace].
    rewrite append_String. simpl. rewrite Hc. by apply IH.
Qed.

Lemma read_digits_run digits rest :
  all_of CLib.isdigit digits -> starts_without CLib.isdigit rest ->
  forall acc count,
    CLib.read_digits (digits +:+ rest) acc count
    = (foldl (fun acc c => (10 * acc + CLib.digit_value c)%Z) acc
         (list_ascii_of_string digits),
       count + String.length digits).
Proof.
  intros Hdigits Hrest. induction digits as [|c digits IH]; intros acc count.
  - rewrite append_empty. simpl. rewrite Nat.add_0_r.
    destruct rest as [|d rest]; simpl in *; [done|]. by rewrite Hrest.
  - apply all_of_String in Hdigits as [Hc Hdigits].
    rewrite append_String. simpl. rewrite Hc, IH by done. f_equal. lia.
Qed.

Lemma read_digits_parts s :
  exists digits rest,
    s = digits +:+ rest /\ all_of CLib.isdigit digits /\
    starts_without CLib.isdigit rest.
Proof.
  induction s as [|c s (digits & rest & Hs & Hdigits & Hrest)].
  - by exists "", "".
  - destruct (CLib.isdigit c) eqn:Hc.
    + exists (String c digits), rest. rewrite append_String.
      split_and!; [by f_equal| |done].
      by apply all_of_String.
    + by exists "", (String c s).
Qed.

Lemma take_sign_parts s :
  exists sign,
    s = sign +:+ (CLib.take_sign s).2 /\
    (sign = "" \/ sign = "+" \/ sign = "-") /\
    (CLib.take_sign s).1 = String.eqb sign "-".
Proof.
  destruct s as [|c s]; simpl; [by exists ""; auto|].
  destruct (Ascii.eqb_spec c "-"%char) as [->|];
    [by exists "-"; auto|].
  destruct (Ascii.eqb_spec c "+"%char) as [->|];
    [by exists "+"; auto|].
  by exists ""; auto.
Qed.

Lemma take_sign_of sign s :
  (sign = "" \/ sign = "+" \/ sign = "-") ->
  (sign = "" -> match s with
                | String c _ =>
                    Ascii.eqb c "-"%char = false /\ Ascii.eqb c "+"%char = false
                | EmptyString => True
                end) ->
  CLib.take_sign (sign +:+ s) = (String.eqb sign "-", s).
Proof.
  intros [-> | [-> | ->]] Hs; try done.
  rewrite append_empty.
  destruct s as [|c s]; simpl; [done|].
  destruct (Hs eq_refl) as [-> ->]. done.
Qed.

(** What [std::stoi] makes of a token that is white space, a sign, a run
    of digits as long as it goes, and a rest. *)
Lemma stoi_of_parts space sign digits rest :
  all_of CLib.isspace space ->
  (sign = "" \/ sign = "+" \/ sign = "-") ->
  digits <> "" -> all_of CLib.isdigit digits ->
  starts_without CLib.isdigit rest ->
  CLib.stoi (space +:+ sign +:+ digits +:+ rest)
  = if ((CLib.INT_MIN <=? signed sign (decimal digits))
        && (signed sign (decimal digits) <=? CLib.INT_MAX))%Z
    then CLib.StoiValue (signed sign (decimal digits))
    else CLib.StoiOutOfRange.
Proof.
  intros Hspace Hsign Hne Hdigits Hrest. unfold CLib.stoi.
  destruct digits as [|c digits]; [done|].
  apply all_of_String in Hdigits as Hc. destruct Hc as [Hc _].
  rewrite skip_space_stops; [|done|].
  2: { destruct Hsign as [-> | [-> | ->]]; try done.
       rewrite append_empty, append_String. simpl. by apply digit_is_no_space. }
  rewrite take_sign_of; [|done|].
  2: { intros _. rewrite append_String. by apply digit_is_no_sign. }
  rewrite read_digits_run by done.
  simpl String.length. rewrite Nat.add_0_l.
  unfold signed, decimal. done.
Qed.

Lemma stoi_throws_iff (token : string) :
  CLib.stoi_throws token = false <-> begins_with_int token.
Proof.
  split.
  - unfold CLib.stoi_throws.
    destruct (skip_space_parts token) as (space & Htoken & Hspace & Hstop).
    destruct (take_sign_parts (CLib.skip_space token))
      as (sign & Hsigned & Hsign & Hneg).
    destruct (read_digits_parts (CLib.take_sign (CLib.skip_space token)).2)
      as (digits & rest & Hrun & Hdigits & Hrest).
    assert (Hparts : token = space +:+ sign +:+ digits +:+ rest).
    { rewrite Htoken at 1. rewrite Hsigned at 1. by rewrite Hrun at 1. }
    destruct (decide (digits = "")) as [->|Hne].
    + unfold CLib.stoi.
      destruct (CLib.take_sign (CLib.skip_space token)) as [neg s] eqn:Hts.
      simpl in Hrun. rewrite Hrun, append_empty.
      rewrite (read_digits_run "" rest) by done. done.
    + rewrite Hparts at 1. rewrite stoi_of_parts by done.
      destruct (_ && _)%Z eqn:Hrange; [|done].
      intros _. exists digits, sign, space, rest. split_and!; try done; lia.
  - intros (digits & sign & space & rest & -> & Hspace & Hsign & Hne & Hdigits
            & Hrest & Hrange).
    unfold CLib.stoi_throws. rewrite stoi_of_parts by done.
    destruct (_ && _)%Z eqn:Hin; [done|].
    apply andb_false_iff in Hin as [?%Z.leb_gt | ?%Z.leb_gt]; lia.
Qed.

End Numbers.

(** C10, as amended. The check for a number, for the values of an option
    and for positional arguments alike, succeeds exactly when [std::stoi]
    returns: it accepts a token that, after optional white space and an
    optional sign, has a run of digits which, taken as long as it goes, is
    the notation of a number in the range of [int], and it is fatal for
    every other token, one with a longer number included. *)
Theorem number_check_accepts_ints (token : string) :
  (CLib.stoi_throws token = false <-> begins_with_int token) /\
  (begins_with_int token ->
   (forall name count remaining rest cur_options,
      read_option_values name true count (S remaining) (token :: rest)
        cur_options
      = read_option_values name true count remaining rest
          (<[name := (cur_options !!! name) ++ [token]]> cur_options)) /\
   (forall cur_arguments j diagnostic,
      cur_arguments !! j = Some token ->
      number_check true cur_arguments j diagnostic = Ok tt)) /\
  (~ begins_with_int token ->
   (forall name count remaining rest cur_options,
      read_option_values name true count (S remaining) (token :: rest)
        cur_options
      = Abort (OptionRequireNumber name token)) /\
   (forall cur_arguments j diagnostic,
      cur_arguments !! j = Some token ->
      number_check true cur_arguments j diagnostic = Abort (diagnostic token))).
Proof.
  pose proof (stoi_throws_iff token) as Hiff.
  split_and!; [done| |].
  - intros Hint%Hiff. split.
    + intros. simpl. by rewrite Hint.
    + intros ca j d Hj. unfold number_check, at_index. rewrite Hj. simpl.
      by rewrite Hint.
  - intros Hnot.
    assert (Hthrows : CLib.stoi_throws token = true).
    { destruct (CLib.stoi_throws token); [done|]. exfalso. by apply Hnot, Hiff. }
    split.
    + intros. simpl. by rewrite Hthrows.
    + intros ca j d Hj. unfold number_check, at_index. rewrite Hj. simpl.
      by rewrite Hthrows.
Qed.

Lemma number_check_accepts_ints_witness :
  begins_with_int "3abc" /\ begins_with_int " 42" /\
  ~ begins_with_int "abc" /\ ~ begins_with_int "" /\
  ~ begins_with_int "99999999999" /\
  number_check true ["7up"] 0 (ArgumentRequireNumber "n") = Ok tt /\
  number_check true ["seven"] 0 (ArgumentRequireNumber "n")
  = Abort (ArgumentRequireNumber "n" "seven").
Proof.
  split_and!.
  - apply (number_check_accepts_ints "3abc"). reflexivity.
  - apply (number_check_accepts_ints " 42"). reflexivity.
  - destruct (number_check_accepts_ints "abc") as [Hiff _].
    intros H. apply Hiff in H. vm_compute in H. discriminate H.
  - destruct (number_check_accepts_ints "") as [Hiff _].
    intros H. apply Hiff in H. vm_compute in H. discriminate H.
  - destruct (number_check_accepts_ints "99999999999") as [Hiff _].
    intros H. apply Hiff in H. vm_compute in H. discriminate H.
  - destruct (number_check_accepts_ints "7up") as (Hiff & Hyes & _).
    apply Hyes; [|reflexivity]. apply Hiff. reflexivity.
  - destruct (number_check_accepts_ints "seven") as (Hiff & _ & Hno).
    apply Hno; [|reflexivity]. intros H. apply Hiff in H.
    vm_compute in H. discriminate H.
Defined.

(** C10, as stated, fails: a token can begin with an integer and not be
    accepted, when the integer does not fit in an [int]. *)
Lemma number_rule_fails_out_of_range : ~ number_rule "99999999999".
Proof.
  intros [Haccepts _].
  assert (Hprefix : has_integer_prefix "99999999999").
  { exists "", "", "99999999999", "". split_and!; try done. auto. }
  apply Haccepts in Hprefix. vm_compute in Hprefix. discriminate Hprefix.
Qed.

(** The same token as the value of the option [--lines] of [main.cpp]. *)
Example out_of_range_value_is_fatal :
  Parse main_parser ["cat"; "notes.txt"; "-l"; "99999999999"]
  = Fatal (OptionRequireNumber "--lines" "99999999999").
Proof. vm_compute. reflexivity. Qed.

(** ** Registration, call after call *)

Section Registrations.

Lemma configure_snoc p rs r :
  configure p (rs ++ [r]) = (register (configure p rs) r).2.
Proof. unfold configure. by rewrite foldl_app. Qed.

Lemma name_already_exist_true (name : string) (arguments : list Argument.t) :
  name ∈ Argument.name <$> arguments ->
  name_already_exist name arguments = true.
Proof.
  unfold name_already_exist.
  intros (a & -> & Ha)%list_elem_of_fmap.
  apply existsb_exists. exists a. split; [by apply list_elem_of_In|].
  apply String.eqb_refl.
Qed.

(** A registration call keeps the declared arguments and appends at most
    one. *)
Lemma register_arguments p r :
  all_arguments_ (register p r).2 = all_arguments_ p \/
  exists a,
    all_arguments_ (register p r).2 = all_arguments_ p ++ [a] /\
    (register p r).1 = true /\
    argument_name_of r = Some (Argument.name a).
Proof.
  destruct r as [name note num | name note num | name vc short note num]; simpl.
  - unfold AddArgument. repeat case_match; simpl; eauto.
  - unfold AddArgumentPack. repeat case_match; simpl; eauto.
  - unfold AddOption. repeat (case_bool_decide || case_match); simpl; eauto.
Qed.

Lemma register_argument_true p r name :
  argument_name_of r = Some name -> (register p r).1 = true ->
  name ∈ Argument.name <$> all_arguments_ (register p r).2.
Proof.
  intros Hname Htrue.
  destruct r as [n note num | n note num | n vc short note num];
    simpl in *; [| |done]; injection Hname as ->.
  - revert Htrue. unfold AddArgument. repeat case_match; simpl; try done.
    intros _. rewrite fmap_app. apply elem_of_app. right. by apply list_elem_of_singleton.
  - revert Htrue. unfold AddArgumentPack. repeat case_match; simpl; try done.
    intros _. rewrite fmap_app. apply elem_of_app. right. by apply list_elem_of_singleton.
Qed.

Lemma configure_arguments_grow p rs name :
  name ∈ Argument.name <$> all_arguments_ p ->
  name ∈ Argument.name <$> all_arguments_ (configure p rs).
Proof.
  induction rs as [|r rs IH] using rev_ind; [done|].
  intros Hname. rewrite configure_snoc.
  destruct (register_arguments (configure p rs) r) as [-> | (a & -> & _)];
    [by apply IH|].
  rewrite fmap_app. apply elem_of_app. left. by apply IH.
Qed.

Lemma register_argument_again q r name :
  argument_name_of r = Some name ->
  name ∈ Argument.name <$> all_arguments_ q ->
  register q r = (false, q).
Proof.
  intros Hname Hin%name_already_exist_true.
  destruct r as [n note num | n note num | n vc short note num];
    simpl in *; [| |done]; injection Hname as ->.
  - unfold AddArgument. rewrite Hin. by repeat case_match.
  - unfold AddArgumentPack. rewrite Hin. by repeat case_match.
Qed.

End Registrations.

(** X1. A name that [AddArgument] or [AddArgumentPack] has registered
    cannot be registered a second time, by either function and whatever is
    registered in between: the later call returns [false] and leaves the
    object as it is. *)
Theorem argument_name_registers_once (p : Parser) (r r' : Registration)
    (rs : list Registration) (name : string) :
  argument_name_of r = Some name ->
  (register p r).1 = true ->
  argument_name_of r' = Some name ->
  register (configure (register p r).2 rs) r'
  = (false, configure (register p r).2 rs).
Proof.
  intros Hname Htrue Hname'.
  apply (register_argument_again _ _ name Hname').
  apply configure_arguments_grow.
  by apply register_argument_true.
Qed.

Lemma argument_name_registers_once_witness :
  register
    (configure (register (CommandLineParser "cat" "")
                  (RegisterArgument "file" "text file path" false)).2
       [RegisterOption "--lines" 1 "-l" "" true])
    (RegisterArgumentPack "file" "" false)
  = (false,
     configure (register (CommandLineParser "cat" "")
                  (RegisterArgument "file" "text file path" false)).2
       [RegisterOption "--lines" 1 "-l" "" true]).
Proof.
  apply (argument_name_registers_once _ _ _ _ "file"); reflexivity.
Defined.

Section Invariants.

Lemma pack_count_elem (l : list Argument.t) (a : Argument.t) :
  a ∈ l -> Argument.is_package a = true -> 1 <= pack_count l.
Proof.
  intros (l1 & l2 & ->)%list_elem_of_split Hpack.
  rewrite pack_count_app, pack_count_cons, Hpack. lia.
Qed.

End Invariants.

(** X2. There is at most one argument pack: in an object that holds a pack,
    [AddArgumentPack] returns [false] for every name and leaves the object
    as it is, the flag [have_argument_pack_] is set, and no other declared
    argument is a pack. *)
Theorem pack_is_unique (p : Parser) (a : Argument.t) :
  reachable p ->
  a ∈ all_arguments_ p -> Argument.is_package a = true ->
  have_argument_pack_ p = true /\
  (forall name note only_number,
     AddArgumentPack p name note only_number = (false, p)) /\
  (forall b, b ∈ all_arguments_ p -> Argument.is_package b = true -> b = a).
Proof.
  intros Hok%reachable_schema_ok Ha Hpack.
  pose proof (ok_pack p Hok) as Hcount.
  pose proof (pack_count_elem _ _ Ha Hpack) as Hone.
  assert (Hflag : have_argument_pack_ p = true).
  { destruct (have_argument_pack_ p); [done|lia]. }
  rewrite Hflag in Hcount.
  split_and!; [done| |].
  - intros name note num. unfold AddArgumentPack. by rewrite Hflag.
  - intros b Hb Hpackb.
    apply list_elem_of_split in Ha as (l1 & l2 & Hsplit).
    rewrite Hsplit, pack_count_app, pack_count_cons, Hpack in Hcount.
    rewrite Hsplit in Hb.
    apply elem_of_app in Hb as [Hb | [-> | Hb]%elem_of_cons]; [|done|].
    + rewrite (pack_count_0 l1 b) in Hpackb by (done || lia). done.
    + rewrite (pack_count_0 l2 b) in Hpackb by (done || lia). done.
Qed.

Lemma pack_is_unique_witness :
  have_argument_pack_ pack_parser = true /\
  AddArgumentPack pack_parser "more" "" false = (false, pack_parser).
Proof.
  destruct (pack_is_unique pack_parser (Argument.mk "items" "" false true)
              pack_parser_reachable) as (Hflag & Hagain & _).
  - apply elem_of_cons. right. apply elem_of_cons. by left.
  - reflexivity.
  - split; [exact Hflag|apply Hagain].
Defined.

Section Options.

(** [VerifyName] accepts the identifiers. *)
Lemma VerifyName_identifier (name : string) :
  VerifyName name = true <-> identifier name.
Proof.
  assert (Hsame : forall d,
            negb (negb (CLib.isalnum d) && negb (CLib.isalpha d)
                  && negb (Ascii.eqb d "_"%char))
            = CLib.isalnum d || Ascii.eqb d "_"%char).
  { intros d. unfold CLib.isalnum.
    by destruct (CLib.isalpha d), (CLib.isdigit d), (Ascii.eqb d "_"%char). }
  assert (Hall : forall l,
            forallb
              (fun d => negb (negb (CLib.isalnum d) && negb (CLib.isalpha d)
                              && negb (Ascii.eqb d "_"%char))) l
            = forallb (fun d => CLib.isalnum d || Ascii.eqb d "_"%char) l).
  { induction l as [|d l IH]; simpl; [done|]. by rewrite Hsame, IH. }
  unfold identifier, all_of. destruct name as [|c rest]; simpl.
  - split; [done|]. intros (c & rest & Heq & _). discriminate Heq.
  - destruct (CLib.isalpha c) eqn:Halpha; simpl.
    + rewrite Hall, andb_false_r. simpl. split.
      * intros Hrest. exists c, rest. by split_and!.
      * by intros (c' & rest' & [= <- <-] & _ & Hrest).
    + split; [done|]. intros (c' & rest' & [= <- <-] & Hc & _). congruence.
Qed.

Lemma AddOption_false p name value_count short_name note only_number p' :
  AddOption p name value_count short_name note only_number = (false, p') ->
  p' = p.
Proof.
  unfold AddOption. repeat (case_bool_decide || case_match); by intros [= <-].
Qed.

(** What [AddOption] has checked when it returns [true]. *)
Lemma AddOption_checks p name value_count short_name note only_number p' :
  AddOption p name value_count short_name note only_number = (true, p') ->
  long_syntax name /\ (short_name <> "" -> short_syntax short_name).
Proof.
  unfold AddOption, long_syntax, short_syntax.
  case_bool_decide as Hname; [done|].
  destruct (_ || _ || _ || _ || _) eqn:Hshape; [done|].
  repeat (apply orb_false_iff in Hshape as [Hshape ?]).
  assert (Hlong : (3 <= String.length name <= 32) /\
                  exists rest, name = "--" +:+ rest /\ identifier rest).
  { split.
    - apply Nat.ltb_ge in Hshape. apply Nat.ltb_ge in H2. lia.
    - exists (CLib.substr 2 name).
      split; [|by apply VerifyName_identifier, negb_false_iff].
      unfold char_differs in *.
      destruct name as [|c [|d name]]; simpl in *; try done.
      apply negb_false_iff, Ascii.eqb_eq in H1, H0. by subst. }
  destruct (String.eqb_spec short_name "") as [->|Hshort]; simpl.
  - intros _. split; [done|]. by intros [].
  - case_bool_decide as Halias; [done|].
    destruct (_ || _ || _ || _) eqn:Hshape'; [done|].
    repeat (apply orb_false_iff in Hshape' as [Hshape' ?]).
    intros _. split; [done|]. intros _. split.
    + apply Nat.ltb_ge in Hshape'. apply Nat.ltb_ge in H5. lia.
    + exists (CLib.substr 1 short_name).
      split; [|by apply VerifyName_identifier, negb_false_iff].
      unfold char_differs in *.
      destruct short_name as [|c s]; simpl in *; try done.
      apply negb_false_iff, Ascii.eqb_eq in H4. by subst.
Qed.

(** The entry that a successful [AddOption] stores. *)
Lemma AddOption_stores p name value_count short_name note only_number p' :
  AddOption p name value_count short_name note only_number = (true, p') ->
  all_options_ p' !! name
  = Some (Option.mk name short_name note value_count only_number
            (size_t_wrap (Z.of_nat (size (all_options_ p))))) /\
  (short_name <> "" ->
   short_name_to_name_of_option_ p' !! short_name = Some name).
Proof.
  intros (Hfresh & _ & _ & ->)%AddOption_true. simpl. split.
  - unfold store_option, subscript. rewrite Hfresh.
    rewrite lookup_insert_eq. do 3 f_equal.
    rewrite insert_insert_eq, map_size_insert_None by done. lia.
  - intros Hshort. destruct (String.eqb_spec short_name ""); [done|]. simpl.
    apply lookup_insert_eq.
Qed.

(** A registration call keeps the options and the short names that are
    registered. *)
Lemma register_keeps_options p r k o :
  all_options_ p !! k = Some o ->
  all_options_ (register p r).2 !! k = Some o.
Proof.
  intros Hk.
  destruct r as [name note num | name note num | name vc short note num]; simpl.
  - unfold AddArgument. by repeat case_match.
  - unfold AddArgumentPack. by repeat case_match.
  - destruct (AddOption p name vc short note num) as [[] p'] eqn:Hadd; simpl.
    + apply AddOption_true in Hadd as (Hfresh & _ & _ & ->). simpl.
      destruct (store_option_insert (all_options_ p) name vc short note num)
        as [index ->].
      rewrite lookup_insert_ne; [done|]. congruence.
    + by apply AddOption_false in Hadd as ->.
Qed.

Lemma register_keeps_short_names p r s k :
  short_name_to_name_of_option_ p !! s = Some k ->
  short_name_to_name_of_option_ (register p r).2 !! s = Some k.
Proof.
  intros Hs.
  destruct r as [name note num | name note num | name vc short note num]; simpl.
  - unfold AddArgument. by repeat case_match.
  - unfold AddArgumentPack. by repeat case_match.
  - destruct (AddOption p name vc short note num) as [[] p'] eqn:Hadd; simpl.
    + apply AddOption_true in Hadd as (_ & _ & Hshort & ->). simpl.
      destruct (String.eqb_spec short "") as [|Hne]; simpl; [done|].
      rewrite lookup_insert_ne; [done|].
      destruct (Hshort Hne) as [Hnone _]. congruence.
    + by apply AddOption_false in Hadd as ->.
Qed.

Lemma configure_keeps_options p rs k o :
  all_options_ p !! k = Some o -> all_options_ (configure p rs) !! k = Some o.
Proof.
  induction rs as [|r rs IH] using rev_ind; [done|].
  intros Hk. rewrite configure_snoc. by apply register_keeps_options, IH.
Qed.

Lemma configure_keeps_short_names p rs s k :
  short_name_to_name_of_option_ p !! s = Some k ->
  short_name_to_name_of_option_ (configure p rs) !! s = Some k.
Proof.
  induction rs as [|r rs IH] using rev_ind; [done|].
  intros Hs. rewrite configure_snoc. by apply register_keeps_short_names, IH.
Qed.

End Options.

(** X3. An option that [AddOption] has registered stays as registered,
    whatever is registered after it: the entry under its name keeps the
    fields given and the number of options registered before it as its
    index, and every later [AddOption] with the same name, or with the same
    short name, returns [false] and leaves the object as it is. *)
Theorem option_registers_once (p : Parser) (name : string) (value_count : nat)
    (short_name note : string) (only_number : bool) (p' : Parser)
    (rs : list Registration) :
  AddOption p name value_count short_name note only_number = (true, p') ->
  all_options_ (configure p' rs) !! name
  = Some (Option.mk name short_name note value_count only_number
            (size_t_wrap (Z.of_nat (size (all_options_ p))))) /\
  (forall value_count' short_name' note' only_number',
     AddOption (configure p' rs) name value_count' short_name' note'
       only_number'
     = (false, configure p' rs)) /\
  (short_name <> "" ->
   short_name_to_name_of_option_ (configure p' rs) !! short_name = Some name /\
   forall name' value_count' note' only_number',
     AddOption (configure p' rs) name' value_count' short_name note'
       only_number'
     = (false, configure p' rs)).
Proof.
  intros [Hstored Halias]%AddOption_stores.
  pose proof (configure_keeps_options p' rs _ _ Hstored) as Hkept.
  split_and!; [done| |].
  - intros vc' short' note' num'. unfold AddOption.
    rewrite Hkept. by rewrite bool_decide_true by eauto.
  - intros Hshort.
    pose proof (configure_keeps_short_names p' rs _ _ (Halias Hshort)) as Hs.
    split; [done|].
    intros name' vc' note' num'. unfold AddOption.
    rewrite Hs. destruct (String.eqb_spec short_name ""); [done|]. simpl.
    repeat (case_bool_decide || case_match); try done; exfalso; eauto.
Qed.

Lemma option_registers_once_witness :
  all_options_ main_parser !! "--lines"
  = Some (Option.mk "--lines" "-l" "line count to show" 1 true 0) /\
  AddOption main_parser "--count" 1 "-l" "" true = (false, main_parser).
Proof.
  destruct (option_registers_once
              (AddArgument (CommandLineParser "cat" "show text file context")
                 "file" "text file path" false).2
              "--lines" 1 "-l" "line count to show" true
              (AddOption
                 (AddArgument (CommandLineParser "cat" "show text file context")
                    "file" "text file path" false).2
                 "--lines" 1 "-l" "line count to show" true).2
              [RegisterOption "--back" 0 "-b" "from the back" false])
    as (Hstored & _ & Hshort).
  - vm_compute. reflexivity.
  - split; [exact Hstored|].
    destruct Hshort as [_ Hagain]; [discriminate|]. apply Hagain.
Defined.

Section ShortNames.

(** Every short name leads to an option that carries it. *)
Lemma reachable_alias_target (p : Parser) :
  reachable p ->
  forall s k, short_name_to_name_of_option_ p !! s = Some k ->
    exists o, all_options_ p !! k = Some o /\ Option.short_name o = s.
Proof.
  induction 1 as [| p r Hp IH | p argv result p' Hp IH Hparse].
  - intros s k Hs. simpl in Hs. by rewrite lookup_empty in Hs.
  - destruct r as [name note num | name note num | name vc short note num];
      simpl.
    + unfold AddArgument. by repeat case_match.
    + unfold AddArgumentPack. by repeat case_match.
    + destruct (AddOption p name vc short note num) as [[] p'] eqn:Hadd; simpl;
        [|by apply AddOption_false in Hadd as ->].
      pose proof (AddOption_stores _ _ _ _ _ _ _ Hadd) as [Hstored _].
      apply AddOption_true in Hadd as (Hfresh & _ & _ & Hp').
      intros s k Hs.
      assert (Hcases : (short <> "" /\ s = short /\ k = name) \/
                       short_name_to_name_of_option_ p !! s = Some k).
      { rewrite Hp' in Hs. simpl in Hs.
        destruct (String.eqb_spec short "") as [|Hne]; simpl in Hs;
          [by right|].
        destruct (decide (s = short)) as [->|Hs'].
        - rewrite lookup_insert_eq in Hs. left. split_and!; congruence.
        - rewrite lookup_insert_ne in Hs by done. by right. }
      destruct Hcases as [(_ & -> & ->) | Hold].
      * by eexists.
      * destruct (IH s k Hold) as (o & Ho & Hshort). exists o. split; [|done].
        rewrite Hp'. simpl.
        destruct (store_option_insert (all_options_ p) name vc short note num)
          as [index ->].
        rewrite lookup_insert_ne; [done|]. congruence.
  - apply Parse_Returned in Hparse
      as (path & args & co & cv1 & _ & _ & _ & _ & _ & _ & ->);
      [done|by apply reachable_schema_ok].
Qed.

End ShortNames.

(** X4. The map of short names mirrors the options: in every object that
    the interface builds, a short name leads to a long name exactly when the
    option registered under that long name carries this short name, and the
    short name is not empty. *)
Theorem short_names_mirror_options (p : Parser) :
  reachable p -> aliases_agree p.
Proof.
  intros Hp s k. split.
  - intros Hs. destruct (reachable_alias_target p Hp s k Hs) as (o & Ho & Hshort).
    exists o. split_and!; [done..|].
    destruct (ok_short p (reachable_schema_ok p Hp) s k Hs) as [Hshape _].
    by intros ->.
  - intros (o & Ho & <- & Hne).
    by apply (ok_alias p (reachable_schema_ok p Hp)).
Qed.

Lemma short_names_mirror_options_witness :
  short_name_to_name_of_option_ main_parser !! "-l" = Some "--lines".
Proof.
  apply (short_names_mirror_options main_parser main_parser_reachable).
  exists (Option.mk "--lines" "-l" "line count to show" 1 true 0).
  split_and!; [reflexivity|reflexivity|discriminate].
Defined.

Section Syntax.

Lemma argument_checks (name : string) :
  String.eqb name "" || Nat.ltb 32 (String.length name)
  || negb (VerifyName name) = false ->
  argument_syntax name.
Proof.
  intros Hshape.
  repeat (apply orb_false_iff in Hshape as [Hshape ?]).
  split.
  - apply Nat.ltb_ge in H0. lia.
  - by apply VerifyName_identifier, negb_false_iff.
Qed.

Lemma argument_syntax_snoc (l : list Argument.t) (b : Argument.t) :
  (forall a, a ∈ l -> argument_syntax (Argument.name a)) ->
  argument_syntax (Argument.name b) ->
  forall a, a ∈ l ++ [b] -> argument_syntax (Argument.name a).
Proof.
  intros Hl Hb a [Ha | ->%list_elem_of_singleton]%elem_of_app; auto.
Qed.

End Syntax.

(** X5. Every name in an object that the interface builds has the syntax
    that its registration function checks: an argument name has at most 32
    characters, starts with a letter and goes on with letters, digits and
    underscores; a long option name is such a name after "--", of 3 to 32
    characters in all; a short name is such a name after "-", of 2 to 16
    characters in all. *)
Theorem registered_names_are_well_formed (p : Parser) :
  reachable p -> registered_names_ok p.
Proof.
  induction 1 as [| p r Hp IH | p argv result p' Hp IH Hparse].
  - split_and!.
    + intros a Ha. by apply elem_of_nil in Ha.
    + intros k o Hk. simpl in Hk. by rewrite lookup_empty in Hk.
    + intros s k Hs. simpl in Hs. by rewrite lookup_empty in Hs.
  - destruct IH as (Hargs & Hlong & Hshort).
    destruct r as [name note num | name note num | name vc short note num];
      simpl.
    + unfold AddArgument.
      destruct (_ || _ || _) eqn:Hshape; [done|].
      destruct (name_already_exist _ _); [done|].
      split_and!; simpl; [|done..].
      by apply argument_syntax_snoc, argument_checks.
    + unfold AddArgumentPack.
      destruct (have_argument_pack_ p); [done|].
      destruct (_ || _ || _) eqn:Hshape; [done|].
      destruct (name_already_exist _ _); [done|].
      split_and!; simpl; [|done..].
      by apply argument_syntax_snoc, argument_checks.
    + destruct (AddOption p name vc short note num) as [[] p'] eqn:Hadd; simpl;
        [|by apply AddOption_false in Hadd as ->].
      pose proof (AddOption_checks _ _ _ _ _ _ _ Hadd) as [Hname Hs].
      apply AddOption_true in Hadd as (_ & _ & _ & ->).
      split_and!; simpl; [done| |].
      * intros k o.
        destruct (store_option_insert (all_options_ p) name vc short note num)
          as [index ->].
        destruct (decide (k = name)) as [->|Hk]; [done|].
        rewrite lookup_insert_ne by done. apply Hlong.
      * intros s k.
        destruct (String.eqb_spec short "") as [|Hne]; simpl; [apply Hshort|].
        destruct (decide (s = short)) as [->|Hs']; [auto|].
        rewrite lookup_insert_ne by done. apply Hshort.
  - apply Parse_Returned in Hparse
      as (path & args & co & cv1 & _ & _ & _ & _ & _ & _ & ->);
      [done|by apply reachable_schema_ok].
Qed.

Lemma registered_names_are_well_formed_witness :
  long_syntax "--lines" /\ short_syntax "-l".
Proof.
  destruct (registered_names_are_well_formed main_parser main_parser_reachable)
    as (_ & Hlong & Hshort).
  split.
  - apply (Hlong "--lines"
             (Option.mk "--lines" "-l" "line count to show" 1 true 0)).
    reflexivity.
  - apply (Hshort "-l" "--lines"). reflexivity.
Defined.

(** ** The scan and the values of options *)

Section Occurrences.

(** The loop over [j] runs to its end exactly when the values are there,
    and are numbers if they must be; it reads no token that is not there. *)
Lemma read_option_values_cases option_name only_number option_value_count :
  forall remaining rest cur_options,
    remaining <= option_value_count ->
    match
      read_option_values option_name only_number option_value_count remaining
        rest cur_options
    with
    | Ok _ =>
        remaining <= length rest /\
        (only_number = true -> Forall numeric (take remaining rest))
    | Abort d =>
        ~ (remaining <= length rest /\
           (only_number = true -> Forall numeric (take remaining rest))) /\
        ((exists value,
            d = OptionRequireNumber option_name value /\ only_number = true /\
            value ∈ rest /\ CLib.stoi_throws value = true) \/
         (exists count,
            d = OptionValueCount option_name option_value_count count /\
            count < option_value_count))
    | OutOfRange => False
    end.
Proof.
  induction remaining as [|remaining IH]; intros rest co Hle; simpl.
  - split; [lia|]. intros _. constructor.
  - destruct rest as [|value rest]; simpl.
    + split; [intros [Hlen _]; lia|]. right. eexists. split; [done|]. lia.
    + destruct (only_number && CLib.stoi_throws value) eqn:Hcheck.
      * apply andb_true_iff in Hcheck as [-> Hthrows]. split.
        -- intros [_ Hall]. specialize (Hall eq_refl).
           apply Forall_cons in Hall as [Hvalue _].
           unfold numeric in Hvalue. congruence.
        -- left. exists value. split_and!; try done. by left.
      * specialize (IH rest
          (<[option_name := (co !!! option_name) ++ [value]]> co)).
        destruct (read_option_values _ _ _ remaining rest _) as [co'|d|].
        -- destruct IH as [Hlen Hall]; [lia|]. split; [lia|].
           intros ->. simpl in Hcheck. constructor; [done|]. by apply Hall.
        -- destruct IH as [Hnot Hd]; [lia|]. split.
           ++ intros [Hlen Hall]. apply Hnot. split; [lia|].
              intros Hnum. by apply Forall_cons in Hall as [_ Hall].
           ++ destruct Hd as [(v & -> & Hnum & Hv & Hthrows)|Hd]; [|by right].
              left. exists v. split_and!; try done. by right.
        -- apply IH. lia.
Qed.

Variable p : Parser.
Hypothesis Hok : schema_ok p.

(** The first loop of [Parse] runs to its end exactly when every occurrence
    of an option is complete; it indexes no vector out of its range. *)
Lemma scan_arguments_cases :
  forall args cur_arguments cur_options,
    match
      scan_arguments (short_name_to_name_of_option_ p) args (all_options_ p)
        cur_arguments cur_options
    with
    | Ok _ => Forall (complete p) (events_of p args)
    | Abort d =>
        ~ Forall (complete p) (events_of p args) /\ option_diagnostic p args d
    | OutOfRange => False
    end.
Proof.
  unfold events_of. intros args.
  remember (length args) as n eqn:Hn. revert args Hn.
  induction n as [n IH] using lt_wf_ind.
  intros args Hn ca co.
  destruct args as [|str rest].
  - simp scan_arguments scan_events. constructor.
  - simp scan_arguments scan_events.
    pose proof (option_name_of_start p Hok str) as Hstart.
    destruct (option_start _ _ str) as [o|]; simpl.
    + destruct Hstart as (-> & Hne & Hlookup).
      destruct (String.eqb_spec (Option.name o) "") as [|_]; [done|].
      rewrite (subscript_present (all_options_ p)) by eauto.
      rewrite (lookup_total_alt (all_options_ p)), Hlookup. simpl.
      pose proof (read_option_values_cases (Option.name o)
                    (Option.only_number o) (Option.value_count o)
                    (Option.value_count o) rest
                    (subscript co (Option.name o)) (le_n _)) as Hread.
      destruct (read_option_values _ _ _ _ _ _) as [co2|d|]; [| |done].
      * destruct Hread as [Hlen Hall].
        assert (Hhere : complete p
                  (OptionStart (Option.name o)
                     (take (Option.value_count o) rest))).
        { exists o. split_and!; [done| |done]. rewrite length_take. lia. }
        specialize (IH (length (drop (Option.value_count o) rest)))
          as IHrest.
        specialize (IHrest ltac:(rewrite length_drop, Hn; simpl; lia)
                      (drop (Option.value_count o) rest) eq_refl ca co2).
        destruct (scan_arguments _ _ _ _ _) as [r|d|]; [| |done].
        -- by constructor.
        -- destruct IHrest as [Hnot (name & o' & Ho' & Hd)]. split.
           ++ by intros [_ ?]%Forall_cons.
           ++ exists name, o'. split; [done|].
              destruct Hd as [(v & -> & Hnum & Hv & Hthrows)|Hd]; [|by right].
              left. exists v. split_and!; try done.
              apply elem_of_cons. right. by eapply subseteq_drop.
      * destruct Hread as [Hnot Hd]. split.
        -- intros [(o' & Ho' & Hlen & Hall) _]%Forall_cons. apply Hnot.
           rewrite Hlookup in Ho'. injection Ho' as <-.
           rewrite length_take in Hlen. split; [lia|done].
        -- exists (Option.name o), o. split; [done|].
           destruct Hd as [(v & -> & Hnum & Hv & Hthrows)|Hd]; [|by right].
           left. exists v. split_and!; try done. by apply elem_of_cons; right.
    + rewrite Hstart. simpl.
      specialize (IH (length rest) ltac:(rewrite Hn; simpl; lia) rest eq_refl
                    (ca ++ [str]) co).
      destruct (scan_arguments _ _ _ _ _) as [r|d|]; [| |done].
      * by constructor.
      * destruct IH as [Hnot (name & o' & Ho' & Hd)]. split.
        -- by intros [_ ?]%Forall_cons.
        -- exists name, o'. split; [done|].
           destruct Hd as [(v & -> & Hnum & Hv & Hthrows)|Hd]; [|by right].
           left. exists v. split_and!; try done. by apply elem_of_cons; right.
Qed.

(** A lone [--help] or [--usage] that is no option is a positional token. *)
Lemma lone_builtin_events (path : string) (args : list string) (name : string) :
  long_shape name = true ->
  lone_builtin (enter p path) args name = true ->
  events_of p args = [Positional name].
Proof.
  intros Hlong. unfold lone_builtin. simpl.
  intros [[Hlen Hnone%negb_true_iff]%andb_true_iff Harg]%andb_true_iff.
  apply bool_decide_eq_true in Harg. apply bool_decide_eq_false in Hnone.
  destruct args as [|token [|? ?]]; try done. simpl in Harg.
  injection Harg as ->.
  unfold events_of. simp scan_events. unfold option_start.
  destruct (all_options_ p !! name) as [o|] eqn:Ho; [exfalso; eauto|].
  destruct (short_name_to_name_of_option_ p !! name) as [k|] eqn:Hk; simpl.
  - destruct (ok_short p Hok name k Hk) as [Hshort _].
    destruct (shapes_differ _ Hlong Hshort).
  - by simp scan_events.
Qed.

(** What [Parse] does when some occurrence of an option is not complete,
    and when all are. *)
Lemma Parse_scan (path : string) (args : list string) :
  (~ Forall (complete p) (events_of p args) ->
   exists d, Parse p (path :: args) = Fatal d /\ option_diagnostic p args d) /\
  (forall result p',
     Parse p (path :: args) = Returned result p' ->
     Forall (complete p) (events_of p args)).
Proof.
  unfold Parse.
  destruct (lone_builtin _ _ "--help") eqn:Hhelp.
  { apply lone_builtin_events in Hhelp; [|done]. rewrite Hhelp.
    split; [|done]. intros []. by repeat constructor. }
  destruct (lone_builtin _ _ "--usage") eqn:Husage.
  { apply lone_builtin_events in Husage; [|done]. rewrite Husage.
    split; [|done]. intros []. by repeat constructor. }
  unfold scanned. simpl.
  pose proof (scan_arguments_cases args [] ∅) as Hscan.
  destruct (scan_arguments _ _ _ _ _) as [[[ao ca] co]|d|]; [| |done].
  - split; [done|]. by intros _ _ _.
  - destruct Hscan as [Hnot Hd]. split; [eauto|done].
Qed.

End Occurrences.

(** X6. [Parse] stops with a diagnostic when an occurrence of an option
    lacks values, or has a value that is no number where the option takes
    numbers only: the diagnostic names an option of the schema, and either
    a token of the command line on which [std::stoi] throws, or a count of
    values read that is less than the option takes. *)
Theorem incomplete_option_is_fatal (p : Parser) (path : string)
    (args : list string) :
  reachable p ->
  ~ Forall (complete p) (events_of p args) ->
  exists d, Parse p (path :: args) = Fatal d /\ option_diagnostic p args d.
Proof.
  intros Hok%reachable_schema_ok. apply (Parse_scan p Hok path args).
Qed.

Lemma incomplete_option_is_fatal_witness :
  exists d, Parse main_parser ["cat"; "notes.txt"; "--lines"] = Fatal d.
Proof.
  destruct (incomplete_option_is_fatal main_parser "cat"
              ["notes.txt"; "--lines"] main_parser_reachable) as (d & Hd & _).
  - assert (Hevents : events_of main_parser ["notes.txt"; "--lines"]
                      = [Positional "notes.txt"; OptionStart "--lines" []])
      by (vm_compute; reflexivity).
    assert (Ho : all_options_ main_parser !! "--lines"
                 = Some (Option.mk "--lines" "-l" "line count to show" 1 true 0))
      by (vm_compute; reflexivity).
    rewrite Hevents.
    intros [_ [(o & Ho' & Hlen & _) _]%Forall_cons]%Forall_cons.
    rewrite Ho in Ho'. injection Ho' as <-. discriminate Hlen.
  - by exists d.
Defined.

Section OptionValues.

Lemma captured_complete (p : Parser) (name : string) (o : Option.t)
    (events : list Event) :
  all_options_ p !! name = Some o ->
  Forall (complete p) events ->
  Forall
    (fun values =>
       length values = Option.value_count o /\
       (Option.only_number o = true -> Forall numeric values))
    (captured name events).
Proof.
  intros Ho. induction 1 as [|e events He _ IH]; simpl; [constructor|].
  destruct e as [token|name' values]; [done|].
  case_decide as Hname; [|done]. subst name'.
  destruct He as (o' & Ho' & Hlen & Hall).
  rewrite Ho in Ho'. injection Ho' as <-. by constructor.
Qed.

Lemma length_concat_uniform {A : Type} (n : nat) (ls : list (list A)) :
  Forall (fun l => length l = n) ls -> length (concat ls) = n * length ls.
Proof.
  induction 1 as [|l ls Hl _ IH]; simpl; [lia|].
  rewrite length_app, IH, Hl. lia.
Qed.

Lemma elem_of_concat {A : Type} (x : A) (ls : list (list A)) :
  x ∈ concat ls -> exists l, l ∈ ls /\ x ∈ l.
Proof.
  induction ls as [|l ls IH]; simpl; [by intros ?%elem_of_nil|].
  intros [Hl | (l' & Hl' & Hx)%IH]%elem_of_app.
  - exists l. split; [by left|done].
  - exists l'. split; [by right|done].
Qed.

Lemma numeric_stoi (value : string) :
  numeric value -> exists n, CLib.stoi value = CLib.StoiValue n.
Proof.
  unfold numeric, CLib.stoi_throws. destruct (CLib.stoi value); eauto; done.
Qed.

End OptionValues.

(** X7. After a [Parse] that returned, the multiple value of an option that
    was matched holds as many values as the option takes, for each of its
    occurrences; if the option takes numbers only, [ToInt] on each of its
    sub values returns. *)
Theorem option_values_are_whole (p : Parser) (path : string)
    (args : list string) (p' : Parser) (name : string) (o : Option.t) :
  reachable p ->
  Parse p (path :: args) = Returned true p' ->
  all_options_ p !! name = Some o ->
  matched p args name ->
  Value_size (operator_index p' name)
  = Option.value_count o * length (captured name (events_of p args)) /\
  (Option.only_number o = true ->
   forall i,
     i < Value_size (operator_index p' name) ->
     exists n,
       Value_ToInt (Value_at (operator_index p' name) i) = CLib.StoiValue n).
Proof.
  intros Hok%reachable_schema_ok Hparse Ho Hmatched.
  pose proof (bound_matched p Hok _ _ _ Hparse path args name o eq_refl Ho
                Hmatched name (or_introl eq_refl)) as Hbound.
  rewrite (operator_index_Some p' name _ Hbound).
  destruct (Parse_scan p Hok path args) as [_ Hcomplete].
  specialize (Hcomplete true p' Hparse).
  pose proof (captured_complete p name o _ Ho Hcomplete) as Hwindows.
  unfold Value_size, Value_at, Value_ToInt. simpl. split.
  - apply length_concat_uniform.
    eapply Forall_impl; [exact Hwindows|]. by intros values [Hlen _].
  - intros Hnum i Hi.
    destruct (lookup_lt_is_Some_2 _ _ Hi) as [value Hvalue].
    rewrite Hvalue. simpl. apply numeric_stoi.
    apply list_elem_of_lookup_2, elem_of_concat in Hvalue
      as (values & Hvalues & Hin).
    rewrite Forall_forall in Hwindows.
    destruct (Hwindows values Hvalues) as [_ Hall].
    rewrite Forall_forall in Hall. by apply Hall.
Qed.

Lemma option_values_are_whole_witness :
  exists p',
    Parse main_parser ["cat"; "notes.txt"; "-l"; "3"; "--lines"; "4"]
    = Returned true p' /\
    Value_size (operator_index p' "--lines") = 2 /\
    exists n, Value_ToInt (Value_at (operator_index p' "--lines") 1)
              = CLib.StoiValue n.
Proof.
  assert (Hparse : exists p',
            Parse main_parser ["cat"; "notes.txt"; "-l"; "3"; "--lines"; "4"]
            = Returned true p')
    by (vm_compute; eexists; reflexivity).
  destruct Hparse as [p' Hparse]. exists p'. split; [exact Hparse|].
  assert (Hm : matched main_parser ["notes.txt"; "-l"; "3"; "--lines"; "4"]
                 "--lines")
    by (unfold matched; vm_compute; discriminate).
  assert (Ho : all_options_ main_parser !! "--lines"
               = Some (Option.mk "--lines" "-l" "line count to show" 1 true 0))
    by (vm_compute; reflexivity).
  assert (Hcount : length (captured "--lines"
                     (events_of main_parser
                        ["notes.txt"; "-l"; "3"; "--lines"; "4"])) = 2)
    by (vm_compute; reflexivity).
  destruct (option_values_are_whole main_parser "cat"
              ["notes.txt"; "-l"; "3"; "--lines"; "4"] p' "--lines" _
              main_parser_reachable Hparse Ho Hm) as [Hsize Hints].
  rewrite Hcount in Hsize. simpl in Hsize.
  split; [exact Hsize|]. apply Hints; [reflexivity|]. rewrite Hsize. lia.
Defined.

(** X8. After a [Parse] that returned, the conversions of the multiple
    value of a matched option read its first sub value: for an option that
    takes values, [ToString] and [ToInt] give what they give on the sub
    value at index 0, and [ToInt] returns if the option takes numbers only;
    for an option that takes no value, [ToString] gives the empty string
    and [ToInt] throws [std::invalid_argument]. *)
Theorem option_conversions_read_first_value (p : Parser) (path : string)
    (args : list string) (p' : Parser) (name : string) (o : Option.t) :
  reachable p ->
  Parse p (path :: args) = Returned true p' ->
  all_options_ p !! name = Some o ->
  matched p args name ->
  (0 < Option.value_count o ->
   Value_ToString (operator_index p' name)
   = Value_ToString (Value_at (operator_index p' name) 0) /\
   Value_ToInt (operator_index p' name)
   = Value_ToInt (Value_at (operator_index p' name) 0) /\
   (Option.only_number o = true ->
    exists n, Value_ToInt (operator_index p' name) = CLib.StoiValue n)) /\
  (Option.value_count o = 0 ->
   Value_ToString (operator_index p' name) = "" /\
   Value_ToInt (operator_index p' name) = CLib.StoiInvalidArgument).
Proof.
  intros Hreach Hparse Ho Hmatched.
  apply reachable_schema_ok in Hreach as Hok.
  pose proof (bound_matched p Hok _ _ _ Hparse path args name o eq_refl Ho
                Hmatched name (or_introl eq_refl)) as Hbound.
  rewrite (operator_index_Some p' name _ Hbound).
  destruct (Parse_scan p Hok path args) as [_ Hcomplete].
  specialize (Hcomplete true p' Hparse).
  pose proof (captured_complete p name o _ Ho Hcomplete) as Hwindows.
  unfold matched in Hmatched.
  destruct (captured name (events_of p args)) as [|values windows];
    [done|].
  apply Forall_cons in Hwindows as [[Hlen Hall] Hrest].
  unfold Value_ToString, Value_ToInt, Value_at. simpl. split.
  - intros Hcount. destruct values as [|value values]; simpl in *; [lia|].
    split_and!; [done..|].
    intros Hnum. apply numeric_stoi.
    specialize (Hall Hnum). by apply Forall_cons in Hall as [? _].
  - intros Hcount. rewrite Hcount in Hlen, Hrest.
    destruct values; [|done]. simpl.
    rewrite (concat_of_empty windows); [done|].
    eapply Forall_impl; [exact Hrest|]. intros values [-> _]. done.
Qed.

Lemma option_conversions_read_first_value_witness :
  exists p',
    Parse main_parser ["cat"; "notes.txt"; "-b"; "-l"; "3"] = Returned true p' /\
    Value_ToInt (operator_index p' "--back") = CLib.StoiInvalidArgument /\
    exists n, Value_ToInt (operator_index p' "--lines") = CLib.StoiValue n.
Proof.
  assert (Hparse : exists p',
            Parse main_parser ["cat"; "notes.txt"; "-b"; "-l"; "3"]
            = Returned true p')
    by (vm_compute; eexists; reflexivity).
  destruct Hparse as [p' Hparse]. exists p'. split; [exact Hparse|].
  assert (Hback : matched main_parser ["notes.txt"; "-b"; "-l"; "3"] "--back")
    by (unfold matched; vm_compute; discriminate).
  assert (Hlines : matched main_parser ["notes.txt"; "-b"; "-l"; "3"] "--lines")
    by (unfold matched; vm_compute; discriminate).
  assert (Hb : all_options_ main_parser !! "--back"
               = Some (Option.mk "--back" "-b" "from the back" 0 false 1))
    by (vm_compute; reflexivity).
  assert (Hl : all_options_ main_parser !! "--lines"
               = Some (Option.mk "--lines" "-l" "line count to show" 1 true 0))
    by (vm_compute; reflexivity).
  split.
  - destruct (option_conversions_read_first_value main_parser "cat"
                ["notes.txt"; "-b"; "-l"; "3"] p' "--back" _
                main_parser_reachable Hparse Hb Hback) as [_ Hflag].
    apply Hflag. reflexivity.
  - destruct (option_conversions_read_first_value main_parser "cat"
                ["notes.txt"; "-b"; "-l"; "3"] p' "--lines" _
                main_parser_reachable Hparse Hl Hlines) as [Hvalue _].
    destruct Hvalue as (_ & _ & Hint); [simpl; lia|]. apply Hint. reflexivity.
Defined.

(** ** The checks on the positional arguments *)

Section Checks.

Lemma number_check_cases only_number cur_arguments j diagnostic :
  match number_check only_number cur_arguments j diagnostic with
  | Ok _ =>
      only_number = true -> exists v, cur_arguments !! j = Some v /\ numeric v
  | Abort d =>
      exists v,
        only_number = true /\ cur_arguments !! j = Some v /\
        CLib.stoi_throws v = true /\ d = diagnostic v
  | OutOfRange => only_number = true /\ length cur_arguments <= j
  end.
Proof.
  unfold number_check, at_index. destruct only_number; simpl; [|done].
  destruct (cur_arguments !! j) as [v|] eqn:Hj; simpl.
  - destruct (CLib.stoi_throws v) eqn:Hv; eauto 10.
  - split; [done|]. by apply lookup_ge_None.
Qed.

(** The loop of the check when there is no pack. *)
Lemma check_without_pack_cases cur_arguments :
  forall arguments i,
    i + length arguments <= length cur_arguments ->
    match check_without_pack arguments i cur_arguments with
    | Ok _ =>
        forall m a,
          arguments !! m = Some a -> Argument.only_number a = true ->
          exists v, cur_arguments !! (i + m) = Some v /\ numeric v
    | Abort d =>
        exists m a v,
          arguments !! m = Some a /\ Argument.only_number a = true /\
          cur_arguments !! (i + m) = Some v /\ CLib.stoi_throws v = true /\
          d = ArgumentRequireNumber (Argument.name a) v
    | OutOfRange => False
    end.
Proof.
  induction arguments as [|a arguments IH]; intros i Hlen; simpl.
  - by intros [|m] a.
  - simpl in Hlen.
    pose proof (number_check_cases (Argument.only_number a) cur_arguments i
                  (ArgumentRequireNumber (Argument.name a))) as Hhere.
    destruct (number_check _ _ _ _) as [[]|d|]; simpl.
    + specialize (IH (S i) ltac:(lia)).
      destruct (check_without_pack arguments (S i) cur_arguments)
        as [[]|d|]; [| |done].
      * intros [|m] b; simpl.
        -- intros [= <-]. by rewrite Nat.add_0_r.
        -- rewrite <- Nat.add_succ_comm. apply IH.
      * destruct IH as (m & b & v & IH). exists (S m), b, v.
        by rewrite <- Nat.add_succ_comm.
    + destruct Hhere as (v & ? & ? & ? & ->). exists 0, a, v.
      by rewrite Nat.add_0_r.
    + lia.
Qed.

(** The loop over [k] of the check. *)
Lemma check_pack_values_cases argument cur_arguments :
  forall remaining j,
    j + remaining <= length cur_arguments ->
    match check_pack_values argument remaining j cur_arguments with
    | Ok j' =>
        j' = j + remaining /\
        (Argument.only_number argument = true ->
         Forall numeric (take remaining (drop j cur_arguments)))
    | Abort d => True
    | OutOfRange => False
    end.
Proof.
  induction remaining as [|remaining IH]; intros j Hlen; simpl.
  - split; [lia|]. intros _. constructor.
  - pose proof (number_check_cases (Argument.only_number argument)
                  cur_arguments j
                  (PackRequireNumber (Argument.name argument))) as Hhere.
    destruct (number_check _ _ _ _) as [[]|d|]; simpl; [|done|lia].
    specialize (IH (S j) ltac:(lia)).
    destruct (check_pack_values argument remaining (S j) cur_arguments)
      as [j'|d|]; [|done|done].
    destruct IH as [-> Hrest]. split; [lia|].
    intros Hnum. destruct (Hhere Hnum) as (v & Hv & Hnumeric).
    rewrite (drop_lookup_cons _ _ _ Hv). simpl. constructor; [done|].
    by apply Hrest.
Qed.

(** After the pack, the check reads a token only for an argument that
    takes numbers only. *)
Lemma check_with_pack_after cur_arguments pack_value_count :
  forall arguments j,
    pack_count arguments = 0 ->
    match check_with_pack arguments j pack_value_count cur_arguments with
    | OutOfRange =>
        exists a, a ∈ arguments /\ Argument.only_number a = true
    | _ => True
    end.
Proof.
  induction arguments as [|a arguments IH]; intros j Hcount; simpl; [done|].
  rewrite pack_count_cons in Hcount.
  destruct (Argument.is_package a); [lia|].
  pose proof (number_check_cases (Argument.only_number a) cur_arguments j
                (ArgumentRequireNumber (Argument.name a))) as Hhere.
  destruct (number_check _ _ _ _) as [[]|d|]; simpl; [|done|].
  - specialize (IH (S j) ltac:(lia)).
    destruct (check_with_pack arguments (S j) _ _) as [[]|d|]; try done.
    destruct IH as (b & Hb & Hnum). exists b. split; [by right|done].
  - exists a. split; [by left|]. by destruct Hhere.
Qed.

(** The loop of the check when there is a pack: up to the pack, and the
    pack included, it reads the tokens that the binding takes. *)
Lemma check_with_pack_cases cur_arguments pack_value_count pack after :
  Argument.is_package pack = true -> pack_count after = 0 ->
  forall before j,
    pack_count before = 0 ->
    j + length before + Z.to_nat pack_value_count <= length cur_arguments ->
    match
      check_with_pack (before ++ pack :: after) j pack_value_count
        cur_arguments
    with
    | Ok _ =>
        (0 < pack_value_count)%Z /\
        (forall m a,
           before !! m = Some a -> Argument.only_number a = true ->
           exists v, cur_arguments !! (j + m) = Some v /\ numeric v) /\
        (Argument.only_number pack = true ->
         Forall numeric
           (take (Z.to_nat pack_value_count)
              (drop (j + length before) cur_arguments)))
    | Abort _ => True
    | OutOfRange => exists a, a ∈ after /\ Argument.only_number a = true
    end.
Proof.
  intros Hpack Hafter.
  induction before as [|a before IH]; intros j Hbefore Hlen; simpl.
  - rewrite Hpack. destruct (Z.leb_spec pack_value_count 0) as [|Hpos]; [done|].
    simpl in Hlen.
    pose proof (check_pack_values_cases pack cur_arguments
                  (Z.to_nat pack_value_count) j ltac:(lia)) as Hvalues.
    destruct (check_pack_values _ _ _ _) as [j'|d|]; simpl; [|done|done].
    destruct Hvalues as [-> Hall].
    pose proof (check_with_pack_after cur_arguments pack_value_count after
                  (S (j + Z.to_nat pack_value_count)) Hafter) as Hrest.
    destruct (check_with_pack after _ _ _) as [[]|d|]; [|done|done].
    split_and!; [done| |by rewrite Nat.add_0_r].
    by intros [|m] a.
  - rewrite pack_count_cons in Hbefore. simpl in Hlen.
    destruct (Argument.is_package a); [lia|].
    pose proof (number_check_cases (Argument.only_number a) cur_arguments j
                  (ArgumentRequireNumber (Argument.name a))) as Hhere.
    destruct (number_check _ _ _ _) as [[]|d|]; simpl; [|done|lia].
    specialize (IH (S j) ltac:(lia) ltac:(lia)).
    destruct (check_with_pack (before ++ pack :: after) (S j) _ _)
      as [[]|d|]; [|done|done].
    destruct IH as (Hpos & Hplain & Hall). split_and!; [done| |].
    + intros [|m] b; simpl.
      * intros [= <-]. by rewrite Nat.add_0_r.
      * rewrite <- Nat.add_succ_comm. apply Hplain.
    + by rewrite <- Nat.add_succ_comm.
Qed.

Lemma after_pack_split before pack after :
  pack_count before = 0 -> Argument.is_package pack = true ->
  after_pack (before ++ pack :: after) = after.
Proof.
  intros Hbefore Hpack. induction before as [|a before IH]; simpl.
  - by rewrite Hpack.
  - rewrite pack_count_cons in Hbefore.
    destruct (Argument.is_package a); [lia|]. apply IH. lia.
Qed.

Lemma pack_count_split arguments :
  1 <= pack_count arguments ->
  exists before pack after,
    arguments = before ++ pack :: after /\
    pack_count before = 0 /\ Argument.is_package pack = true.
Proof.
  induction arguments as [|a arguments IH].
  - unfold pack_count. simpl. lia.
  - rewrite pack_count_cons. destruct (Argument.is_package a) eqn:Hpack.
    + intros _. by exists [], a, arguments.
    + intros (before & pack & after & -> & Hbefore & Hpack')%IH.
      exists (a :: before), pack, after. split_and!; [done| |done].
      rewrite pack_count_cons, Hpack. lia.
Qed.

Lemma pack_count_existsb arguments :
  existsb Argument.is_package arguments = false -> pack_count arguments = 0.
Proof.
  induction arguments as [|a arguments IH]; [done|].
  rewrite pack_count_cons. simpl. intros [-> ->%IH]%orb_false_iff. done.
Qed.

(** The binding without a pack runs to its end when there are no more
    tokens than arguments. *)
Lemma bind_without_pack_succeeds all_arguments :
  forall values i cur_values,
    i + length values <= length all_arguments ->
    exists cur_values',
      bind_without_pack values i all_arguments cur_values = Ok cur_values'.
Proof.
  induction values as [|value values IH]; intros i cv Hlen; simpl; [eauto|].
  simpl in Hlen. unfold at_index.
  destruct (all_arguments !! i) as [a|] eqn:Hi; simpl.
  - apply IH. lia.
  - apply lookup_ge_None in Hi. lia.
Qed.

Lemma positional_tokens_length (p : Parser) (args : list string) :
  length (positional_tokens (events_of p args)) <= length args.
Proof.
  unfold events_of.
  remember (length args) as n eqn:Hn. revert args Hn.
  induction n as [n IH] using lt_wf_ind. intros args Hn.
  destruct args as [|str rest]; simp scan_events; [simpl; lia|].
  destruct (option_start _ _ str) as [o|]; simpl.
  - specialize (IH (length (drop (Option.value_count o) rest))
                  ltac:(rewrite length_drop, Hn; simpl; lia) _ eq_refl).
    rewrite length_drop in IH. unfold positional_tokens in *.
    simpl in Hn. lia.
  - specialize (IH (length rest) ltac:(rewrite Hn; simpl; lia) _ eq_refl).
    unfold positional_tokens in *. simpl in Hn. lia.
Qed.

Variable p : Parser.
Hypothesis Hok : schema_ok p.

(** What the check has found when it passes, and that it reads no token
    that is not there unless an argument declared after the pack takes
    numbers only. *)
Lemma check_arguments_cases cur_arguments :
  vector_sizes (all_arguments_ p) cur_arguments ->
  match
    check_arguments (have_argument_pack_ p) (all_arguments_ p) cur_arguments
  with
  | Ok _ =>
      forall i a,
        all_arguments_ p !! i = Some a -> Argument.only_number a = true ->
        pack_count (take i (all_arguments_ p)) = 0 ->
        if Argument.is_package a
        then Forall numeric
               (take (length cur_arguments + 1 - length (all_arguments_ p))
                  (drop i cur_arguments))
        else exists v, cur_arguments !! i = Some v /\ numeric v
  | Abort _ => True
  | OutOfRange => plain_after_pack (all_arguments_ p) = false
  end.
Proof.
  intros [HD HP]. unfold check_arguments.
  pose proof (ok_pack p Hok) as Hcount.
  destruct (have_argument_pack_ p) eqn:Hflag.
  - destruct (pack_count_split (all_arguments_ p) ltac:(lia))
      as (before & pack & after & Hsplit & Hbefore & Hpack).
    destruct (pack_declared p Hok before pack after Hsplit Hpack)
      as (_ & _ & _ & Hafter).
    assert (Hlen : length (all_arguments_ p)
                   = length before + S (length after)).
    { by rewrite Hsplit, length_app. }
    rewrite size_t_wrap_small by lia.
    destruct (Z.ltb_spec (Z.of_nat (length cur_arguments))
                (Z.of_nat (length (all_arguments_ p)) - 1)) as [|Hge];
      [done|].
    assert (Hn : Z.to_nat (pack_value_count_of (all_arguments_ p) cur_arguments)
                 = length cur_arguments + 1 - length (all_arguments_ p)).
    { apply (pack_value_count_fits p); [done|lia]. }
    pose proof (check_with_pack_cases cur_arguments
                  (pack_value_count_of (all_arguments_ p) cur_arguments)
                  pack after Hpack Hafter before 0 Hbefore
                  ltac:(rewrite Hn; lia)) as Hcheck.
    rewrite <- Hsplit in Hcheck.
    destruct (check_with_pack _ _ _ _) as [[]|d|]; [|done|].
    + destruct Hcheck as (_ & Hplain & Hall).
      intros i a Hi Hnum Hnone.
      assert (Hle : i <= length before).
      { destruct (decide (i <= length before)) as [|Hgt]; [done|].
        rewrite Hsplit in Hnone.
        rewrite take_app_ge in Hnone by lia.
        rewrite pack_count_app in Hnone.
        destruct (i - length before) as [|k] eqn:Hk; [lia|].
        change (take (S k) (pack :: after)) with (pack :: take k after)
          in Hnone.
        rewrite pack_count_cons, Hpack in Hnone. lia. }
      rewrite Hsplit in Hi.
      destruct (decide (i = length before)) as [->|Hne].
      * rewrite list_lookup_middle in Hi by done. injection Hi as <-.
        rewrite Hpack, <- Hn. by apply Hall.
      * rewrite lookup_app_l in Hi by lia.
        rewrite (pack_count_0 before a Hbefore)
          by by eapply list_elem_of_lookup_2.
        by apply (Hplain i a).
    + destruct Hcheck as (a & Ha & Hnum).
      unfold plain_after_pack.
      rewrite Hsplit, after_pack_split by done.
      apply not_true_iff_false. intros Hall.
      rewrite forallb_forall in Hall.
      apply list_elem_of_In, Hall in Ha. by rewrite Hnum in Ha.
  - destruct (Nat.eqb_spec (length cur_arguments) (length (all_arguments_ p)))
      as [Hlen|]; simpl; [|done].
    pose proof (check_without_pack_cases cur_arguments (all_arguments_ p) 0
                  ltac:(lia)) as Hcheck.
    destruct (check_without_pack _ _ _) as [[]|d|]; [|done|done].
    intros i a Hi Hnum _.
    rewrite (pack_count_0 _ a Hcount) by by eapply list_elem_of_lookup_2.
    by apply (Hcheck i a).
Qed.

(** When the check passes, the binding runs to its end. *)
Lemma bind_arguments_succeeds cur_arguments cur_values :
  vector_sizes (all_arguments_ p) cur_arguments ->
  check_arguments (have_argument_pack_ p) (all_arguments_ p) cur_arguments
  = Ok tt ->
  exists cur_values',
    bind_arguments (have_argument_pack_ p) (all_arguments_ p) cur_arguments
      cur_values = Ok cur_values'.
Proof.
  intros Hsizes Hcheck.
  destruct (check_arguments_passed p Hok cur_arguments Hsizes Hcheck)
    as [Hlen Hexact].
  pose proof (ok_pack p Hok) as Hcount.
  unfold bind_arguments. destruct (have_argument_pack_ p) eqn:Hflag.
  - apply bind_with_pack_succeeds.
    assert (Hone : 1 <= length (all_arguments_ p)).
    { destruct (all_arguments_ p); [unfold pack_count in Hcount|];
        simpl in *; lia. }
    rewrite (pack_value_count_fits p) by (done || lia).
    rewrite offset_at_most_one_pack by lia.
    rewrite firstn_all.
    destruct (existsb Argument.is_package (all_arguments_ p)) eqn:Hexists;
      [lia|].
    apply pack_count_existsb in Hexists. lia.
  - apply bind_without_pack_succeeds. rewrite Hexact by done. lia.
Qed.

End Checks.

Section BoundArguments.

Variable p : Parser.
Hypothesis Hok : schema_ok p.

Lemma offset_before_pack (arguments : list Argument.t) (n i : nat) :
  pack_count (take i arguments) = 0 -> i <= length arguments ->
  offset arguments n i = i.
Proof.
  intros Hcount Hi.
  assert (Hsame : offset arguments n i = offset (take i arguments) n i).
  { unfold offset. by rewrite take_take, Nat.min_id. }
  rewrite Hsame. apply offset_plain; [done|]. rewrite length_take. lia.
Qed.

(** The name of an argument is no key of an option. *)
Lemma argument_is_no_option (a : Argument.t) (name : string) (o : Option.t) :
  a ∈ all_arguments_ p -> all_options_ p !! name = Some o ->
  Argument.name a <> name /\
  (Option.short_name o <> "" -> Argument.name a <> Option.short_name o).
Proof.
  intros Ha Ho.
  pose proof (ok_argument p Hok a Ha) as Hplain.
  destruct (ok_long p Hok _ _ Ho) as [_ Hlong%long_shape_dashed].
  split; [congruence|]. intros Hshort.
  destruct (alias_of p Hok _ _ Ho Hshort) as [Hshape%short_shape_dashed _].
  congruence.
Qed.

(** Without a pack, the argument number [i] is bound to the positional
    token number [i]. *)
Lemma argument_bound_without_pack argv result p' cur_arguments cur_options i a v :
  have_argument_pack_ p = false ->
  Parse p argv = Returned result p' ->
  positional_stage p argv = Some (cur_arguments, cur_options) ->
  all_arguments_ p !! i = Some a -> cur_arguments !! i = Some v ->
  cur_values_ p' !! Argument.name a = Some (Value_of_string v).
Proof.
  intros Hflag Hparse Hstage Hi Hv.
  destruct (Parse_Returned p Hok argv result p' Hparse)
    as (path & args & co & cv0 & Hargv & _ & Hstage' & _ & _ & _ & _).
  rewrite Hstage in Hstage'. injection Hstage' as Hca Hco.
  destruct (bound_elsewhere p Hok argv result p' Hparse path args
              (Argument.name a) Hargv) as (cv1 & Hbind & Hsame).
  { intros name' o' Ho' _. apply argument_is_no_option; [|done].
    by eapply list_elem_of_lookup_2. }
  rewrite Hsame. rewrite <- Hca in Hbind.
  unfold bind_arguments in Hbind. rewrite Hflag in Hbind.
  apply bind_without_pack_Ok in Hbind as [_ Hbound].
  destruct (Hbound (ok_distinct p Hok)) as [_ Hat].
  by apply (Hat i a v).
Qed.

End BoundArguments.

(** X9. When no pack is declared, the positional tokens must be as many as
    the declared arguments: with another count, [Parse] stops with the
    diagnostic of the two counts; with that count, either [Parse] stops at
    a token on which [std::stoi] throws, for an argument that takes numbers
    only, or it returns with the argument number [i] bound to the single
    value of the token number [i], every token of an argument that takes
    numbers only being one on which [std::stoi] returns. *)
Theorem exact_count_without_pack (p : Parser) (argv : list string)
    (cur_arguments : list string) (cur_options : gmap string (list string)) :
  reachable p ->
  have_argument_pack_ p = false ->
  positional_stage p argv = Some (cur_arguments, cur_options) ->
  (length cur_arguments <> length (all_arguments_ p) ->
   Parse p argv
   = Fatal (ArgumentCountMustBe (length (all_arguments_ p))
              (length cur_arguments))) /\
  (length cur_arguments = length (all_arguments_ p) ->
   (exists p',
      Parse p argv = Returned true p' /\
      forall i a v,
        all_arguments_ p !! i = Some a -> cur_arguments !! i = Some v ->
        operator_index p' (Argument.name a) = Value_of_string v /\
        (Argument.only_number a = true -> numeric v)) \/
   (exists i a v,
      all_arguments_ p !! i = Some a /\ cur_arguments !! i = Some v /\
      Argument.only_number a = true /\ CLib.stoi_throws v = true /\
      Parse p argv = Fatal (ArgumentRequireNumber (Argument.name a) v))).
Proof.
  intros Hok%reachable_schema_ok Hflag Hstage.
  destruct (positional_stage_Parse p argv _ _ Hstage)
    as (path & args & ao & Hargv & Hfinish).
  split.
  - intros Hlen. rewrite Hfinish. apply finish_Abort. simpl.
    unfold check_arguments. rewrite Hflag.
    by destruct (Nat.eqb_spec (length cur_arguments)
                   (length (all_arguments_ p))).
  - intros Hlen.
    assert (Hcheck :
      check_arguments (have_argument_pack_ p) (all_arguments_ p) cur_arguments
      = check_without_pack (all_arguments_ p) 0 cur_arguments).
    { unfold check_arguments. by rewrite Hflag, Hlen, Nat.eqb_refl. }
    pose proof (check_without_pack_cases cur_arguments (all_arguments_ p) 0
                  ltac:(lia)) as Hcases.
    destruct (check_without_pack _ _ _) as [[]|d|]; [| |done].
    + left.
      destruct (bind_without_pack_succeeds (all_arguments_ p) cur_arguments 0 ∅)
        as [cv1 Hbind]; [lia|].
      destruct (finish_Ok (enter p path) ao cur_arguments cur_options cv1)
        as [p' Hp']; [done| |].
      { simpl. unfold bind_arguments. by rewrite Hflag. }
      rewrite <- Hfinish in Hp'. exists p'. split; [done|].
      intros i a v Hi Hv. split.
      * apply operator_index_Some.
        by apply (argument_bound_without_pack p Hok argv true p'
                    cur_arguments cur_options i a v).
      * intros Hnum. destruct (Hcases i a Hi Hnum) as (v' & Hv' & Hnumeric).
        simpl in Hv'. congruence.
    + right. destruct Hcases as (i & a & v & Hi & Hnum & Hv & Hthrows & ->).
      exists i, a, v. split_and!; try done.
      rewrite Hfinish. by apply finish_Abort.
Qed.

Lemma exact_count_without_pack_witness :
  Parse main_parser ["cat"] = Fatal (ArgumentCountMustBe 1 0).
Proof.
  destruct (exact_count_without_pack main_parser ["cat"] [] ∅
              main_parser_reachable) as [Hcount _].
  - reflexivity.
  - vm_compute. reflexivity.
  - apply Hcount. vm_compute. intros Hlen. discriminate Hlen.
Defined.

Section Range.

Lemma Parse_defined (p : Parser) (argv : list string) :
  reachable p ->
  vector_sizes (all_arguments_ p) argv ->
  plain_after_pack (all_arguments_ p) = true ->
  Parse p argv <> Undefined.
Proof.
  intros Hok%reachable_schema_ok [HD HP] Hplain. unfold Parse.
  destruct argv as [|path args]; [done|].
  destruct (lone_builtin _ _ "--help"); [done|].
  destruct (lone_builtin _ _ "--usage"); [done|].
  unfold scanned. simpl.
  pose proof (scan_arguments_cases p Hok args [] ∅) as Hcases.
  destruct (scan_arguments _ _ _ _ _) as [[[ao ca] co]|d|] eqn:Hscan;
    [|done|done].
  apply (scan_arguments_events p Hok) in Hscan as (-> & -> & _).
  rewrite app_nil_l.
  assert (Hsizes : vector_sizes (all_arguments_ p)
                     (positional_tokens (events_of p args))).
  { split; [done|]. pose proof (positional_tokens_length p args).
    simpl in HP. lia. }
  unfold finish. simpl.
  pose proof (check_arguments_cases p Hok _ Hsizes) as Hcheck.
  destruct (check_arguments _ _ _) as [[]|d|] eqn:Hpassed; simpl.
  - destruct (bind_arguments_succeeds p Hok _ ∅ Hsizes Hpassed) as [cv1 ->].
    done.
  - done.
  - congruence.
Qed.

End Range.

(** X10. [Parse] indexes no vector out of its range, unless an argument
    declared after the pack takes numbers only: if there is no such
    argument, whatever the command line, [Parse] returns or exits. *)
Theorem Parse_reads_within_range (p : Parser) (argv : list string) :
  reachable p ->
  vector_sizes (all_arguments_ p) argv ->
  plain_after_pack (all_arguments_ p) = true ->
  Parse p argv <> Undefined.
Proof. apply Parse_defined. Qed.

Lemma Parse_reads_within_range_witness :
  Parse pack_parser ["prog"; "x"; "y"] <> Undefined.
Proof.
  apply (Parse_reads_within_range pack_parser ["prog"; "x"; "y"]
           pack_parser_reachable).
  - split; vm_compute; reflexivity.
  - reflexivity.
Defined.

(** X11. After a [Parse] that returned, an argument that takes numbers only
    and is declared before the pack, or is the pack, or is declared when
    there is no pack, holds numbers: [ToInt] returns on the single value of
    a plain argument, and on every sub value of the pack. *)
Theorem numeric_arguments_hold_numbers (p : Parser) (argv : list string)
    (p' : Parser) (cur_arguments : list string)
    (cur_options : gmap string (list string)) (i : nat) (a : Argument.t) :
  reachable p ->
  vector_sizes (all_arguments_ p) cur_arguments ->
  Parse p argv = Returned true p' ->
  positional_stage p argv = Some (cur_arguments, cur_options) ->
  all_arguments_ p !! i = Some a ->
  Argument.only_number a = true ->
  pack_count (take i (all_arguments_ p)) = 0 ->
  if Argument.is_package a
  then forall k,
         k < Value_size (operator_index p' (Argument.name a)) ->
         exists n,
           Value_ToInt (Value_at (operator_index p' (Argument.name a)) k)
           = CLib.StoiValue n
  else exists n,
         Value_ToInt (operator_index p' (Argument.name a)) = CLib.StoiValue n.
Proof.
  intros Hok%reachable_schema_ok Hsizes Hparse Hstage Hi Hnum Hnone.
  destruct (Parse_Returned p Hok argv true p' Hparse)
    as (path & args & co & cv0 & Hargv & _ & Hstage' & _ & Hcheck & _ & _).
  rewrite Hstage in Hstage'. injection Hstage' as Hca Hco.
  rewrite <- Hca in Hcheck.
  pose proof (check_arguments_cases p Hok cur_arguments Hsizes) as Hcases.
  rewrite Hcheck in Hcases. specialize (Hcases i a Hi Hnum Hnone).
  destruct (argument_bound p Hok argv p' cur_arguments cur_options i a
              Hsizes Hparse Hstage Hi) as (_ & _ & Hbound).
  apply lookup_lt_Some in Hi as Hlt.
  rewrite offset_before_pack in Hbound by (done || lia).
  unfold bound_value in Hbound.
  destruct (Argument.is_package a).
  - rewrite (operator_index_Some p' _ _ Hbound).
    unfold Value_size, Value_at, Value_ToInt. simpl. intros k Hk.
    destruct (lookup_lt_is_Some_2 _ _ Hk) as [v Hv]. rewrite Hv. simpl.
    apply numeric_stoi. rewrite Forall_forall in Hcases. apply Hcases.
    by eapply list_elem_of_lookup_2.
  - destruct Hcases as (v & Hv & Hnumeric). rewrite Hv in Hbound.
    rewrite (operator_index_Some p' _ _ Hbound).
    by apply numeric_stoi.
Qed.

Lemma numeric_arguments_hold_numbers_witness :
  exists p',
    Parse pack_parser ["prog"; "1"; "x"] = Returned true p' /\
    exists n, Value_ToInt (operator_index p' "a") = CLib.StoiValue n.
Proof.
  assert (Hparse : exists p',
            Parse pack_parser ["prog"; "1"; "x"] = Returned true p')
    by (vm_compute; eexists; reflexivity).
  destruct Hparse as [p' Hparse]. exists p'. split; [exact Hparse|].
  assert (Hstage : positional_stage pack_parser ["prog"; "1"; "x"]
                   = Some (["1"; "x"], ∅))
    by (vm_compute; reflexivity).
  apply (numeric_arguments_hold_numbers pack_parser ["prog"; "1"; "x"] p'
           ["1"; "x"] ∅ 0 (Argument.mk "a" "" true false)
           pack_parser_reachable).
  - split; vm_compute; reflexivity.
  - exact Hparse.
  - exact Hstage.
  - reflexivity.
  - reflexivity.
  - reflexivity.
Defined.

(** ** One [Parse] after another *)

Section Again.

(** [Parse] reads the schema only: the path and the values that an earlier
    call has left are overwritten before they are read. *)
Lemma Parse_schema (p q : Parser) (argv : list string) :
  app_name_ q = app_name_ p -> app_note_ q = app_note_ p ->
  have_argument_pack_ q = have_argument_pack_ p ->
  all_arguments_ q = all_arguments_ p ->
  all_options_ q = all_options_ p ->
  short_name_to_name_of_option_ q = short_name_to_name_of_option_ p ->
  Parse q argv = Parse p argv.
Proof.
  intros Hname Hnote Hflag Hargs Hopts Hshort.
  unfold Parse. destruct argv as [|path args]; [done|].
  assert (Henter : enter q path = enter p path).
  { unfold enter. by rewrite Hname, Hnote, Hflag, Hargs, Hopts, Hshort. }
  by rewrite Henter.
Qed.

End Again.

(** X12. A [Parse] that returned has no effect on a later [Parse]: on every
    command line, the later call does what it would have done on the
    object before the earlier call; on the same command line, it returns
    the same object again. *)
Theorem Parse_forgets_earlier_Parse (p : Parser) (argv0 : list string)
    (result : bool) (p1 : Parser) :
  reachable p ->
  Parse p argv0 = Returned result p1 ->
  (forall argv, Parse p1 argv = Parse p argv) /\
  Parse p1 argv0 = Returned result p1.
Proof.
  intros Hok%reachable_schema_ok Hparse.
  assert (Hsame : forall argv, Parse p1 argv = Parse p argv).
  { destruct (Parse_Returned p Hok argv0 result p1 Hparse)
      as (path & args & co & cv1 & _ & _ & _ & _ & _ & _ & ->).
    intros argv. by apply Parse_schema. }
  split; [done|]. by rewrite Hsame.
Qed.

Lemma Parse_forgets_earlier_Parse_witness :
  exists p1,
    Parse main_parser ["cat"; "notes.txt"; "-b"] = Returned true p1 /\
    Parse p1 ["cat"; "-l"] = Parse main_parser ["cat"; "-l"].
Proof.
  assert (Hparse : exists p1,
            Parse main_parser ["cat"; "notes.txt"; "-b"] = Returned true p1)
    by (vm_compute; eexists; reflexivity).
  destruct Hparse as [p1 Hparse]. exists p1. split; [exact Hparse|].
  apply (Parse_forgets_earlier_Parse main_parser ["cat"; "notes.txt"; "-b"]
           true p1 main_parser_reachable Hparse).
Defined.

(** X13. The help text does not change with a [Parse] that returned:
    [HelpInfo] prints the command name where [UsageInfo] prints the path of
    the last command line, and reads nothing else that [Parse] writes. *)
Theorem help_after_Parse (p : Parser) (argv : list string) (result : bool)
    (p' : Parser) :
  reachable p ->
  Parse p argv = Returned result p' ->
  HelpInfo p' = HelpInfo p.
Proof.
  intros Hok%reachable_schema_ok Hparse.
  destruct (Parse_Returned p Hok argv result p' Hparse)
    as (path & args & co & cv1 & _ & _ & _ & _ & _ & _ & ->).
  reflexivity.
Qed.

Lemma help_after_Parse_witness :
  exists p',
    Parse main_parser ["./cat"; "notes.txt"] = Returned true p' /\
    HelpInfo p' = HelpInfo main_parser.
Proof.
  assert (Hparse : exists p',
            Parse main_parser ["./cat"; "notes.txt"] = Returned true p')
    by (vm_compute; eexists; reflexivity).
  destruct Hparse as [p' Hparse]. exists p'. split; [exact Hparse|].
  apply (help_after_Parse main_parser ["./cat"; "notes.txt"] true p'
           main_parser_reachable Hparse).
Defined.

(** ** The order of the options in the usage line *)

Section Indexes.

(** What a successful [AddOption] makes of [all_options_]. *)
Lemma AddOption_options p name value_count short_name note only_number p' :
  AddOption p name value_count short_name note only_number = (true, p') ->
  all_options_ p !! name = None /\
  all_options_ p'
  = <[name := Option.mk name short_name note value_count only_number
                (size_t_wrap (Z.of_nat (size (all_options_ p))))]>
      (all_options_ p).
Proof.
  intros Hadd.
  pose proof (AddOption_stores _ _ _ _ _ _ _ Hadd) as [Hstored _].
  apply AddOption_true in Hadd as (Hfresh & _ & _ & ->). simpl in *.
  split; [done|].
  destruct (store_option_insert (all_options_ p) name value_count short_name
              note only_number) as [index Hinsert].
  rewrite Hinsert in Hstored |- *. rewrite lookup_insert_eq in Hstored.
  by injection Hstored as ->.
Qed.

Lemma indexes_ok_insert (options : gmap string Option.t) (name : string)
    (o : Option.t) :
  options !! name = None ->
  indexes_ok options ->
  Option.index o = Z.of_nat (size options) ->
  indexes_ok (<[name := o]> options).
Proof.
  intros Hfresh [Hbelow Hdistinct] Hindex. split.
  - intros k o'. rewrite map_size_insert_None by done.
    destruct (decide (k = name)) as [->|Hk].
    + rewrite lookup_insert_eq. intros [= <-]. lia.
    + rewrite lookup_insert_ne by done. intros Ho'%Hbelow. lia.
  - intros k1 k2 o1 o2.
    destruct (decide (k1 = name)) as [->|Hk1];
      destruct (decide (k2 = name)) as [->|Hk2]; try done.
    + rewrite lookup_insert_eq, lookup_insert_ne by done.
      intros [= <-] Ho2%Hbelow. lia.
    + rewrite lookup_insert_eq, lookup_insert_ne by done.
      intros Ho1%Hbelow [= <-]. lia.
    + rewrite !lookup_insert_ne by done. apply Hdistinct.
Qed.

Lemma reachable_indexes_ok (p : Parser) :
  reachable p ->
  (Z.of_nat (size (all_options_ p)) <= size_t_modulus)%Z ->
  indexes_ok (all_options_ p).
Proof.
  induction 1 as [| p r Hp IH | p argv result p' Hp IH Hparse].
  - intros _. split; simpl.
    + intros k o Hk. by rewrite lookup_empty in Hk.
    + intros k1 k2 o1 o2 Hk. by rewrite lookup_empty in Hk.
  - destruct r as [name note num | name note num | name vc short note num];
      simpl.
    + unfold AddArgument. by repeat case_match.
    + unfold AddArgumentPack. by repeat case_match.
    + destruct (AddOption p name vc short note num) as [[] p'] eqn:Hadd; simpl;
        [|by apply AddOption_false in Hadd as ->].
      apply AddOption_options in Hadd as [Hfresh ->].
      rewrite map_size_insert_None by done. intros Hsize.
      apply indexes_ok_insert; [done|apply IH; lia|]. simpl.
      apply size_t_wrap_small. lia.
  - apply Parse_Returned in Hparse
      as (path & args & co & cv1 & _ & _ & _ & _ & _ & _ & ->);
      [done|by apply reachable_schema_ok].
Qed.

(** Two sorted lists with the same elements, whose indexes are pairwise
    different, are the same list. *)
Lemma sorted_by_index_unique (l1 l2 : list Option.t) :
  StronglySorted index_le l1 -> StronglySorted index_le l2 ->
  l1 ≡ₚ l2 -> NoDup (Option.index <$> l1) -> l1 = l2.
Proof.
  revert l2. induction l1 as [|x l1 IH]; intros l2 Hs1 Hs2 Hperm Hdistinct.
  - by apply Permutation_nil_l in Hperm.
  - destruct l2 as [|y l2]; [by apply Permutation_nil_r in Hperm|].
    apply StronglySorted_inv in Hs1 as [Hs1 Hx].
    apply StronglySorted_inv in Hs2 as [Hs2 Hy].
    rewrite fmap_cons in Hdistinct.
    apply NoDup_cons in Hdistinct as [Hfresh Hdistinct].
    assert (Hsame : x = y).
    { destruct (decide (x = y)) as [|Hne]; [done|]. exfalso.
      assert (Hx2 : x ∈ l2).
      { assert (Hin : x ∈ y :: l2) by (rewrite <- Hperm; by left).
        apply elem_of_cons in Hin as [|]; done. }
      assert (Hy1 : y ∈ l1).
      { assert (Hin : y ∈ x :: l1) by (rewrite Hperm; by left).
        apply elem_of_cons in Hin as [|]; [congruence|done]. }
      rewrite Forall_forall in Hx, Hy.
      pose proof (Hx y Hy1) as Hle1. pose proof (Hy x Hx2) as Hle2.
      unfold index_le in *. apply Hfresh.
      replace (Option.index x) with (Option.index y) by lia.
      by apply list_elem_of_fmap_2. }
    subst y. f_equal. apply IH; try done.
    by apply Permutation_cons_inv in Hperm.
Qed.

Lemma options_by_index_Permutation (options : gmap string Option.t) :
  options_by_index options ≡ₚ (snd <$> map_to_list options).
Proof.
  unfold options_by_index, in_key_order.
  by rewrite !merge_sort_Permutation.
Qed.

Lemma options_by_index_elem (options : gmap string Option.t) (o : Option.t) :
  o ∈ options_by_index options <-> exists k, options !! k = Some o.
Proof.
  rewrite options_by_index_Permutation, list_elem_of_fmap. split.
  - intros ([k o'] & -> & Hin%elem_of_map_to_list). by exists k.
  - intros [k Hk]. exists (k, o). by rewrite elem_of_map_to_list.
Qed.

(** The option registered last comes last. *)
Lemma options_by_index_insert (options : gmap string Option.t) (name : string)
    (o : Option.t) :
  options !! name = None ->
  indexes_ok options ->
  Option.index o = Z.of_nat (size options) ->
  options_by_index (<[name := o]> options) = options_by_index options ++ [o].
Proof.
  intros Hfresh Hok Hindex.
  pose proof (indexes_ok_insert options name o Hfresh Hok Hindex)
    as [_ Hdistinct].
  destruct Hok as [Hbelow _].
  apply sorted_by_index_unique.
  - apply StronglySorted_merge_sort; apply _.
  - apply StronglySorted_app_2.
    + intros o1 o2 [k Hk]%options_by_index_elem ->%list_elem_of_singleton.
      apply Hbelow in Hk. unfold index_le. lia.
    + apply StronglySorted_merge_sort; apply _.
    + repeat constructor.
  - rewrite !options_by_index_Permutation.
    rewrite map_to_list_insert by done. simpl.
    by rewrite Permutation_app_comm.
  - rewrite options_by_index_Permutation, <- list_fmap_compose.
    apply NoDup_fmap_2_strong; [|apply NoDup_map_to_list].
    intros [k1 o1] [k2 o2] Hk1%elem_of_map_to_list Hk2%elem_of_map_to_list.
    simpl. intros Hsame.
    pose proof (Hdistinct k1 k2 o1 o2 Hk1 Hk2 Hsame) as ->. congruence.
Qed.

Lemma append_assoc (s1 s2 s3 : string) :
  (s1 +:+ s2) +:+ s3 = s1 +:+ (s2 +:+ s3).
Proof.
  induction s1 as [|c s1 IH]; [done|]. by rewrite !append_String, IH.
Qed.

Lemma append_empty_r (s : string) : s +:+ "" = s.
Proof. induction s as [|c s IH]; [done|]. by rewrite append_String, IH. Qed.

Lemma concat_snoc (l : list string) (s : string) :
  String.concat "" (l ++ [s]) = String.concat "" l +:+ s.
Proof.
  induction l as [|x l IH]; simpl; [done|].
  rewrite IH. destruct l as [|y l]; simpl.
  - by rewrite append_empty.
  - by rewrite !append_empty, append_assoc.
Qed.

End Indexes.

(** X14. The indexes that [AddOption] assigns are ranks of registration:
    in an object built through the interface, as long as the number of
    options is a value of [size_t], the index of every option is below the
    number of options, and no two options have the same index (so that the
    order in which [std::sort] leaves equal elements does not matter). *)
Theorem option_indexes_are_ranks (p : Parser) :
  reachable p ->
  (Z.of_nat (size (all_options_ p)) <= size_t_modulus)%Z ->
  indexes_ok (all_options_ p).
Proof. apply reachable_indexes_ok. Qed.

Lemma option_indexes_are_ranks_witness :
  (0 <= 1 < Z.of_nat (size (all_options_ main_parser)))%Z.
Proof.
  destruct (option_indexes_are_ranks main_parser main_parser_reachable)
    as [Hbelow _].
  - vm_compute. discriminate.
  - apply (Hbelow "--back" (Option.mk "--back" "-b" "from the back" 0 false 1)).
    vm_compute. reflexivity.
Defined.

(** X15. The usage line lists the options in the order of their
    registration: a successful [AddOption] puts the bracket of the new
    option at the end of the line, and the new option last in the sorted
    list from which [HelpInfo] prints its rows too. *)
Theorem usage_appends_option (p : Parser) (name : string) (value_count : nat)
    (short_name note : string) (only_number : bool) (p' : Parser) :
  reachable p ->
  (Z.of_nat (size (all_options_ p)) < size_t_modulus)%Z ->
  AddOption p name value_count short_name note only_number = (true, p') ->
  options_by_index (all_options_ p')
  = options_by_index (all_options_ p)
    ++ [Option.mk name short_name note value_count only_number
          (Z.of_nat (size (all_options_ p)))] /\
  UsageInfo p'
  = UsageInfo p
    +:+ option_usage
          (Option.mk name short_name note value_count only_number
             (Z.of_nat (size (all_options_ p)))).
Proof.
  intros Hreach Hsize Hadd.
  assert (Hsorted :
    options_by_index (all_options_ p')
    = options_by_index (all_options_ p)
      ++ [Option.mk name short_name note value_count only_number
            (Z.of_nat (size (all_options_ p)))]).
  { destruct (AddOption_options _ _ _ _ _ _ _ Hadd) as [Hfresh ->].
    rewrite size_t_wrap_small by lia.
    apply options_by_index_insert; [done| |done].
    apply reachable_indexes_ok; [done|lia]. }
  split; [done|].
  apply AddOption_true in Hadd as (_ & _ & _ & Hp').
  unfold UsageInfo.
  rewrite Hsorted, fmap_app, fmap_cons, fmap_nil, concat_snoc.
  rewrite Hp'. simpl. by rewrite !append_assoc.
Qed.

Lemma usage_appends_option_witness :
  UsageInfo main_parser = "Usage: command <file> [-l|--lines N1] [-b|--back]".
Proof.
  destruct (usage_appends_option
              (AddOption
                 (AddArgument (CommandLineParser "cat" "show text file context")
                    "file" "text file path" false).2
                 "--lines" 1 "-l" "line count to show" true).2
              "--back" 0 "-b" "from the back" false main_parser)
    as [_ Husage].
  - apply (reachable_register _
             (RegisterOption "--lines" 1 "-l" "line count to show" true)).
    apply (reachable_register _ (RegisterArgument "file" "text file path" false)).
    apply reachable_new.
  - vm_compute. reflexivity.
  - vm_compute. reflexivity.
  - rewrite Husage. vm_compute. reflexivity.
Defined.

(** ** [main.cpp] *)

Section Main.

Lemma read_front_all (file all_lines : list string) :
  read_front (-1) file all_lines = all_lines ++ file.
Proof.
  revert all_lines. induction file as [|line file IH]; intros acc; simpl.
  - by rewrite app_nil_r.
  - by rewrite IH, <- app_assoc.
Qed.

Lemma read_front_take (file : list string) :
  forall line_count all_lines,
    (0 <= line_count)%Z ->
    read_front line_count file all_lines
    = all_lines ++ take (Z.to_nat line_count) file.
Proof.
  induction file as [|line file IH]; intros n acc Hn; simpl.
  - by rewrite take_nil, app_nil_r.
  - destruct (Z.eqb_spec n (-1)) as [|_]; [lia|]. simpl.
    destruct (Z.eqb_spec (n - 1) (-1)) as [Hzero|Hpos].
    + replace n with 0%Z by lia. by rewrite app_nil_r.
    + rewrite IH by lia. rewrite <- app_assoc. simpl.
      replace (Z.to_nat n) with (S (Z.to_nat (n - 1))) by lia. done.
Qed.

Lemma read_back_drop (file : list string) (line_count : Z) :
  (0 <= line_count < size_t_modulus)%Z ->
  read_back line_count file = drop (length file - Z.to_nat line_count) file.
Proof.
  intros Hn. unfold read_back. rewrite size_t_wrap_small by done.
  destruct (Z.eqb_spec line_count (-1)) as [|_]; [lia|]. simpl.
  destruct (Z.ltb_spec line_count (Z.of_nat (length file))) as [|Hge]; [done|].
  replace (length file - Z.to_nat line_count) with 0 by lia. done.
Qed.

Lemma stoi_in_int (s : string) (n : Z) :
  CLib.stoi s = CLib.StoiValue n -> (CLib.INT_MIN <= n <= CLib.INT_MAX)%Z.
Proof.
  unfold CLib.stoi. destruct (CLib.take_sign _) as [negative rest].
  destruct (CLib.read_digits _ _ _) as [magnitude [|count]]; [done|].
  destruct (_ && _) eqn:Hrange; [|done]. intros [= <-].
  apply andb_true_iff in Hrange as [?%Z.leb_le ?%Z.leb_le]. done.
Qed.

(** The idiom of [main]: when the lookup by the name of an option that
    takes numbers is valid, the first sub value of the lookup by its short
    name is a number. *)
Lemma numeric_option_by_short_name (p : Parser) (path : string)
    (args : list string) (result : bool) (p' : Parser) (name : string)
    (o : Option.t) :
  schema_ok p ->
  Parse p (path :: args) = Returned result p' ->
  all_options_ p !! name = Some o ->
  Option.short_name o <> "" -> Option.only_number o = true ->
  0 < Option.value_count o ->
  Value_bool (operator_index p' name) = true ->
  exists n,
    Value_ToInt (Value_at (operator_index p' (Option.short_name o)) 0)
    = CLib.StoiValue n.
Proof.
  intros Hok Hparse Ho Hshort Hnum Hcount Hvalid.
  destruct (captured name (events_of p args)) as [|values windows]
    eqn:Hcaptured.
  { rewrite (operator_index_None p' name) in Hvalid; [done|].
    apply (unmatched_unbound p path args result p' name o Hok Hparse Ho).
    unfold matched. rewrite Hcaptured. intros Hne. by apply Hne. }
  assert (Hmatched : captured name (events_of p args) <> [])
    by by rewrite Hcaptured.
  pose proof (bound_matched p Hok _ _ _ Hparse path args name o eq_refl Ho
                Hmatched (Option.short_name o)
                (or_intror (conj Hshort eq_refl))) as Hbound.
  rewrite (operator_index_Some p' _ _ Hbound).
  destruct (Parse_scan p Hok path args) as [_ Hcomplete].
  specialize (Hcomplete result p' Hparse).
  pose proof (captured_complete p name o _ Ho Hcomplete) as Hwindows.
  rewrite Hcaptured in Hwindows |- *.
  apply Forall_cons in Hwindows as [[Hlen Hall] _].
  destruct values as [|value values]; [simpl in Hlen; lia|].
  specialize (Hall Hnum). apply Forall_cons in Hall as [Hvalue _].
  unfold Value_at, Value_ToInt. simpl. by apply numeric_stoi.
Qed.

Lemma lines_is_a_number (argv : list string) (result : bool) (parser : Parser) :
  Parse main_parser argv = Returned result parser ->
  Value_bool (operator_index parser "--lines") = true ->
  exists n,
    Value_ToInt (Value_at (operator_index parser "-l") 0) = CLib.StoiValue n.
Proof.
  intros Hparse Hvalid.
  pose proof (reachable_schema_ok _ main_parser_reachable) as Hok.
  destruct (Parse_Returned main_parser Hok argv result parser Hparse)
    as (path & args & _ & _ & Hargv & _).
  rewrite Hargv in Hparse.
  assert (Ho : all_options_ main_parser !! "--lines"
               = Some (Option.mk "--lines" "-l" "line count to show" 1 true 0))
    by (vm_compute; reflexivity).
  apply (numeric_option_by_short_name main_parser path args result parser
           "--lines" (Option.mk "--lines" "-l" "line count to show" 1 true 0)
           Hok Hparse Ho); [discriminate|reflexivity|simpl; lia|exact Hvalid].
Qed.

Lemma line_count_of_cases (argv : list string) (result : bool)
    (parser : Parser) :
  Parse main_parser argv = Returned result parser ->
  if Value_bool (operator_index parser "--lines")
  then exists n,
         Value_ToInt (Value_at (operator_index parser "-l") 0)
         = CLib.StoiValue n /\
         (CLib.INT_MIN <= n <= CLib.INT_MAX)%Z /\
         line_count_of parser = Some (Z.max 0 n)
  else line_count_of parser = Some (-1)%Z.
Proof.
  intros Hparse. unfold line_count_of.
  destruct (Value_bool (operator_index parser "--lines")) eqn:Hvalid; [|done].
  destruct (lines_is_a_number argv result parser Hparse Hvalid) as [n Hn].
  exists n. rewrite Hn. split; [done|]. split; [|done].
  by apply stoi_in_int in Hn.
Qed.

(** The parser of [main] has no pack: [Parse] indexes no vector out of its
    range. *)
Lemma main_parser_defined (argv : list string) :
  (Z.of_nat (length argv) <= CLib.INT_MAX)%Z ->
  Parse main_parser argv <> Undefined.
Proof.
  intros Hargc. apply Parse_defined.
  - apply main_parser_reachable.
  - split; [by vm_compute|].
    unfold CLib.INT_MAX, size_t_modulus in *. lia.
  - reflexivity.
Qed.

End Main.

(** X16. [main] neither ends by an exception nor runs into an index out of
    range: whatever the command line and the files, [Parse] stays within
    its vectors, and when [parser["--lines"]] is valid, the conversion
    [parser["-l"][0].ToInt()] returns. *)
Theorem main_does_not_throw (open : string -> option (list string))
    (argv : list string) :
  (Z.of_nat (length argv) <= CLib.INT_MAX)%Z ->
  main open argv <> Terminates /\ main open argv <> Unspecified.
Proof.
  intros Hargc. unfold main.
  pose proof (main_parser_defined argv Hargc) as Hdefined.
  destruct (Parse main_parser argv) as [result parser|status out|d|] eqn:Hparse;
    [|done|done|done].
  destruct (open _) as [file|]; [|done].
  pose proof (line_count_of_cases argv result parser Hparse) as Hcount.
  destruct (Value_bool (operator_index parser "--lines")).
  - destruct Hcount as (n & _ & _ & ->). done.
  - rewrite Hcount. done.
Qed.

Lemma main_does_not_throw_witness :
  main (fun _ => Some ["one"; "two"]) ["cat"; "notes.txt"; "-l"; "1"]
  <> Terminates.
Proof.
  apply (main_does_not_throw (fun _ => Some ["one"; "two"])
           ["cat"; "notes.txt"; "-l"; "1"]).
  vm_compute. discriminate.
Defined.

(** X17. When [Parse] returns and the file opens, [main] returns 0 and
    prints lines of the file, each followed by a line break: all of them
    without [--lines]; with [--lines n], the first [max(0, n)] lines, or,
    when [--back] is given too, the last [max(0, n)] lines (all of them if
    there are no more). *)
Theorem main_prints_lines (open : string -> option (list string))
    (argv : list string) (result : bool) (parser : Parser)
    (file : list string) :
  Parse main_parser argv = Returned result parser ->
  open (Value_ToString (operator_index parser "file")) = Some file ->
  exists shown,
    main open argv = Returns 0 (print_lines shown) /\
    if Value_bool (operator_index parser "--lines")
    then exists n,
           Value_ToInt (Value_at (operator_index parser "-l") 0)
           = CLib.StoiValue n /\
           shown
           = if Value_bool (operator_index parser "--back")
             then drop (length file - Z.to_nat (Z.max 0 n)) file
             else take (Z.to_nat (Z.max 0 n)) file
    else shown = file.
Proof.
  intros Hparse Hopen. unfold main. rewrite Hparse, Hopen.
  pose proof (line_count_of_cases argv result parser Hparse) as Hcount.
  destruct (Value_bool (operator_index parser "--lines")).
  - destruct Hcount as (n & Hn & Hint & ->).
    eexists. split; [done|]. exists n. split; [done|].
    destruct (Value_bool (operator_index parser "--back")); simpl.
    + apply read_back_drop.
      unfold CLib.INT_MIN, CLib.INT_MAX, size_t_modulus in *. lia.
    + rewrite read_front_take by lia. done.
  - rewrite Hcount. eexists. split; [done|].
    destruct (Value_bool (operator_index parser "--back")); simpl.
    + done.
    + by rewrite read_front_all.
Qed.

Lemma main_prints_lines_witness :
  main (fun _ => Some ["one"; "two"; "three"])
    ["cat"; "notes.txt"; "-l"; "2"; "-b"]
  = Returns 0 (print_lines ["two"; "three"]).
Proof.
  assert (Hparse : exists parser,
            Parse main_parser ["cat"; "notes.txt"; "-l"; "2"; "-b"]
            = Returned true parser /\
            Value_bool (operator_index parser "--lines") = true /\
            Value_bool (operator_index parser "--back") = true /\
            Value_ToInt (Value_at (operator_index parser "-l") 0)
            = CLib.StoiValue 2).
  { eexists. split; [vm_compute; reflexivity|].
    split_and!; vm_compute; reflexivity. }
  destruct Hparse as (parser & Hparse & Hlines & Hback & Hint).
  destruct (main_prints_lines (fun _ => Some ["one"; "two"; "three"])
              ["cat"; "notes.txt"; "-l"; "2"; "-b"] true parser
              ["one"; "two"; "three"] Hparse eq_refl)
    as (shown & Hmain & Hshown).
  rewrite Hlines, Hback in Hshown. destruct Hshown as (n & Hn & ->).
  rewrite Hint in Hn. injection Hn as <-. exact Hmain.
Defined.

(** ** Sub values and positional tokens *)

(** X18. A sub value is a single value: [v[i]] is valid exactly when [i] is
    in range and the string at [i] is not empty; [ToString] gives that
    string, and the empty string out of range; a sub value has no sub
    values of its own, so that [v[i][j]] is never valid. *)
Theorem sub_value_is_single (v : Value) (i : nat) :
  (Value_bool (Value_at v i) = true <->
   exists s, values_ v !! i = Some s /\ s <> "") /\
  Value_ToString (Value_at v i) = default "" (values_ v !! i) /\
  Value_size (Value_at v i) = 0 /\
  forall j, Value_bool (Value_at (Value_at v i) j) = false.
Proof.
  unfold Value_at, Value_bool, Value_ToString, Value_size.
  destruct (values_ v !! i) as [s|]; simpl.
  - split_and!; try done. split.
    + intros Hvalid%negb_true_iff. exists s. split; [done|].
      intros ->. done.
    + intros (s' & [= <-] & Hne). apply negb_true_iff.
      by apply String.eqb_neq.
  - split_and!; try done. split; [done|]. by intros (s & Hs & _).
Qed.

Section PositionalTokens.

Variable p : Parser.

Lemma positional_tokens_sublist (args : list string) :
  positional_tokens (events_of p args) `sublist_of` args /\
  forall token,
    token ∈ positional_tokens (events_of p args) ->
    option_start (all_options_ p) (short_name_to_name_of_option_ p) token
    = None.
Proof.
  unfold events_of.
  remember (length args) as n eqn:Hn. revert args Hn.
  induction n as [n IH] using lt_wf_ind. intros args Hn.
  destruct args as [|str rest]; simp scan_events.
  { split; [done|]. by intros token ?%elem_of_nil. }
  destruct (option_start _ _ str) as [o|] eqn:Hstart; simpl.
  - destruct (IH (length (drop (Option.value_count o) rest))
                ltac:(rewrite length_drop, Hn; simpl; lia) _ eq_refl)
      as [Hsub Hnone].
    split; [|done].
    apply sublist_cons. etrans; [exact Hsub|]. apply sublist_drop.
  - destruct (IH (length rest) ltac:(rewrite Hn; simpl; lia) _ eq_refl)
      as [Hsub Hnone].
    split; [by apply sublist_skip|].
    intros token [->|Htoken]%elem_of_cons; [done|by apply Hnone].
Qed.

End PositionalTokens.

(** X19. The positional tokens with which [Parse] reaches its checks are
    tokens of the command line, in their order, and none of them is the
    name or the short name of an option. *)
Theorem positional_tokens_are_no_options (p : Parser) (path : string)
    (args : list string) (cur_arguments : list string)
    (cur_options : gmap string (list string)) :
  reachable p ->
  positional_stage p (path :: args) = Some (cur_arguments, cur_options) ->
  cur_arguments `sublist_of` args /\
  forall token,
    token ∈ cur_arguments ->
    all_options_ p !! token = None /\
    short_name_to_name_of_option_ p !! token = None.
Proof.
  intros Hreach Hstage.
  apply reachable_schema_ok in Hreach as Hok.
  assert (Hca : cur_arguments = positional_tokens (events_of p args)).
  { unfold positional_stage in Hstage.
    destruct (lone_builtin _ _ "--help"); [done|].
    destruct (lone_builtin _ _ "--usage"); [done|].
    unfold scanned in Hstage. simpl in Hstage.
    destruct (scan_arguments _ _ _ _ _) as [[[ao ca] co]| |] eqn:Hscan;
      try done.
    apply (scan_arguments_events p Hok) in Hscan as (_ & -> & _).
    by injection Hstage as <- _. }
  destruct (positional_tokens_sublist p args) as [Hsub Hnone].
  rewrite Hca. split; [done|].
  intros token Htoken%Hnone. unfold option_start in Htoken.
  destruct (all_options_ p !! token) as [o|]; [done|]. split; [done|].
  destruct (short_name_to_name_of_option_ p !! token) as [k|] eqn:Hk; [|done].
  destruct (ok_short p Hok token k Hk) as [_ [o Ho]].
  simpl in Htoken. congruence.
Qed.

Lemma positional_tokens_are_no_options_witness :
  ["notes.txt"] `sublist_of` ["-b"; "notes.txt"; "-l"; "3"].
Proof.
  destruct (positional_tokens_are_no_options main_parser "cat"
              ["-b"; "notes.txt"; "-l"; "3"] ["notes.txt"]
              {["--back" := []; "--lines" := ["3"]]}
              main_parser_reachable) as [Hsub _].
  - vm_compute. reflexivity.
  - exact Hsub.
Defined.

(** ** What a returning [Parse] leaves *)

(** X20. A [Parse] that returns, returns [true], and changes nothing but
    the path and the bound values: although it reads the options through
    [all_options_[...]], which inserts an entry for a key that is absent,
    no entry is added. *)
Theorem Parse_returns_true_and_keeps_schema (p : Parser) (argv : list string)
    (result : bool) (p' : Parser) :
  reachable p ->
  Parse p argv = Returned result p' ->
  result = true /\
  head argv = Some (app_path_ p') /\
  app_name_ p' = app_name_ p /\ app_note_ p' = app_note_ p /\
  have_argument_pack_ p' = have_argument_pack_ p /\
  all_arguments_ p' = all_arguments_ p /\
  all_options_ p' = all_options_ p /\
  short_name_to_name_of_option_ p' = short_name_to_name_of_option_ p.
Proof.
  intros Hok%reachable_schema_ok Hparse.
  destruct (Parse_Returned p Hok argv result p' Hparse)
    as (path & args & co & cv1 & -> & -> & _ & _ & _ & _ & ->).
  by split_and!.
Qed.

Lemma Parse_returns_true_and_keeps_schema_witness :
  exists p',
    Parse main_parser ["./cat"; "notes.txt"; "-b"] = Returned true p' /\
    app_path_ p' = "./cat" /\ all_options_ p' = all_options_ main_parser.
Proof.
  assert (Hparse : exists p',
            Parse main_parser ["./cat"; "notes.txt"; "-b"] = Returned true p')
    by (vm_compute; eexists; reflexivity).
  destruct Hparse as [p' Hparse]. exists p'. split; [exact Hparse|].
  destruct (Parse_returns_true_and_keeps_schema main_parser
              ["./cat"; "notes.txt"; "-b"] true p' main_parser_reachable Hparse)
    as (_ & Hpath & _ & _ & _ & _ & Hoptions & _).
  split; [|exact Hoptions]. simpl in Hpath. by injection Hpath as <-.
Defined.

Section BoundKeys.

Variable p : Parser.
Hypothesis Hreach : reachable p.

(** A key is the name or the short name of an option that was matched, or
    no option that was matched is bound under it. *)
Lemma written_or_not (args : list string) (key : string) :
  (exists name o,
     all_options_ p !! name = Some o /\ matched p args name /\
     (key = name \/ (Option.short_name o <> "" /\ key = Option.short_name o))) \/
  (forall name o,
     all_options_ p !! name = Some o ->
     captured name (events_of p args) <> [] ->
     key <> name /\ (Option.short_name o <> "" -> key <> Option.short_name o)).
Proof.
  pose proof (reachable_schema_ok p Hreach) as Hok.
  pose proof (option_name_of_start p Hok key) as Hstart.
  assert (Hfound : forall name o,
            all_options_ p !! name = Some o ->
            key = name \/ (Option.short_name o <> "" /\ key = Option.short_name o) ->
            option_start (all_options_ p) (short_name_to_name_of_option_ p) key
            = Some o).
  { intros name o Ho [->|[Hshort ->]]; unfold option_start.
    - by rewrite Ho.
    - destruct (alias_of p Hok name o Ho Hshort) as [Hshape _].
      destruct (all_options_ p !! Option.short_name o) as [o2|] eqn:Ho2.
      + destruct (ok_long p Hok _ _ Ho2) as [_ Hlong].
        destruct (shapes_differ _ Hlong Hshape).
      + rewrite (ok_alias p Hok name o Ho Hshort). simpl. done. }
  destruct (option_start _ _ key) as [o|] eqn:Hkey.
  - destruct Hstart as (_ & _ & Ho).
    destruct (captured (Option.name o) (events_of p args)) as [|w ws]
      eqn:Hcaptured.
    + right. intros name o' Ho' Hmatched.
      assert (Hnot : ~ (key = name \/
                        (Option.short_name o' <> "" /\
                         key = Option.short_name o'))).
      { intros Hwritten. pose proof (Hfound name o' Ho' Hwritten) as Hsame.
        injection Hsame as <-.
        destruct (ok_long p Hok _ _ Ho') as [Hname _].
        rewrite Hname in Hcaptured. congruence. }
      split; [tauto|]. intros Hshort Heq. apply Hnot. by right.
    + left. exists (Option.name o), o. split_and!; [done| |].
      * unfold matched. by rewrite Hcaptured.
      * unfold option_start in Hkey.
        destruct (all_options_ p !! key) as [o2|] eqn:Ho2.
        -- injection Hkey as ->.
           destruct (ok_long p Hok _ _ Ho2) as [-> _]. by left.
        -- destruct (short_name_to_name_of_option_ p !! key) as [long|] eqn:Hlong;
             [|done].
           simpl in Hkey.
           destruct (reachable_alias_target p Hreach key long Hlong)
             as (o3 & Ho3 & Hshort).
           rewrite Ho3 in Hkey. injection Hkey as ->.
           right. split; [|done]. rewrite Hshort. intros ->.
           by destruct (ok_short p Hok _ _ Hlong) as [? _].
  - right. intros name o Ho _.
    assert (Hnot : ~ (key = name \/
                      (Option.short_name o <> "" /\
                       key = Option.short_name o))).
    { intros Hwritten. by pose proof (Hfound name o Ho Hwritten). }
    split; [tauto|]. intros Hshort Heq. apply Hnot. by right.
Qed.

End BoundKeys.

(** X21. After a [Parse] that returned, the keys under which a value is
    bound are the names of the declared arguments, and the names and the
    short names of the options that were matched, and no others. *)
Theorem bound_keys (p : Parser) (path : string) (args : list string)
    (p' : Parser) (key : string) :
  reachable p ->
  vector_sizes (all_arguments_ p) args ->
  Parse p (path :: args) = Returned true p' ->
  is_Some (cur_values_ p' !! key) <->
  (exists a, a ∈ all_arguments_ p /\ Argument.name a = key) \/
  (exists name o,
     all_options_ p !! name = Some o /\ matched p args name /\
     (key = name \/ (Option.short_name o <> "" /\ key = Option.short_name o))).
Proof.
  intros Hreach [HD HP] Hparse.
  apply reachable_schema_ok in Hreach as Hok.
  destruct (Parse_Returned p Hok _ true p' Hparse)
    as (path' & args' & co & cv0 & [= <- <-] & _ & Hstage & _ & _ & _ & _).
  assert (Hsizes : vector_sizes (all_arguments_ p)
                     (positional_tokens (events_of p args))).
  { split; [done|]. pose proof (positional_tokens_length p args). lia. }
  split.
  - intros Hbound.
    destruct (written_or_not p Hreach args key) as [Hwritten|Hnot];
      [by right|].
    left.
    destruct (bound_elsewhere p Hok _ true p' Hparse path args key eq_refl Hnot)
      as (cv1 & Hbind & Hsame).
    destruct (decide (key ∈ Argument.name <$> all_arguments_ p))
      as [(a & -> & Ha)%list_elem_of_fmap|Hno]; [by exists a|].
    rewrite Hsame, (bind_arguments_frame p _ _ _ _ _ Hbind Hno) in Hbound.
    rewrite lookup_empty in Hbound. by destruct Hbound.
  - intros [(a & Ha & <-)|(name & o & Ho & Hmatched & Hkey)].
    + apply list_elem_of_lookup_1 in Ha as [i Hi].
      by destruct (argument_bound p Hok _ p' _ _ i a Hsizes Hparse Hstage Hi)
        as (_ & ? & _).
    + rewrite (bound_matched p Hok _ _ _ Hparse path args name o eq_refl Ho
                 Hmatched key Hkey).
      eauto.
Qed.

Lemma bound_keys_witness :
  exists p',
    Parse main_parser ["cat"; "notes.txt"; "-b"] = Returned true p' /\
    is_Some (cur_values_ p' !! "file") /\
    ~ is_Some (cur_values_ p' !! "-l").
Proof.
  assert (Hparse : exists p',
            Parse main_parser ["cat"; "notes.txt"; "-b"] = Returned true p')
    by (vm_compute; eexists; reflexivity).
  destruct Hparse as [p' Hparse]. exists p'. split; [exact Hparse|].
  assert (Hsizes : vector_sizes (all_arguments_ main_parser)
                     ["notes.txt"; "-b"])
    by (split; vm_compute; reflexivity).
  assert (Hevents : events_of main_parser ["notes.txt"; "-b"]
                    = [Positional "notes.txt"; OptionStart "--back" []])
    by (vm_compute; reflexivity).
  assert (Hargs : all_arguments_ main_parser
                  = [Argument.mk "file" "text file path" false false])
    by (vm_compute; reflexivity).
  split.
  - apply (bound_keys main_parser "cat" ["notes.txt"; "-b"] p' "file"
             main_parser_reachable Hsizes Hparse).
    left. exists (Argument.mk "file" "text file path" false false).
    split; [|reflexivity]. rewrite Hargs. by left.
  - intros Hbound.
    apply (bound_keys main_parser "cat" ["notes.txt"; "-b"] p' "-l"
             main_parser_reachable Hsizes Hparse) in Hbound.
    destruct Hbound as [(a & Ha & Hname)|(name & o & Ho & Hmatched & Hkey)].
    + rewrite Hargs in Ha. apply list_elem_of_singleton in Ha as ->.
      discriminate Hname.
    + unfold matched in Hmatched. rewrite Hevents in Hmatched.
      simpl in Hmatched.
      destruct (decide ("--back" = name)) as [<-|Hne].
      * assert (Hback : all_options_ main_parser !! "--back"
                        = Some (Option.mk "--back" "-b" "from the back" 0
                                  false 1))
          by (vm_compute; reflexivity).
        rewrite Hback in Ho. injection Ho as <-.
        destruct Hkey as [Hkey|[_ Hkey]]; discriminate Hkey.
      * by apply Hmatched.
Defined.
